(** * CAN / Ethernet gateway simulation: the data plane, embedded in Rocq

    Shallow embedding of [src/utils.py], [src/can_bus.py],
    [src/ethernet_bus.py], [src/security.py], [src/gateway.py],
    [src/metrics.py] and the loop of the secure scenario of
    [src/scenarios.py].

    Conventions of the embedding.
    - Python [bytes] are [list byte]; Python [str] values are Rocq
      strings holding the UTF-8 encoding, so that [str.encode()] is
      [list_byte_of_string].  The values of [os.environ] are the
      exception: they may hold bytes that are not UTF-8, on which
      [encode] raises.
    - Python [int] is [Z].  Timestamps ([ts_ms], declared [int] in the
      dataclasses) and latencies are [Z] as well.
    - Python [float] results are IEEE 754 doubles, given exactly as
      whole numbers of units of [2^-1074], with the rounding of every
      operation and the exceptions of the conversions; the averages of
      the translator and of the engine are kept as the exact quotient.
    - A function that can raise returns a [result] (or an [option],
      where there is one exception only).
    - Objects mutated in place become records that every method takes and
      returns; the wall clock and [os.environ] are explicit inputs.
    - Locks are not modelled: every method body runs as one step.  The
      blocking receive is modelled after its timeout, [recv_batch] over
      the list of its clock readings with no producer running, and the
      [time.sleep] calls of the translator are left out. *)

From Stdlib Require Import ZArith QArith List Lia Sorting.Sorted.
From Stdlib Require Import Strings.String Strings.Ascii Strings.Byte.
From stdpp Require Import gmap strings list pretty sorting.
Import ListNotations.

Local Open Scope Z_scope.

(** ** Bytes *)

Definition byte_to_Z (b : byte) : Z := Z.of_N (Byte.to_N b).

Definition byte_of_Z (z : Z) : byte :=
  match Byte.of_N (Z.to_N (z mod 256)) with
  | Some b => b
  | None => x00
  end.

#[global] Instance byte_eq_decision : EqDecision byte := Byte.byte_eq_dec.

(** [b[:-n]] and [b[-n:]] of Python, for [n > 0]. *)
Definition drop_last (n : nat) (b : list byte) : list byte :=
  firstn (length b - n) b.

Definition take_last (n : nat) (b : list byte) : list byte :=
  skipn (length b - n) b.

(** [needle in haystack] on bytes. *)
Fixpoint starts_with (needle hay : list byte) : bool :=
  match needle, hay with
  | [], _ => true
  | _ :: _, [] => false
  | n :: needle', h :: hay' =>
      if decide (n = h) then starts_with needle' hay' else false
  end.

Fixpoint bytes_contains (needle hay : list byte) : bool :=
  starts_with needle hay
  || match hay with
     | [] => false
     | _ :: hay' => bytes_contains needle hay'
     end.

(** ** [hashlib.sha256] (FIPS 180-4) *)

Module hashlib.

Definition mask32 (x : Z) : Z := x mod 2 ^ 32.

Definition add32 (x y : Z) : Z := mask32 (x + y).

Definition rotr (n x : Z) : Z :=
  Z.lor (Z.shiftr x n) (mask32 (Z.shiftl x (32 - n))).

Definition ch (x y z : Z) : Z :=
  Z.lxor (Z.land x y) (Z.land (Z.lxor x (2 ^ 32 - 1)) z).

Definition maj (x y z : Z) : Z :=
  Z.lxor (Z.lxor (Z.land x y) (Z.land x z)) (Z.land y z).

Definition bsig0 (x : Z) : Z := Z.lxor (Z.lxor (rotr 2 x) (rotr 13 x)) (rotr 22 x).
Definition bsig1 (x : Z) : Z := Z.lxor (Z.lxor (rotr 6 x) (rotr 11 x)) (rotr 25 x).
Definition ssig0 (x : Z) : Z := Z.lxor (Z.lxor (rotr 7 x) (rotr 18 x)) (Z.shiftr x 3).
Definition ssig1 (x : Z) : Z := Z.lxor (Z.lxor (rotr 17 x) (rotr 19 x)) (Z.shiftr x 10).

(** The round constants are the leading fraction bits of the cube roots
    of the first 64 primes, the initial state those of the square roots
    of the first 8. *)
Definition is_prime (p : nat) : bool :=
  forallb (fun d => negb (Nat.eqb (p mod d) 0)) (seq 2 (p - 2)).

Definition primes : list Z :=
  Eval vm_compute in map Z.of_nat (filter is_prime (seq 2 310)).

Fixpoint icbrt_bits (bits : nat) (n r : Z) : Z :=
  match bits with
  | O => r
  | S bits' =>
      let c := r + 2 ^ Z.of_nat bits' in
      icbrt_bits bits' n (if c * c * c <=? n then c else r)
  end.

Definition icbrt (n : Z) : Z := icbrt_bits 48 n 0.

Definition K : list Z :=
  Eval vm_compute in map (fun p => mask32 (icbrt (p * 2 ^ 96))) primes.

Definition H0 : list Z :=
  Eval vm_compute in map (fun p => mask32 (Z.sqrt (p * 2 ^ 64))) (firstn 8 primes).

Record state := State {
  ha : Z; hb : Z; hc : Z; hd : Z; he : Z; hf : Z; hg : Z; hh : Z }.

Definition init : state :=
  match H0 with
  | [a; b; c; d; e; f; g; h] => State a b c d e f g h
  | _ => State 0 0 0 0 0 0 0 0
  end.

Definition be32 (w : Z) : list byte :=
  [byte_of_Z (Z.shiftr w 24); byte_of_Z (Z.shiftr w 16);
   byte_of_Z (Z.shiftr w 8); byte_of_Z w].

Fixpoint be_to_Z (acc : Z) (bs : list byte) : Z :=
  match bs with
  | [] => acc
  | b :: bs' => be_to_Z (acc * 256 + byte_to_Z b) bs'
  end.

(** Padding: a [0x80] byte, zeros up to 56 modulo 64, and the bit length
    on 8 bytes. *)
Definition pad (msg : list byte) : list byte :=
  let len := Z.of_nat (length msg) in
  let bits := len * 8 in
  msg ++ [x80] ++ repeat x00 (Z.to_nat ((55 - len) mod 64))
      ++ be32 (Z.shiftr bits 32) ++ be32 bits.

(** The 64-word message schedule of a 64-byte block, built in reverse. *)
Fixpoint block_words (n : nat) (blk : list byte) : list Z :=
  match n with
  | O => []
  | S n' => be_to_Z 0 (firstn 4 blk) :: block_words n' (skipn 4 blk)
  end.

Fixpoint extend (n : nat) (rev_w : list Z) : list Z :=
  match n with
  | O => rev_w
  | S n' =>
      let w :=
        add32 (add32 (ssig1 (nth 1 rev_w 0)) (nth 6 rev_w 0))
              (add32 (ssig0 (nth 14 rev_w 0)) (nth 15 rev_w 0)) in
      extend n' (w :: rev_w)
  end.

Definition schedule (blk : list byte) : list Z :=
  rev (extend 48 (rev (block_words 16 blk))).

Definition round (s : state) (kw : Z * Z) : state :=
  let t1 := add32 (add32 (add32 (hh s) (bsig1 (he s)))
                         (add32 (ch (he s) (hf s) (hg s)) (fst kw))) (snd kw) in
  let t2 := add32 (bsig0 (ha s)) (maj (ha s) (hb s) (hc s)) in
  State (add32 t1 t2) (ha s) (hb s) (hc s) (add32 (hd s) t1) (he s) (hf s) (hg s).

Definition compress (s : state) (blk : list byte) : state :=
  let r := fold_left round (combine K (schedule blk)) s in
  State (add32 (ha s) (ha r)) (add32 (hb s) (hb r)) (add32 (hc s) (hc r))
        (add32 (hd s) (hd r)) (add32 (he s) (he r)) (add32 (hf s) (hf r))
        (add32 (hg s) (hg r)) (add32 (hh s) (hh r)).

Fixpoint blocks (n : nat) (bs : list byte) : list (list byte) :=
  match n with
  | O => []
  | S n' => firstn 64 bs :: blocks n' (skipn 64 bs)
  end.

Definition output (s : state) : list byte :=
  be32 (ha s) ++ be32 (hb s) ++ be32 (hc s) ++ be32 (hd s)
    ++ be32 (he s) ++ be32 (hf s) ++ be32 (hg s) ++ be32 (hh s).

(** [hashlib.sha256(msg).digest()] *)
Definition sha256 (msg : list byte) : list byte :=
  let p := pad msg in
  output (fold_left compress (blocks (length p / 64) p) init).

Definition hex_digit (z : Z) : ascii :=
  ascii_of_nat (Z.to_nat (if z <? 10 then 48 + z else 87 + z)).

Fixpoint hex (bs : list byte) : string :=
  match bs with
  | [] => EmptyString
  | b :: bs' =>
      String (hex_digit (byte_to_Z b / 16))
             (String (hex_digit (byte_to_Z b mod 16)) (hex bs'))
  end.

(** [hashlib.sha256(msg).hexdigest()] *)
Definition sha256_hexdigest (msg : list byte) : string := hex (sha256 msg).

End hashlib.

(** ** [hmac.new(key, msg, hashlib.sha256).digest()] (RFC 2104) *)

Module hmac.

Definition block_size : nat := 64.

Definition xor_pad (c : Z) (key : list byte) : list byte :=
  map (fun b => byte_of_Z (Z.lxor (byte_to_Z b) c)) key.

Definition block_key (key : list byte) : list byte :=
  let k := if (block_size <? length key)%nat then hashlib.sha256 key else key in
  k ++ repeat x00 (block_size - length k).

Definition digest (key msg : list byte) : list byte :=
  let k := block_key key in
  hashlib.sha256 (xor_pad 0x5c k ++ hashlib.sha256 (xor_pad 0x36 k ++ msg)).

(** [hmac.compare_digest]: equality of the two byte strings (the
    constant running time is not modelled). *)
Definition compare_digest (a b : list byte) : bool := bool_decide (a = b).

End hmac.

(** ** Exceptions

    A call that can raise returns a [result]: its value, or the
    exception that escapes. *)

Inductive exn := IndexError | OverflowError | ZeroDivisionError | StatisticsError.

Inductive result (A : Type) := ok (a : A) | raised (e : exn).
Arguments ok {A} a.
Arguments raised {A} e.

#[global] Instance result_ret : MRet result := fun A a => ok a.

#[global] Instance result_bind : MBind result := fun A B f r =>
  match r with
  | ok a => f a
  | raised e => raised e
  end.

(** ** Python [float]: IEEE 754 binary64

    Every finite double is a whole number of units of [2^-1074], the
    smallest subnormal; a finite [float] is given by that number.  The
    doubles are the units [m * 2^e] with [|m| <= 2^53] and [e >= 0],
    below [2^1024] in magnitude.  An operation computes the exact
    rational result and rounds it to the nearest double, ties to even.
    NaN and the sign of zero are not modelled. *)

Module binary64.

(** [1.0] and [2.0 ** 1024], in units. *)
Definition one : Z := 2 ^ 1074.
Definition overflow : Z := 2 ^ 2098.

(** The integer nearest to [n / d], ties to even, for [d > 0]. *)
Definition round_half_even (n d : Z) : Z :=
  let q := n / d in
  let r := n mod d in
  if 2 * r <? d then q
  else if d <? 2 * r then q + 1
  else if Z.even q then q else q + 1.

(** The exponent [e] of the binade of [n / d] units, for [n, d > 0]:
    [2^(52 + e) <= n / d < 2^(53 + e)], and 0 below [2^53] units, where
    every unit is a double. *)
Definition exponent (n d : Z) : Z :=
  let e0 := Z.log2 n - Z.log2 d - 52 in
  if e0 <=? 0 then 0
  else if n <? d * 2 ^ (52 + e0) then e0 - 1 else e0.

Definition round_pos (n d : Z) : Z :=
  let e := exponent n d in
  round_half_even n (d * 2 ^ e) * 2 ^ e.

(** The double nearest to [n / d] units, for [d > 0], with an unbounded
    exponent range upwards. *)
Definition round (n d : Z) : Z :=
  if 0 <=? n then round_pos n d else - round_pos (- n) d.

(** The same for [b <> 0] of either sign. *)
Definition quotient (a b : Z) : Z :=
  if 0 <? b then round a b else round (- a) (- b).

(** The non-negative doubles, in units (without the upper bound). *)
Definition representable (x : Z) : Prop :=
  exists g f : Z, 0 <= f /\ 0 <= g <= 2 ^ 53 /\ x = g * 2 ^ f.

Inductive float := finite (units : Z) | infinity (negative : bool).

(** A float operation that overflows returns an infinity. *)
Definition clamp (x : Z) : float :=
  if overflow <=? x then infinity false
  else if x <=? - overflow then infinity true
  else finite x.

(** A conversion from [int] that overflows raises. *)
Definition checked (x : Z) : result Z :=
  if (overflow <=? x) || (x <=? - overflow) then raised OverflowError else ok x.

(** [float(z)] for an [int]. *)
Definition of_int (z : Z) : result Z := checked (round (z * one) 1).

(** [a / b] for two [int]s: the correctly rounded quotient. *)
Definition true_div (a b : Z) : result Z :=
  if b =? 0 then raised ZeroDivisionError else checked (quotient (a * one) b).

(** [int(x)] for a finite float: truncation towards zero. *)
Definition to_int (x : Z) : Z := Z.quot x one.

(** [x * y] and [x / y] for finite floats. *)
Definition mul (x y : Z) : float := clamp (quotient (x * y) one).

Definition div (x y : Z) : result float :=
  if y =? 0 then raised ZeroDivisionError else ok (clamp (quotient (x * one) y)).

(** [x / y] for a finite [x] and any [y]. *)
Definition div_by (x : Z) (y : float) : result float :=
  match y with
  | finite y => div x y
  | infinity _ => ok (finite 0)
  end.

Definition lt (x y : float) : bool :=
  match x, y with
  | finite x, finite y => x <? y
  | finite _, infinity negative => negb negative
  | infinity negative, finite _ => negative
  | infinity n1, infinity n2 => n1 && negb n2
  end.

(** [max(x, y)] of Python: [y] if [y > x], else [x]. *)
Definition max (x y : float) : float := if lt x y then y else x.

(** What [statistics.mean] returns on [int]s: an [int] or a [float]. *)
Inductive number := int (z : Z) | float_ (x : Z).

Definition value (v : number) : Q :=
  match v with
  | int z => inject_Z z
  | float_ x => Qmake x (Z.to_pos one)
  end.

End binary64.

(** ** [src/utils.py] *)

Module utils.

(** [class Counter]; the module-level instance [msg_counter] is threaded
    through every function that mints an identifier. *)
Record Counter := { value : Z }.

Definition get_next (self : Counter) : Counter * Z :=
  let v := value self + 1 in
  ({| value := v |}, v).

Definition gen_id (prefix : string) (msg_counter : Counter) : Counter * string :=
  let '(msg_counter, n) := get_next msg_counter in
  (msg_counter, prefix +:+ pretty n).

(** One [gen_id] per prefix of the list, in order. *)
Fixpoint gen_ids (prefixes : list string) (msg_counter : Counter)
  : Counter * list string :=
  match prefixes with
  | [] => (msg_counter, [])
  | prefix :: prefixes' =>
      let '(msg_counter, id) := gen_id prefix msg_counter in
      let '(msg_counter, ids) := gen_ids prefixes' msg_counter in
      (msg_counter, id :: ids)
  end.

(** [l[i]] of Python on a list: a negative index counts from the end,
    and an index out of range raises [IndexError]. *)
Definition py_index (l : list Z) (i : Z) : result Z :=
  let n := Z.of_nat (length l) in
  let item :=
    if 0 <=? i then l !! Z.to_nat i
    else if 0 <=? n + i then l !! Z.to_nat (n + i)
    else None in
  match item with
  | Some v => ok v
  | None => raised IndexError
  end.

(** [calculate_latency_percentile]; the latencies are in ticks.  In
    [int(len * percentile / 100)] the product is an [int], [/] is the
    true division of two [int]s, which rounds the quotient to a float
    or raises [OverflowError], and [int] truncates towards zero. *)
Definition calculate_latency_percentile (latencies : list Z) (percentile : Z)
  : result Z :=
  match latencies with
  | [] => ok 0
  | _ :: _ =>
      let sorted_latencies := merge_sort Z.le latencies in
      x ← binary64.true_div (Z.of_nat (length sorted_latencies) * percentile) 100;
      let index := binary64.to_int x in
      py_index sorted_latencies
        (Z.min index (Z.of_nat (length sorted_latencies) - 1))
  end.

End utils.

(** ** [src/can_bus.py] *)

Module can_bus.

Record CANFrame := {
  ts_ms : Z;
  can_id : Z;
  dlc : Z;
  data : list byte;
  src : string;
  msg_id : string }.

(** [queue.Queue()] is the list of queued frames, oldest first. *)
Record HighPerformanceCANBus := {
  q : list CANFrame;
  batch_size : Z;
  messages_sent : Z;
  messages_received : Z }.

Definition init (batch_size : Z) : HighPerformanceCANBus :=
  {| q := []; batch_size := batch_size;
     messages_sent := 0; messages_received := 0 |}.

Definition q_put (self : HighPerformanceCANBus) (frame : CANFrame) :=
  {| q := q self ++ [frame]; batch_size := batch_size self;
     messages_sent := messages_sent self;
     messages_received := messages_received self |}.

Definition add_sent (self : HighPerformanceCANBus) (n : Z) :=
  {| q := q self; batch_size := batch_size self;
     messages_sent := messages_sent self + n;
     messages_received := messages_received self |}.

Definition send (self : HighPerformanceCANBus) (frame : CANFrame) :=
  let self := add_sent self 1 in
  q_put self frame.

Definition send_batch (self : HighPerformanceCANBus) (frames : list CANFrame) :=
  let self := add_sent self (Z.of_nat (length frames)) in
  fold_left q_put frames self.

(** [recv] once the timeout has run out with no producer active: [None]
    on an empty queue. *)
Definition recv (self : HighPerformanceCANBus)
  : HighPerformanceCANBus * option CANFrame :=
  match q self with
  | [] => (self, None)
  | frame :: rest =>
      ({| q := rest; batch_size := batch_size self;
          messages_sent := messages_sent self;
          messages_received := messages_received self + 1 |}, Some frame)
  end.

Record Stats := { sent : Z; received : Z; queued : Z }.

Definition get_stats (self : HighPerformanceCANBus) : Stats :=
  {| sent := messages_sent self;
     received := messages_received self;
     queued := Z.of_nat (length (q self)) |}.

(** [recv_batch] with no producer running.  The readings of
    [time.time()] come from [clock], a finite trace in ticks; when the
    trace is used up the deadline has passed.  [q.get(timeout=...)] hands
    over the head of the queue at once when there is one, and otherwise
    raises [queue.Empty] after its wait. *)
Fixpoint recv_batch_loop (self : HighPerformanceCANBus) (frames : list CANFrame)
    (max_frames deadline : Z) (clock : list Z)
  : HighPerformanceCANBus * list CANFrame :=
  if Z.of_nat (length frames) <? max_frames then
    match clock with
    | now :: clock1 =>
        if now <? deadline then
          match clock1 with
          | now' :: clock2 =>
              let remaining := deadline - now' in
              if remaining <=? 0 then (self, frames)
              else
                match recv self with
                | (self', Some frame) =>
                    recv_batch_loop self' (frames ++ [frame]) max_frames deadline clock2
                | (_, None) =>
                    match frames with
                    | _ :: _ => (self, frames)
                    | [] => recv_batch_loop self frames max_frames deadline clock2
                    end
                end
          | [] => (self, frames)
          end
        else (self, frames)
    | [] => (self, frames)
    end
  else (self, frames).

Definition recv_batch (self : HighPerformanceCANBus) (max_frames timeout : Z)
    (clock : list Z) : HighPerformanceCANBus * list CANFrame :=
  match clock with
  | now :: clock' => recv_batch_loop self [] max_frames (now + timeout) clock'
  | [] => (self, [])
  end.

(** A run of operations on one bus, with the frames handed out so far. *)
Inductive op :=
| Send (frame : CANFrame)
| SendBatch (frames : list CANFrame)
| Recv
| RecvBatch (max_frames timeout : Z) (clock : list Z).

Definition step (st : HighPerformanceCANBus * list CANFrame) (o : op)
  : HighPerformanceCANBus * list CANFrame :=
  match o with
  | Send frame => (send st.1 frame, st.2)
  | SendBatch frames => (send_batch st.1 frames, st.2)
  | Recv =>
      match recv st.1 with
      | (self, Some frame) => (self, st.2 ++ [frame])
      | (self, None) => (self, st.2)
      end
  | RecvBatch max_frames timeout clock =>
      let r := recv_batch st.1 max_frames timeout clock in
      (r.1, st.2 ++ r.2)
  end.

Definition run (self : HighPerformanceCANBus) (ops : list op)
  : HighPerformanceCANBus * list CANFrame :=
  fold_left step ops (self, []).

Definition handed_in (o : op) : list CANFrame :=
  match o with
  | Send frame => [frame]
  | SendBatch frames => frames
  | Recv => []
  | RecvBatch _ _ _ => []
  end.

End can_bus.

(** ** [src/ethernet_bus.py] *)

Module ethernet_bus.

Record EthernetPacket := {
  ts_ms : Z;
  src : string;
  dst : string;
  payload : list byte;
  msg_id : string;
  priority : Z }.

Record HighPerformanceEthernetBus := {
  q : list EthernetPacket;
  batch_size : Z;
  packets_sent : Z;
  packets_received : Z }.

Definition init (batch_size : Z) : HighPerformanceEthernetBus :=
  {| q := []; batch_size := batch_size;
     packets_sent := 0; packets_received := 0 |}.

Definition q_put (self : HighPerformanceEthernetBus) (pkt : EthernetPacket) :=
  {| q := q self ++ [pkt]; batch_size := batch_size self;
     packets_sent := packets_sent self;
     packets_received := packets_received self |}.

Definition add_sent (self : HighPerformanceEthernetBus) (n : Z) :=
  {| q := q self; batch_size := batch_size self;
     packets_sent := packets_sent self + n;
     packets_received := packets_received self |}.

Definition send (self : HighPerformanceEthernetBus) (pkt : EthernetPacket) :=
  let self := add_sent self 1 in
  q_put self pkt.

Definition send_batch (self : HighPerformanceEthernetBus)
    (packets : list EthernetPacket) :=
  let self := add_sent self (Z.of_nat (length packets)) in
  fold_left q_put packets self.

Definition recv (self : HighPerformanceEthernetBus)
  : HighPerformanceEthernetBus * option EthernetPacket :=
  match q self with
  | [] => (self, None)
  | pkt :: rest =>
      ({| q := rest; batch_size := batch_size self;
          packets_sent := packets_sent self;
          packets_received := packets_received self + 1 |}, Some pkt)
  end.

Record Stats := { sent : Z; received : Z; queued : Z }.

Definition get_stats (self : HighPerformanceEthernetBus) : Stats :=
  {| sent := packets_sent self;
     received := packets_received self;
     queued := Z.of_nat (length (q self)) |}.

(** [recv_batch] with no producer running.  The readings of
    [time.time()] come from [clock], a finite trace in ticks; when the
    trace is used up the deadline has passed.  [q.get(timeout=...)] hands
    over the head of the queue at once when there is one, and otherwise
    raises [queue.Empty] after its wait. *)
Fixpoint recv_batch_loop (self : HighPerformanceEthernetBus) (packets : list EthernetPacket)
    (max_packets deadline : Z) (clock : list Z)
  : HighPerformanceEthernetBus * list EthernetPacket :=
  if Z.of_nat (length packets) <? max_packets then
    match clock with
    | now :: clock1 =>
        if now <? deadline then
          match clock1 with
          | now' :: clock2 =>
              let remaining := deadline - now' in
              if remaining <=? 0 then (self, packets)
              else
                match recv self with
                | (self', Some pkt) =>
                    recv_batch_loop self' (packets ++ [pkt]) max_packets deadline clock2
                | (_, None) =>
                    match packets with
                    | _ :: _ => (self, packets)
                    | [] => recv_batch_loop self packets max_packets deadline clock2
                    end
                end
          | [] => (self, packets)
          end
        else (self, packets)
    | [] => (self, packets)
    end
  else (self, packets).

Definition recv_batch (self : HighPerformanceEthernetBus) (max_packets timeout : Z)
    (clock : list Z) : HighPerformanceEthernetBus * list EthernetPacket :=
  match clock with
  | now :: clock' => recv_batch_loop self [] max_packets (now + timeout) clock'
  | [] => (self, [])
  end.

(** A run of operations on one bus, with the packets handed out so far. *)
Inductive op :=
| Send (pkt : EthernetPacket)
| SendBatch (packets : list EthernetPacket)
| Recv
| RecvBatch (max_packets timeout : Z) (clock : list Z).

Definition step (st : HighPerformanceEthernetBus * list EthernetPacket) (o : op)
  : HighPerformanceEthernetBus * list EthernetPacket :=
  match o with
  | Send pkt => (send st.1 pkt, st.2)
  | SendBatch packets => (send_batch st.1 packets, st.2)
  | Recv =>
      match recv st.1 with
      | (self, Some pkt) => (self, st.2 ++ [pkt])
      | (self, None) => (self, st.2)
      end
  | RecvBatch max_packets timeout clock =>
      let r := recv_batch st.1 max_packets timeout clock in
      (r.1, st.2 ++ r.2)
  end.

Definition run (self : HighPerformanceEthernetBus) (ops : list op)
  : HighPerformanceEthernetBus * list EthernetPacket :=
  fold_left step ops (self, []).

Definition handed_in (o : op) : list EthernetPacket :=
  match o with
  | Send pkt => [pkt]
  | SendBatch packets => packets
  | Recv => []
  | RecvBatch _ _ _ => []
  end.

End ethernet_bus.

(** ** [src/security.py] *)

Module security.

Import can_bus ethernet_bus.

(** *** The authentication codec

    [SECRET] is computed when the module is imported, from the process
    environment; [environ] stands for [os.environ] at that moment.  A
    value of [os.environ] is the byte string the process was given,
    decoded as UTF-8 with [surrogateescape]: [str.encode()] gives these
    bytes back when they are well-formed UTF-8 and raises
    [UnicodeEncodeError] otherwise.  [None] stands for the exception,
    which makes the import fail. *)

Definition in_range (lo hi : Z) (b : byte) : bool :=
  (lo <=? byte_to_Z b) && (byte_to_Z b <=? hi).

(** Well-formed UTF-8 (Unicode, table 3-7): no overlong forms, no
    surrogates, nothing above [U+10FFFF]. *)
Fixpoint utf8_valid (bs : list byte) : bool :=
  match bs with
  | [] => true
  | b0 :: rest =>
      let c0 := byte_to_Z b0 in
      if c0 <? 0x80 then utf8_valid rest
      else if (0xC2 <=? c0) && (c0 <=? 0xDF) then
        match rest with
        | b1 :: rest1 => in_range 0x80 0xBF b1 && utf8_valid rest1
        | _ => false
        end
      else if (0xE0 <=? c0) && (c0 <=? 0xEF) then
        match rest with
        | b1 :: b2 :: rest2 =>
            in_range (if c0 =? 0xE0 then 0xA0 else 0x80)
                     (if c0 =? 0xED then 0x9F else 0xBF) b1
            && in_range 0x80 0xBF b2 && utf8_valid rest2
        | _ => false
        end
      else if (0xF0 <=? c0) && (c0 <=? 0xF4) then
        match rest with
        | b1 :: b2 :: b3 :: rest3 =>
            in_range (if c0 =? 0xF0 then 0x90 else 0x80)
                     (if c0 =? 0xF4 then 0x8F else 0xBF) b1
            && in_range 0x80 0xBF b2 && in_range 0x80 0xBF b3
            && utf8_valid rest3
        | _ => false
        end
      else false
  end.

(** [str.encode()] *)
Definition encode (s : string) : option (list byte) :=
  if utf8_valid (list_byte_of_string s) then Some (list_byte_of_string s)
  else None.

Definition SECRET (environ : gmap string string) : option (list byte) :=
  encode (default "gateway-secret-2025" (environ !! "HMAC_SECRET")).

(** The functions of a loaded module read the global [SECRET]; [secret]
    stands for its value. *)
Section WithSecret.

Variable secret : list byte.

Definition sign (data : list byte) : list byte :=
  firstn 8 (hmac.digest secret data).

Definition verify (data tag : list byte) : bool :=
  hmac.compare_digest (sign data) tag.

Definition attach_auth (payload : list byte) : list byte :=
  payload ++ sign payload.

Definition strip_and_verify (payload : list byte) : list byte * bool :=
  if (length payload <? 8)%nat then (payload, false)
  else
    let msg := drop_last 8 payload in
    let tag := take_last 8 payload in
    (msg, verify msg tag).

End WithSecret.

(** *** The intrusion detection system *)

(** Keys of [self.timestamps]: an [int] (a CAN id) or a [str] (an
    Ethernet source); the two never compare equal in Python. *)
Definition rate_key : Type := Z + string.

Record EnhancedIDS := {
  window_ms : Z;
  rate_threshold : Z;
  seen_hashes : gset string;
  timestamps : gmap rate_key (list Z);
  replay_detected : Z;
  dos_detected : Z;
  injection_detected : Z;
  spoofing_detected : Z;
  total_checked : Z;
  total_detected_packets : Z }.

Definition init (window_ms rate_threshold : Z) : EnhancedIDS :=
  {| window_ms := window_ms; rate_threshold := rate_threshold;
     seen_hashes := ∅; timestamps := ∅;
     replay_detected := 0; dos_detected := 0;
     injection_detected := 0; spoofing_detected := 0;
     total_checked := 0; total_detected_packets := 0 |}.

(** [EnhancedIDS()] with the default arguments. *)
Definition init_default : EnhancedIDS := init 1000 100.

Definition _hash_message (data : list byte) (identifier : string) : string :=
  hashlib.sha256_hexdigest (data ++ list_byte_of_string identifier).

(** [while dq and now - dq[0] > self.window_ms: dq.popleft()] *)
Fixpoint popleft_old (window_ms now : Z) (dq : list Z) : list Z :=
  match dq with
  | [] => []
  | t0 :: dq' =>
      if now - t0 >? window_ms then popleft_old window_ms now dq' else dq
  end.

Definition incr_if (b : bool) (n : Z) : Z := if b then n + 1 else n.

Module CanAlerts.
Record t := { replay : bool; dos_rate : bool; injection : bool; alerts : bool }.
End CanAlerts.

Module EthAlerts.
Record t := { replay : bool; dos_rate : bool; spoofing : bool; alerts : bool }.
End EthAlerts.

Definition check_can (self : EnhancedIDS) (frame : CANFrame)
  : EnhancedIDS * CanAlerts.t :=
  let total_checked' := total_checked self + 1 in
  let packet_alerted := false in
  (* Replay detection *)
  let msg_hash := _hash_message (data frame) (pretty (can_id frame)) in
  let replay := bool_decide (msg_hash ∈ seen_hashes self) in
  let packet_alerted := if replay then true else packet_alerted in
  let seen_hashes' := seen_hashes self ∪ {[ msg_hash ]} in
  (* DoS detection (rate-based) *)
  let dq := default [] (timestamps self !! inl (can_id frame)) in
  let now := can_bus.ts_ms frame in
  let dq := dq ++ [now] in
  let dq := popleft_old (window_ms self) now dq in
  let dos_rate := Z.of_nat (length dq) >? rate_threshold self in
  let packet_alerted := if dos_rate then true else packet_alerted in
  (* Injection detection (abnormal CAN ID) *)
  let injection := can_id frame >? 0x700 in
  let packet_alerted := if injection then true else packet_alerted in
  ({| window_ms := window_ms self;
      rate_threshold := rate_threshold self;
      seen_hashes := seen_hashes';
      timestamps := <[inl (can_id frame) := dq]> (timestamps self);
      replay_detected := incr_if replay (replay_detected self);
      dos_detected := incr_if dos_rate (dos_detected self);
      injection_detected := incr_if injection (injection_detected self);
      spoofing_detected := spoofing_detected self;
      total_checked := total_checked';
      total_detected_packets :=
        incr_if packet_alerted (total_detected_packets self) |},
   {| CanAlerts.replay := replay;
      CanAlerts.dos_rate := dos_rate;
      CanAlerts.injection := injection;
      CanAlerts.alerts := packet_alerted |}).

Definition check_eth (self : EnhancedIDS) (pkt : EthernetPacket)
  : EnhancedIDS * EthAlerts.t :=
  let total_checked' := total_checked self + 1 in
  let packet_alerted := false in
  (* Replay detection *)
  let msg_hash := _hash_message (payload pkt) (ethernet_bus.src pkt) in
  let replay := bool_decide (msg_hash ∈ seen_hashes self) in
  let packet_alerted := if replay then true else packet_alerted in
  let seen_hashes' := seen_hashes self ∪ {[ msg_hash ]} in
  (* DoS detection *)
  let dq := default [] (timestamps self !! inr (ethernet_bus.src pkt)) in
  let now := ethernet_bus.ts_ms pkt in
  let dq := dq ++ [now] in
  let dq := popleft_old (window_ms self) now dq in
  let dos_rate := Z.of_nat (length dq) >? rate_threshold self in
  let packet_alerted := if dos_rate then true else packet_alerted in
  (* Spoofing detection *)
  let spoofing :=
    bool_decide (ethernet_bus.src pkt = "attacker")
    || bytes_contains (list_byte_of_string "SPOOF") (payload pkt) in
  let packet_alerted := if spoofing then true else packet_alerted in
  ({| window_ms := window_ms self;
      rate_threshold := rate_threshold self;
      seen_hashes := seen_hashes';
      timestamps := <[inr (ethernet_bus.src pkt) := dq]> (timestamps self);
      replay_detected := incr_if replay (replay_detected self);
      dos_detected := incr_if dos_rate (dos_detected self);
      injection_detected := injection_detected self;
      spoofing_detected := incr_if spoofing (spoofing_detected self);
      total_checked := total_checked';
      total_detected_packets :=
        incr_if packet_alerted (total_detected_packets self) |},
   {| EthAlerts.replay := replay;
      EthAlerts.dos_rate := dos_rate;
      EthAlerts.spoofing := spoofing;
      EthAlerts.alerts := packet_alerted |}).

(** [get_stats]: the counters, and [detection_rate] as the exact
    quotient that Python's true division rounds to a float. *)
Record Stats := {
  stats_total_checked : Z;
  stats_total_detected_packets : Z;
  stats_replay_detected : Z;
  stats_dos_detected : Z;
  stats_injection_detected : Z;
  stats_spoofing_detected : Z;
  detection_rate : Q }.

Definition get_stats (self : EnhancedIDS) : Stats :=
  let detection_rate :=
    Qmake (total_detected_packets self)
          (Z.to_pos (Z.max (total_checked self) 1)) in
  {| stats_total_checked := total_checked self;
     stats_total_detected_packets := total_detected_packets self;
     stats_replay_detected := replay_detected self;
     stats_dos_detected := dos_detected self;
     stats_injection_detected := injection_detected self;
     stats_spoofing_detected := spoofing_detected self;
     detection_rate := detection_rate |}.

Definition filter_payload (payload : list byte) (max_len : Z) : bool :=
  (0 <? Z.of_nat (length payload)) && (Z.of_nat (length payload) <=? max_len).

(** A run of calls, as the gateways issue them. *)
Inductive call :=
| CheckCan (frame : CANFrame)
| CheckEth (pkt : EthernetPacket).

Definition perform (self : EnhancedIDS) (c : call) : EnhancedIDS :=
  match c with
  | CheckCan frame => fst (check_can self frame)
  | CheckEth pkt => fst (check_eth self pkt)
  end.

Definition run (self : EnhancedIDS) (calls : list call) : EnhancedIDS :=
  fold_left perform calls self.

(** One [check] after the other on a list of messages, with the verdicts
    in order. *)
Fixpoint check_all {M V : Type} (check : EnhancedIDS -> M -> EnhancedIDS * V)
    (self : EnhancedIDS) (msgs : list M) : EnhancedIDS * list V :=
  match msgs with
  | [] => (self, [])
  | msg :: msgs' =>
      let '(self, v) := check self msg in
      let '(self, vs) := check_all check self msgs' in
      (self, v :: vs)
  end.

Definition check_can_all := check_all check_can.

Definition check_eth_all := check_all check_eth.

End security.

(** ** [src/gateway.py] *)

Module gateway.

Import can_bus ethernet_bus.

(** The scenario label [_scenario] only selects the length of a
    [time.sleep]; it has no effect on the values computed and is left
    out of the state. *)
Record ProtocolTranslator := {
  can_to_eth_map : gmap Z string;
  eth_to_can_map : gmap string Z;
  translation_count : Z;
  latencies : list Z }.

Definition default_can_to_eth_map : gmap Z string :=
  <[0x100 := "192.168.0.10"]> (<[0x101 := "192.168.0.11"]>
    (<[0x200 := "192.168.0.20"]> (<[0x300 := "192.168.0.30"]> ∅))).

Definition default_eth_to_can_map : gmap string Z :=
  <["192.168.0.10" := 0x100]> (<["192.168.0.11" := 0x101]>
    (<["192.168.0.20" := 0x200]> (<["192.168.0.30" := 0x300]> ∅))).

(** [m or d] on an optional dict: [None] and the empty dict are falsy. *)
Definition dict_or `{Countable K} {V} (m : option (gmap K V)) (d : gmap K V)
  : gmap K V :=
  match m with
  | Some m => if (size m =? 0)%nat then d else m
  | None => d
  end.

(** [s or d] on an optional string: [None] and [""] are falsy. *)
Definition str_or (s : option string) (d : string) : string :=
  match s with
  | Some s => if decide (s = "") then d else s
  | None => d
  end.

Definition init (can_to_eth_map : option (gmap Z string))
    (eth_to_can_map : option (gmap string Z)) : ProtocolTranslator :=
  {| can_to_eth_map := dict_or can_to_eth_map default_can_to_eth_map;
     eth_to_can_map := dict_or eth_to_can_map default_eth_to_can_map;
     translation_count := 0;
     latencies := [] |}.

(** The three readings of [now_ms()] that one translation takes. *)
Record clock := { t_start : Z; t_stamp : Z; t_end : Z }.

Definition record_latency (self : ProtocolTranslator) (clk : clock) :=
  {| can_to_eth_map := can_to_eth_map self;
     eth_to_can_map := eth_to_can_map self;
     translation_count := translation_count self + 1;
     latencies := latencies self ++ [t_end clk - t_start clk] |}.

(** [x or gen_id(prefix)]: an identifier is minted, and the counter
    advanced, only when [x] is empty. *)
Definition msg_id_or_gen (x prefix : string) (msg_counter : utils.Counter)
  : utils.Counter * string :=
  if decide (x = "") then utils.gen_id prefix msg_counter
  else (msg_counter, x).

Definition can_to_eth (self : ProtocolTranslator) (clk : clock)
    (msg_counter : utils.Counter) (frame : CANFrame) (dst : option string)
  : ProtocolTranslator * utils.Counter * EthernetPacket :=
  let ip :=
    str_or dst (default "192.168.0.99" (can_to_eth_map self !! can_id frame)) in
  let '(msg_counter, id) :=
    msg_id_or_gen (can_bus.msg_id frame) "eth" msg_counter in
  let pkt :=
    {| ethernet_bus.ts_ms := t_stamp clk;
       ethernet_bus.src := "gateway";
       dst := ip;
       payload := data frame;
       ethernet_bus.msg_id := id;
       priority := 0 |} in
  (record_latency self clk, msg_counter, pkt).

Definition eth_to_can (self : ProtocolTranslator) (clk : clock)
    (msg_counter : utils.Counter) (pkt : EthernetPacket)
  : ProtocolTranslator * utils.Counter * CANFrame :=
  let can_id := default 0x200 (eth_to_can_map self !! ethernet_bus.src pkt) in
  let '(msg_counter, id) :=
    msg_id_or_gen (ethernet_bus.msg_id pkt) "can" msg_counter in
  let frame :=
    {| can_bus.ts_ms := t_stamp clk;
       can_id := can_id;
       dlc := Z.min (Z.of_nat (length (payload pkt))) 8;
       data := firstn 8 (payload pkt);
       can_bus.src := "gateway";
       can_bus.msg_id := id |} in
  (record_latency self clk, msg_counter, frame).

(** [get_stats]: the number of translations and the mean of the latency
    log, as the exact quotient that Python rounds; [0] on an empty log. *)
Record Stats := { translations : Z; avg_latency_ms : Q }.

Definition sum_Z (l : list Z) : Z := fold_right Z.add 0 l.

Definition get_stats (self : ProtocolTranslator) : Stats :=
  let avg_latency :=
    match latencies self with
    | [] => 0%Q
    | _ :: _ => Qmake (sum_Z (latencies self)) (Pos.of_nat (length (latencies self)))
    end in
  {| translations := translation_count self; avg_latency_ms := avg_latency |}.

(** A run of translations, each with its three clock readings; the
    translator and the global counter are threaded through. *)
Inductive translation :=
| CanToEth (clk : clock) (frame : CANFrame) (dst : option string)
| EthToCan (clk : clock) (pkt : EthernetPacket).

Definition translation_clock (t : translation) : clock :=
  match t with
  | CanToEth clk _ _ => clk
  | EthToCan clk _ => clk
  end.

Definition translate (st : ProtocolTranslator * utils.Counter) (t : translation)
  : ProtocolTranslator * utils.Counter :=
  match t with
  | CanToEth clk frame dst => (can_to_eth st.1 clk st.2 frame dst).1
  | EthToCan clk pkt => (eth_to_can st.1 clk st.2 pkt).1
  end.

Definition translate_all (st : ProtocolTranslator * utils.Counter)
    (ts : list translation) : ProtocolTranslator * utils.Counter :=
  fold_left translate ts st.

End gateway.

(** ** [src/metrics.py] *)

Module metrics.

(** A sample is a dict; its numeric fields are kept, in ticks. *)
Abbreviation sample := (gmap string Z).

Definition sum_Z (l : list Z) : Z := fold_right Z.add 0 l.

(** [statistics.mean] on [int]s: the exact sum is divided by the count
    as a fraction; a whole quotient is returned as an [int], any other
    is converted to a float, which rounds it or raises
    [OverflowError]. *)
Definition mean (l : list Z) : result binary64.number :=
  match l with
  | [] => raised StatisticsError
  | _ :: _ =>
      let total := sum_Z l in
      let n := Z.of_nat (length l) in
      if total mod n =? 0 then ok (binary64.int (total / n))
      else x ← binary64.true_div total n; ok (binary64.float_ x)
  end.

Record LatencyStats := {
  lat_mean : binary64.number;
  p50 : Z;
  p95 : Z;
  p99 : Z;
  lat_min : option Z;
  lat_max : option Z }.

(** [compute_latency]; the entries of the dict are evaluated in the
    order they are written.  The dict returned for no latencies has no
    ["min"] and ["max"] entries. *)
Definition compute_latency (samples : list sample) : result LatencyStats :=
  let latencies := omap (fun s : sample => s !! "latency_ms") samples in
  match latencies with
  | [] =>
      ok {| lat_mean := binary64.int 0; p50 := 0; p95 := 0; p99 := 0;
            lat_min := None; lat_max := None |}
  | x :: rest =>
      m ← mean latencies;
      v50 ← utils.calculate_latency_percentile latencies 50;
      v95 ← utils.calculate_latency_percentile latencies 95;
      v99 ← utils.calculate_latency_percentile latencies 99;
      ok {| lat_mean := m; p50 := v50; p95 := v95; p99 := v99;
            lat_min := Some (fold_right Z.min x rest);
            lat_max := Some (fold_right Z.max x rest) |}
  end.

(** [compute_packet_loss]: [(sent - received) / sent] is the true
    division of two [int]s, and the product with [100.0] is a float
    product. *)
Definition compute_packet_loss (sent received : Z) : result binary64.float :=
  if sent =? 0 then ok (binary64.finite 0)
  else
    ratio ← binary64.true_div (sent - received) sent;
    ok (binary64.mul ratio (100 * binary64.one)).

(** The literal [0.001]. *)
Definition milli : Z := binary64.round binary64.one 1000.

(** [compute_throughput]; [duration_s] is [None] when the argument is
    left out.  An [int] divided by a float is converted to a float
    first. *)
Definition compute_throughput (samples : list sample)
    (duration_s : option binary64.float) : result binary64.float :=
  match samples with
  | [] => ok (binary64.finite 0)
  | first :: _ =>
      duration_s ←
        match duration_s with
        | Some d => ok d
        | None =>
            let first_ts := default 0 (first !! "ts_ms") in
            let last_ts := default 0 (last samples ≫= fun s => s !! "ts_ms") in
            x ← binary64.of_int (last_ts - first_ts);
            elapsed ← binary64.div x (1000 * binary64.one);
            ok (binary64.max elapsed (binary64.finite milli))
        end;
      n ← binary64.of_int (Z.of_nat (length samples));
      binary64.div_by n duration_s
  end.

End metrics.

(** ** [src/scenarios.py]: the loop body of the secure scenario

    What one pass of [for frame in can_frames] in [run_secure] does to the
    engine, the two buses, the translator and the identifier counter.
    The latency samples and the records written for the report are left
    out: they are not read back by the loop. *)

Module scenarios.

Import can_bus ethernet_bus.

Record plant := {
  ids : security.EnhancedIDS;
  can : HighPerformanceCANBus;
  eth : HighPerformanceEthernetBus;
  translator : gateway.ProtocolTranslator;
  msg_counter : utils.Counter }.

Inductive status := passed | blocked_eth | blocked_can.

#[global] Instance status_eq_dec : EqDecision status.
Proof. solve_decision. Defined.

(** [run_secure] builds [EnhancedIDS(window_ms=1500, rate_threshold=40)]. *)
Definition fresh_plant (msg_counter : utils.Counter) : plant :=
  {| ids := security.init 1500 40;
     can := can_bus.init 50;
     eth := ethernet_bus.init 50;
     translator := gateway.init None None;
     msg_counter := msg_counter |}.

Section WithSecret.

Variable secret : list byte.

Definition auth_frame (frame : CANFrame) : CANFrame :=
  let auth_payload := security.attach_auth secret (data frame) in
  {| can_bus.ts_ms := can_bus.ts_ms frame;
     can_id := can_id frame;
     dlc := Z.of_nat (length auth_payload);
     data := auth_payload;
     can_bus.src := can_bus.src frame;
     can_bus.msg_id := can_bus.msg_id frame |}.

Definition secure_step (w : plant) (clk : gateway.clock) (frame : CANFrame)
  : plant * status :=
  let auth_frame := auth_frame frame in
  let '(ids, alerts) := security.check_can (ids w) auth_frame in
  if negb (security.CanAlerts.alerts alerts) then
    let can := can_bus.send (can w) auth_frame in
    let '(translator, msg_counter, eth_pkt) :=
      gateway.can_to_eth (translator w) clk (msg_counter w) auth_frame None in
    let '(ids, eth_alerts) := security.check_eth ids eth_pkt in
    if negb (security.EthAlerts.alerts eth_alerts) then
      ({| ids := ids; can := can; eth := ethernet_bus.send (eth w) eth_pkt;
          translator := translator; msg_counter := msg_counter |}, passed)
    else
      ({| ids := ids; can := can; eth := eth w;
          translator := translator; msg_counter := msg_counter |}, blocked_eth)
  else
    ({| ids := ids; can := can w; eth := eth w;
        translator := translator w; msg_counter := msg_counter w |}, blocked_can).

(** The loop over the frames, each with the clock readings of its
    translation. *)
Fixpoint secure_run (w : plant) (work : list (gateway.clock * CANFrame))
  : plant * list status :=
  match work with
  | [] => (w, [])
  | (clk, frame) :: work' =>
      let '(w, st) := secure_step w clk frame in
      let '(w, sts) := secure_run w work' in
      (w, st :: sts)
  end.

End WithSecret.

End scenarios.

(** ** Observers of a call to the engine

    The routing key of a call, its timestamp and its rate verdict, read
    off [check_can] and [check_eth]. *)

Module ids_call.

Import can_bus ethernet_bus.

Definition key (c : security.call) : security.rate_key :=
  match c with
  | security.CheckCan frame => inl (can_id frame)
  | security.CheckEth pkt => inr (ethernet_bus.src pkt)
  end.

Definition ts (c : security.call) : Z :=
  match c with
  | security.CheckCan frame => can_bus.ts_ms frame
  | security.CheckEth pkt => ethernet_bus.ts_ms pkt
  end.

Definition dos_rate (self : security.EnhancedIDS) (c : security.call) : bool :=
  match c with
  | security.CheckCan frame =>
      security.CanAlerts.dos_rate (security.check_can self frame).2
  | security.CheckEth pkt =>
      security.EthAlerts.dos_rate (security.check_eth self pkt).2
  end.

Definition replay (self : security.EnhancedIDS) (c : security.call) : bool :=
  match c with
  | security.CheckCan frame =>
      security.CanAlerts.replay (security.check_can self frame).2
  | security.CheckEth pkt =>
      security.EthAlerts.replay (security.check_eth self pkt).2
  end.

(** The byte string that [_hash_message] hashes for the call. *)
Definition hashed (c : security.call) : list byte :=
  match c with
  | security.CheckCan frame =>
      data frame ++ list_byte_of_string (pretty (can_id frame))
  | security.CheckEth pkt =>
      payload pkt ++ list_byte_of_string (ethernet_bus.src pkt)
  end.

End ids_call.

(** ** Sample values *)

Module sample.

Import can_bus ethernet_bus.

Definition frame (ts id : Z) (bytes : list byte) : CANFrame :=
  {| can_bus.ts_ms := ts; can_id := id; dlc := Z.of_nat (length bytes);
     data := bytes; can_bus.src := "node"; can_bus.msg_id := "" |}.

Definition packet (ts : Z) (from : string) (bytes : list byte) : EthernetPacket :=
  {| ethernet_bus.ts_ms := ts; ethernet_bus.src := from; dst := "192.168.0.10";
     payload := bytes; ethernet_bus.msg_id := ""; priority := 0 |}.

Definition translator : gateway.ProtocolTranslator := gateway.init None None.

Definition clk : gateway.clock :=
  {| gateway.t_start := 1000; gateway.t_stamp := 1001; gateway.t_end := 1002 |}.

Definition msg_counter : utils.Counter := {| utils.value := 41 |}.

(** The built-in secret. *)
Definition secret : list byte := list_byte_of_string "gateway-secret-2025".

(** An engine with a window of 10 ms and a threshold of 2, and three
    frames of id [0x100]: in a burst, and spread over 12 ms. *)
Definition ids : security.EnhancedIDS := security.init 10 2.

Definition burst : list CANFrame :=
  [frame 0 0x100 [x01]; frame 5 0x100 [x02]; frame 10 0x100 [x03]].

(** Two different frames whose payload followed by the decimal id is
    the same byte string, [aa 32 35 36]. *)
Definition frame_a : CANFrame := frame 5 0x100 [xaa].
Definition frame_b : CANFrame := frame 6 56 [xaa; x32].

Definition spread : list CANFrame :=
  [frame 0 0x100 [x01]; frame 6 0x100 [x02]; frame 12 0x100 [x03]].

(** Two earlier frames of the same id, both at time 0. *)
Definition history : list CANFrame :=
  [frame 0 0x100 [x0a]; frame 0 0x100 [x0b]].

Definition eth_burst : list EthernetPacket :=
  [packet 0 "node_1" [x01]; packet 5 "node_1" [x02]; packet 10 "node_1" [x03]].

End sample.

(** * Properties *)

Import can_bus ethernet_bus.

(** ** Test vectors for the hash functions *)

Example sha256_abc :
  hashlib.sha256_hexdigest (list_byte_of_string "abc")
  = "ba7816bf8f01cfea414140de5dae2223b00361a396177a9cb410ff61f20015ad".
Proof. vm_compute. reflexivity. Qed.

Example sha256_empty :
  hashlib.sha256_hexdigest []
  = "e3b0c44298fc1c149afbf4c8996fb92427ae41e4649b934ca495991b7852b855".
Proof. vm_compute. reflexivity. Qed.

Example sha256_two_blocks :
  hashlib.sha256_hexdigest (repeat x61 119)
  = "31eba51c313a5c08226adf18d4a359cfdfd8d2e816b13f4af952f7ea6584dcfb".
Proof. vm_compute. reflexivity. Qed.

Example hmac_rfc4231_case2 :
  hashlib.hex (hmac.digest (list_byte_of_string "Jefe")
                 (list_byte_of_string "what do ya want for nothing?"))
  = "5bdcc146bf60754e6a042426089575c75a003f089d2739839dec58b964ec3843".
Proof. vm_compute. reflexivity. Qed.

Example hmac_long_key :
  hashlib.hex (hmac.digest (repeat x61 100)
                 (list_byte_of_string "what do ya want for nothing?"))
  = "c59ad86867da810a63a2d64ffbabf8ad56a8449de1daaa23163f454b75c01821".
Proof. vm_compute. reflexivity. Qed.

(** ** The authentication codec *)

Section Codec.

Variable secret : list byte.

Lemma length_sha256 (msg : list byte) : length (hashlib.sha256 msg) = 32%nat.
Proof. reflexivity. Qed.

Lemma length_hmac_digest (key msg : list byte) :
  length (hmac.digest key msg) = 32%nat.
Proof. apply length_sha256. Qed.

Lemma length_sign (data : list byte) :
  length (security.sign secret data) = 8%nat.
Proof.
  unfold security.sign. rewrite length_firstn, length_hmac_digest. reflexivity.
Qed.

Lemma drop_last_app (n : nat) (b tag : list byte) :
  length tag = n -> drop_last n (b ++ tag) = b.
Proof.
  intros Hn. unfold drop_last. rewrite length_app, Hn.
  replace (length b + n - n)%nat with (length b + 0)%nat by lia.
  rewrite firstn_app_2. simpl. apply app_nil_r.
Qed.

Lemma take_last_app (n : nat) (b tag : list byte) :
  length tag = n -> take_last n (b ++ tag) = tag.
Proof.
  intros Hn. unfold take_last. rewrite length_app, Hn.
  replace (length b + n - n)%nat with (length b) by lia.
  rewrite skipn_app, skipn_all, Nat.sub_diag. reflexivity.
Qed.

Lemma verify_sign (data : list byte) :
  security.verify secret data (security.sign secret data) = true.
Proof.
  unfold security.verify, hmac.compare_digest. apply bool_decide_eq_true. reflexivity.
Qed.

Lemma strip_attach (m : list byte) :
  security.strip_and_verify secret (security.attach_auth secret m) = (m, true).
Proof.
  unfold security.strip_and_verify, security.attach_auth.
  pose proof (length_sign m) as Hlen.
  replace (length (m ++ security.sign secret m) <? 8)%nat with false.
  - rewrite (drop_last_app 8), (take_last_app 8) by exact Hlen.
    rewrite verify_sign. reflexivity.
  - symmetry. apply Nat.ltb_ge. rewrite length_app. lia.
Qed.

Lemma strip_short (payload : list byte) :
  (length payload < 8)%nat ->
  security.strip_and_verify secret payload = (payload, false).
Proof.
  intros Hlt. unfold security.strip_and_verify.
  apply Nat.ltb_lt in Hlt. rewrite Hlt. reflexivity.
Qed.

(** C1. For every payload [m], stripping and verifying [attach_auth m]
    gives back [m] with the flag set.  The tag is the first 8 bytes of
    HMAC-SHA-256 of [m] under [SECRET]. *)
Theorem strip_and_verify_attach_auth (m : list byte) :
  security.strip_and_verify secret (security.attach_auth secret m) = (m, true)
  /\ security.attach_auth secret m
     = m ++ firstn 8 (hmac.digest secret m)
  /\ length (security.attach_auth secret m) = (length m + 8)%nat.
Proof.
  split; [apply strip_attach|]. split; [reflexivity|].
  unfold security.attach_auth. rewrite length_app, length_sign. reflexivity.
Qed.

(** C9. [strip_and_verify] returns a pair on every input (it has no
    failing path), a payload shorter than the 8-byte tag comes back
    unchanged with [false], and [true] is only ever returned for a
    payload that is a message followed by its own tag. *)
Theorem strip_and_verify_never_raises (payload : list byte) :
  (exists msg valid, security.strip_and_verify secret payload = (msg, valid)
                     /\ (valid = true -> payload = security.attach_auth secret msg))
  /\ ((length payload < 8)%nat ->
      security.strip_and_verify secret payload = (payload, false)).
Proof.
  split; [|apply strip_short].
  unfold security.strip_and_verify.
  destruct (length payload <? 8)%nat eqn:Hlen.
  - exists payload, false. split; [reflexivity|discriminate].
  - eexists _, _. split; [reflexivity|].
    unfold security.verify, hmac.compare_digest. intros Hv.
    apply bool_decide_eq_true in Hv.
    unfold security.attach_auth. rewrite Hv.
    unfold drop_last, take_last. symmetry. apply firstn_skipn.
Qed.

End Codec.

Lemma strip_and_verify_never_raises_witness :
  security.strip_and_verify sample.secret [x01; x02; x03] = ([x01; x02; x03], false).
Proof.
  apply (proj2 (strip_and_verify_never_raises sample.secret [x01; x02; x03])).
  simpl. lia.
Defined.

(** C5, as the code has it.  The secret is read from the process
    environment when the module is loaded: the value of [HMAC_SECRET],
    or the built-in default when the variable is missing, which does not
    fail.  Loading fails only for a value that cannot be encoded, bytes
    that are not well-formed UTF-8. *)
Theorem secret_comes_from_environ (environ : gmap string string) :
  (environ !! "HMAC_SECRET" = None ->
   security.SECRET environ = Some (list_byte_of_string "gateway-secret-2025"))
  /\ (forall v : string,
        environ !! "HMAC_SECRET" = Some v ->
        (security.SECRET environ = None
         <-> security.utf8_valid (list_byte_of_string v) = false)
        /\ (forall secret, security.SECRET environ = Some secret ->
                           secret = list_byte_of_string v)).
Proof.
  unfold security.SECRET, security.encode. split.
  - intros ->. reflexivity.
  - intros v ->. cbn [default from_option]. unfold id.
    destruct (security.utf8_valid (list_byte_of_string v)).
    + split; [split; discriminate|]. intros secret [= <-]. reflexivity.
    + split; [split; reflexivity|]. discriminate.
Qed.

Lemma secret_comes_from_environ_witness :
  security.SECRET (<["HMAC_SECRET" := string_of_list_byte [xc3; x28]]> ∅) = None.
Proof.
  apply (proj2 (secret_comes_from_environ
                  (<["HMAC_SECRET" := string_of_list_byte [xc3; x28]]> ∅))
           (string_of_list_byte [xc3; x28])).
  - apply lookup_insert_eq.
  - reflexivity.
Defined.

(** C5, as the specification words it, fails.  In an environment without
    [HMAC_SECRET] nothing fails: the secret is the built-in default and
    the codec signs and verifies; and the secret, and with it the tag of
    a payload, changes with the environment, which is ambient state. *)
Lemma missing_secret_counterexample :
  (∅ : gmap string string) !! "HMAC_SECRET" = None
  /\ security.SECRET ∅ = Some sample.secret
  /\ hashlib.hex (security.sign sample.secret (list_byte_of_string "12"))
     = "5f2ce159b2bbf79d"
  /\ security.strip_and_verify sample.secret
       (security.attach_auth sample.secret (list_byte_of_string "12"))
     = (list_byte_of_string "12", true)
  /\ security.SECRET (<["HMAC_SECRET" := "k"]> ∅) = Some (list_byte_of_string "k")
  /\ security.sign (list_byte_of_string "k") (list_byte_of_string "12")
     <> security.sign sample.secret (list_byte_of_string "12").
Proof.
  split; [reflexivity|]. split; [vm_compute; reflexivity|].
  split; [vm_compute; reflexivity|]. split; [vm_compute; reflexivity|].
  split; [vm_compute; reflexivity|].
  vm_compute. discriminate.
Qed.

(** ** The message buses *)

Lemma can_fold_q_put (frames : list CANFrame) (self : HighPerformanceCANBus) :
  fold_left can_bus.q_put frames self
  = {| can_bus.q := can_bus.q self ++ frames;
       can_bus.batch_size := can_bus.batch_size self;
       messages_sent := messages_sent self;
       messages_received := messages_received self |}.
Proof.
  revert self. induction frames as [|frame frames IH]; intros self; simpl.
  - rewrite app_nil_r. destruct self; reflexivity.
  - rewrite IH. simpl. rewrite <- app_assoc. reflexivity.
Qed.

Lemma can_fold_send (frames : list CANFrame) (self : HighPerformanceCANBus) :
  fold_left can_bus.send frames self
  = {| can_bus.q := can_bus.q self ++ frames;
       can_bus.batch_size := can_bus.batch_size self;
       messages_sent := messages_sent self + Z.of_nat (length frames);
       messages_received := messages_received self |}.
Proof.
  revert self. induction frames as [|frame frames IH]; intros self.
  - simpl. rewrite app_nil_r, Z.add_0_r. destruct self; reflexivity.
  - cbn [fold_left]. rewrite IH. cbn. rewrite <- app_assoc. f_equal. lia.
Qed.

Lemma eth_fold_q_put (packets : list EthernetPacket)
    (self : HighPerformanceEthernetBus) :
  fold_left ethernet_bus.q_put packets self
  = {| ethernet_bus.q := ethernet_bus.q self ++ packets;
       ethernet_bus.batch_size := ethernet_bus.batch_size self;
       packets_sent := packets_sent self;
       packets_received := packets_received self |}.
Proof.
  revert self. induction packets as [|pkt packets IH]; intros self; simpl.
  - rewrite app_nil_r. destruct self; reflexivity.
  - rewrite IH. simpl. rewrite <- app_assoc. reflexivity.
Qed.

Lemma eth_fold_send (packets : list EthernetPacket)
    (self : HighPerformanceEthernetBus) :
  fold_left ethernet_bus.send packets self
  = {| ethernet_bus.q := ethernet_bus.q self ++ packets;
       ethernet_bus.batch_size := ethernet_bus.batch_size self;
       packets_sent := packets_sent self + Z.of_nat (length packets);
       packets_received := packets_received self |}.
Proof.
  revert self. induction packets as [|pkt packets IH]; intros self.
  - simpl. rewrite app_nil_r, Z.add_0_r. destruct self; reflexivity.
  - cbn [fold_left]. rewrite IH. cbn. rewrite <- app_assoc. f_equal. lia.
Qed.

(** C6. On either bus and from every state, [send_batch L] ends in the
    state that [send] on each element of [L] in order ends in: the queue
    is the old one followed by [L], [sent] has grown by [len(L)], and
    [received] is untouched. *)
Theorem send_batch_is_repeated_send :
  (forall (self : HighPerformanceCANBus) (frames : list CANFrame),
      can_bus.send_batch self frames = fold_left can_bus.send frames self
      /\ can_bus.q (can_bus.send_batch self frames) = can_bus.q self ++ frames
      /\ messages_sent (can_bus.send_batch self frames)
         = messages_sent self + Z.of_nat (length frames)
      /\ messages_received (can_bus.send_batch self frames)
         = messages_received self)
  /\ (forall (self : HighPerformanceEthernetBus) (packets : list EthernetPacket),
      ethernet_bus.send_batch self packets = fold_left ethernet_bus.send packets self
      /\ ethernet_bus.q (ethernet_bus.send_batch self packets)
         = ethernet_bus.q self ++ packets
      /\ packets_sent (ethernet_bus.send_batch self packets)
         = packets_sent self + Z.of_nat (length packets)
      /\ packets_received (ethernet_bus.send_batch self packets)
         = packets_received self).
Proof.
  split; intros self l.
  - unfold can_bus.send_batch. rewrite can_fold_q_put, can_fold_send.
    repeat split; reflexivity.
  - unfold ethernet_bus.send_batch. rewrite eth_fold_q_put, eth_fold_send.
    repeat split; reflexivity.
Qed.

(** ** The protocol translator *)

Section Translator.

Variable self : gateway.ProtocolTranslator.
Variable clk : gateway.clock.
Variable msg_counter : utils.Counter.

Lemma eth_to_can_frame (pkt : EthernetPacket) :
  (gateway.eth_to_can self clk msg_counter pkt).2
  = {| can_bus.ts_ms := gateway.t_stamp clk;
       can_id := default 0x200
                   (gateway.eth_to_can_map self !! ethernet_bus.src pkt);
       dlc := Z.min (Z.of_nat (length (payload pkt))) 8;
       data := firstn 8 (payload pkt);
       can_bus.src := "gateway";
       can_bus.msg_id :=
         (gateway.msg_id_or_gen (ethernet_bus.msg_id pkt) "can" msg_counter).2 |}.
Proof.
  unfold gateway.eth_to_can.
  destruct (gateway.msg_id_or_gen _ _ _) as [c id]. reflexivity.
Qed.

Lemma can_to_eth_packet (frame : CANFrame) (dst : option string) :
  (gateway.can_to_eth self clk msg_counter frame dst).2
  = {| ethernet_bus.ts_ms := gateway.t_stamp clk;
       ethernet_bus.src := "gateway";
       ethernet_bus.dst :=
         gateway.str_or dst
           (default "192.168.0.99" (gateway.can_to_eth_map self !! can_id frame));
       payload := data frame;
       ethernet_bus.msg_id :=
         (gateway.msg_id_or_gen (can_bus.msg_id frame) "eth" msg_counter).2;
       priority := 0 |}.
Proof.
  unfold gateway.can_to_eth.
  destruct (gateway.msg_id_or_gen _ _ _) as [c id]. reflexivity.
Qed.

(** C4. For every packet, [eth_to_can] returns a frame (there is no
    failing path) whose [dlc] is [min(len(payload), 8)], whose data are
    the first 8 bytes of the payload, and whose id is the entry of the
    reverse table for the packet's source, else [0x200]; so the data
    are never longer than 8 bytes and always [dlc] bytes long. *)
Theorem eth_to_can_truncates (pkt : EthernetPacket) :
  let frame := (gateway.eth_to_can self clk msg_counter pkt).2 in
  dlc frame = Z.min (Z.of_nat (length (payload pkt))) 8
  /\ data frame = firstn 8 (payload pkt)
  /\ can_id frame
     = match gateway.eth_to_can_map self !! ethernet_bus.src pkt with
       | Some id => id
       | None => 0x200
       end
  /\ (length (data frame) <= 8)%nat
  /\ Z.of_nat (length (data frame)) = dlc frame
  /\ 0 <= dlc frame <= 8.
Proof.
  cbv zeta. rewrite eth_to_can_frame. cbn.
  repeat apply conj; try reflexivity; rewrite ?length_firstn; lia.
Qed.

End Translator.

(** C8, as the specification words it, fails when the caller gives the
    empty string as [dst]: [dst or ...] takes the empty string for a
    missing argument and the table decides. *)
Lemma can_to_eth_empty_dst_counterexample :
  let pkt := (gateway.can_to_eth sample.translator sample.clk sample.msg_counter
                (sample.frame 5 0x100 [x01]) (Some "")).2 in
  ethernet_bus.dst pkt = "192.168.0.10" /\ ethernet_bus.dst pkt <> "".
Proof. vm_compute. split; [reflexivity|discriminate]. Qed.

(** C8, as the code has it.  The destination is [dst] when it is given
    and not empty; otherwise the entry of the id-to-address table for the
    frame's id, and ["192.168.0.99"] when the id has no entry.  The
    payload is carried unchanged.  The frame's [msg_id] is copied when it
    is not empty, and otherwise minted from the global counter.  With the
    default table, id [0x100] resolves to ["192.168.0.10"]. *)
Theorem can_to_eth_destination
    (self : gateway.ProtocolTranslator) (clk : gateway.clock)
    (msg_counter : utils.Counter) (frame : CANFrame) (dst : option string) :
  let pkt := (gateway.can_to_eth self clk msg_counter frame dst).2 in
  let table :=
    match gateway.can_to_eth_map self !! can_id frame with
    | Some address => address
    | None => "192.168.0.99"
    end in
  (forall d, dst = Some d -> d <> "" -> ethernet_bus.dst pkt = d)
  /\ (dst = None \/ dst = Some "" -> ethernet_bus.dst pkt = table)
  /\ payload pkt = data frame
  /\ (can_bus.msg_id frame <> "" -> ethernet_bus.msg_id pkt = can_bus.msg_id frame)
  /\ (can_bus.msg_id frame = "" ->
      ethernet_bus.msg_id pkt = "eth" +:+ pretty (utils.value msg_counter + 1))
  /\ gateway.can_to_eth_map (gateway.init None None) !! 0x100 = Some "192.168.0.10"
  /\ gateway.can_to_eth_map (gateway.init None None) !! 0x555 = None.
Proof.
  cbv zeta. rewrite can_to_eth_packet. cbn.
  repeat apply conj.
  - intros d -> Hd. unfold gateway.str_or. destruct (decide (d = "")); congruence.
  - intros [-> | ->]; reflexivity.
  - reflexivity.
  - intros Hid. unfold gateway.msg_id_or_gen.
    destruct (decide (can_bus.msg_id frame = "")); [contradiction|reflexivity].
  - intros Hid. unfold gateway.msg_id_or_gen.
    destruct (decide (can_bus.msg_id frame = "")); [reflexivity|contradiction].
  - reflexivity.
  - reflexivity.
Qed.

Lemma can_to_eth_destination_witness :
  ethernet_bus.dst
    (gateway.can_to_eth sample.translator sample.clk sample.msg_counter
       (sample.frame 5 0x100 [x01]) (Some "10.0.0.7")).2
  = "10.0.0.7".
Proof.
  apply (proj1 (can_to_eth_destination sample.translator sample.clk
                  sample.msg_counter (sample.frame 5 0x100 [x01])
                  (Some "10.0.0.7")) "10.0.0.7").
  - reflexivity.
  - discriminate.
Defined.

(** ** The intrusion detection system *)

(** C7. [check_can] reports an injection exactly when the frame's id is
    greater than [0x700]: id [0x701] is reported, id [0x100] is not. *)
Theorem check_can_injection (self : security.EnhancedIDS) (frame : CANFrame) :
  (security.CanAlerts.injection (security.check_can self frame).2 = true
   <-> can_id frame > 0x700)
  /\ (can_id frame = 0x701 ->
      security.CanAlerts.injection (security.check_can self frame).2 = true)
  /\ (can_id frame = 0x100 ->
      security.CanAlerts.injection (security.check_can self frame).2 = false).
Proof.
  change (security.CanAlerts.injection (security.check_can self frame).2)
    with (can_id frame >? 0x700).
  split; [|split].
  - rewrite Z.gtb_lt. lia.
  - intros ->. reflexivity.
  - intros ->. reflexivity.
Qed.

Lemma check_can_injection_witness :
  security.CanAlerts.injection
    (security.check_can security.init_default (sample.frame 5 0x701 [x01])).2
  = true.
Proof.
  apply (proj1 (proj2 (check_can_injection security.init_default
                         (sample.frame 5 0x701 [x01])))).
  reflexivity.
Defined.

(** *** Counters *)

Lemma check_can_counters (self : security.EnhancedIDS) (frame : CANFrame) :
  let r := security.check_can self frame in
  security.total_checked r.1 = security.total_checked self + 1
  /\ security.CanAlerts.alerts r.2
     = security.CanAlerts.replay r.2 || security.CanAlerts.dos_rate r.2
       || security.CanAlerts.injection r.2
  /\ security.total_detected_packets r.1
     = security.incr_if (security.CanAlerts.alerts r.2)
         (security.total_detected_packets self).
Proof.
  unfold security.check_can. cbv zeta.
  generalize (bool_decide
    (security._hash_message (data frame) (pretty (can_id frame))
       ∈ security.seen_hashes self)).
  intros replay.
  generalize (Z.of_nat (length (security.popleft_old (security.window_ms self)
    (can_bus.ts_ms frame)
    (default [] (security.timestamps self !! inl (can_id frame))
       ++ [can_bus.ts_ms frame]))) >? security.rate_threshold self).
  intros dos_rate.
  generalize (can_id frame >? 0x700). intros injection.
  destruct replay, dos_rate, injection; repeat split.
Qed.

Lemma check_eth_counters (self : security.EnhancedIDS) (pkt : EthernetPacket) :
  let r := security.check_eth self pkt in
  security.total_checked r.1 = security.total_checked self + 1
  /\ security.EthAlerts.alerts r.2
     = security.EthAlerts.replay r.2 || security.EthAlerts.dos_rate r.2
       || security.EthAlerts.spoofing r.2
  /\ security.total_detected_packets r.1
     = security.incr_if (security.EthAlerts.alerts r.2)
         (security.total_detected_packets self).
Proof.
  unfold security.check_eth. cbv zeta.
  generalize (bool_decide
    (security._hash_message (payload pkt) (ethernet_bus.src pkt)
       ∈ security.seen_hashes self)).
  intros replay.
  generalize (Z.of_nat (length (security.popleft_old (security.window_ms self)
    (ethernet_bus.ts_ms pkt)
    (default [] (security.timestamps self !! inr (ethernet_bus.src pkt))
       ++ [ethernet_bus.ts_ms pkt]))) >? security.rate_threshold self).
  intros dos_rate.
  generalize (bool_decide (ethernet_bus.src pkt = "attacker")
              || bytes_contains (list_byte_of_string "SPOOF") (payload pkt)).
  intros spoofing.
  destruct replay, dos_rate, spoofing; repeat split.
Qed.

Lemma incr_if_bounds (b : bool) (n : Z) : n <= security.incr_if b n <= n + 1.
Proof. destruct b; simpl; lia. Qed.

Lemma perform_counters (self : security.EnhancedIDS) (c : security.call) :
  security.total_checked (security.perform self c) = security.total_checked self + 1
  /\ security.total_detected_packets self
     <= security.total_detected_packets (security.perform self c)
     <= security.total_detected_packets self + 1.
Proof.
  destruct c as [frame | pkt]; unfold security.perform.
  - destruct (check_can_counters self frame) as (Hc & _ & Hd).
    rewrite Hc, Hd. split; [reflexivity|apply incr_if_bounds].
  - destruct (check_eth_counters self pkt) as (Hc & _ & Hd).
    rewrite Hc, Hd. split; [reflexivity|apply incr_if_bounds].
Qed.

Lemma run_counters (calls : list security.call) (self : security.EnhancedIDS) :
  0 <= security.total_detected_packets self <= security.total_checked self ->
  security.total_checked (security.run self calls)
  = security.total_checked self + Z.of_nat (length calls)
  /\ 0 <= security.total_detected_packets (security.run self calls)
       <= security.total_checked (security.run self calls).
Proof.
  revert self. induction calls as [|c calls IH]; intros self Hself.
  - simpl. split; lia.
  - change (security.run self (c :: calls))
      with (security.run (security.perform self c) calls).
    destruct (perform_counters self c) as [Hc Hd].
    destruct (IH (security.perform self c)) as [IHc IHd]; [lia|].
    split; [|exact IHd]. rewrite IHc, Hc. simpl length. lia.
Qed.

Lemma detection_rate_bounds (self : security.EnhancedIDS) :
  0 <= security.total_detected_packets self <= security.total_checked self ->
  (0 <= security.detection_rate (security.get_stats self) <= 1)%Q.
Proof.
  intros [H0 Hle]. unfold security.get_stats, security.detection_rate, Qle.
  cbn [Qnum Qden]. rewrite Z2Pos.id by lia. lia.
Qed.

(** C10. After any sequence of [check_can] and [check_eth] calls on a
    fresh engine, [total_checked] is the number of calls made,
    [total_detected_packets] lies between 0 and [total_checked], and the
    [detection_rate] of [get_stats] lies between 0 and 1; the next call
    adds one to [total_checked], and adds one to
    [total_detected_packets] exactly when one of the three flags of its
    verdict is set. *)
Theorem ids_counters_invariant
    (window_ms rate_threshold : Z) (calls : list security.call) :
  let self := security.run (security.init window_ms rate_threshold) calls in
  security.total_checked self = Z.of_nat (length calls)
  /\ 0 <= security.total_detected_packets self <= security.total_checked self
  /\ (0 <= security.detection_rate (security.get_stats self) <= 1)%Q
  /\ (forall frame : CANFrame,
        let r := security.check_can self frame in
        let flagged := security.CanAlerts.replay r.2
                       || security.CanAlerts.dos_rate r.2
                       || security.CanAlerts.injection r.2 in
        security.total_checked r.1 = security.total_checked self + 1
        /\ security.total_detected_packets r.1
           = security.total_detected_packets self + (if flagged then 1 else 0))
  /\ (forall pkt : EthernetPacket,
        let r := security.check_eth self pkt in
        let flagged := security.EthAlerts.replay r.2
                       || security.EthAlerts.dos_rate r.2
                       || security.EthAlerts.spoofing r.2 in
        security.total_checked r.1 = security.total_checked self + 1
        /\ security.total_detected_packets r.1
           = security.total_detected_packets self + (if flagged then 1 else 0)).
Proof.
  cbv zeta.
  destruct (run_counters calls (security.init window_ms rate_threshold))
    as [Hc Hd]; [simpl; lia|].
  split; [rewrite Hc; simpl; lia|]. split; [exact Hd|].
  split; [apply detection_rate_bounds, Hd|]. split.
  - intros frame. destruct (check_can_counters
      (security.run (security.init window_ms rate_threshold) calls) frame)
      as (Hc' & Ha & Hd').
    split; [exact Hc'|]. rewrite Hd', Ha.
    destruct (_ || _ || _); simpl; lia.
  - intros pkt. destruct (check_eth_counters
      (security.run (security.init window_ms rate_threshold) calls) pkt)
      as (Hc' & Ha & Hd').
    split; [exact Hc'|]. rewrite Hd', Ha.
    destruct (_ || _ || _); simpl; lia.
Qed.

(** *** The rate window *)

(** [self.timestamps[key]], read without creating it, and what a check
    with timestamp [now] leaves there. *)
Local Abbreviation window s key :=
  (default [] (security.timestamps s !! (key : security.rate_key))).

Local Abbreviation pushed s key now :=
  (security.popleft_old (security.window_ms s) now%Z (window s key ++ [now%Z])).

Lemma popleft_old_suffix (w now : Z) (dq : list Z) :
  security.popleft_old w now dq `suffix_of` dq.
Proof.
  induction dq as [|t0 dq IH]; simpl; [reflexivity|].
  destruct (now - t0 >? w); [|reflexivity].
  apply suffix_cons_r, IH.
Qed.

Lemma popleft_old_length (w now : Z) (dq : list Z) :
  (length (security.popleft_old w now dq) <= length dq)%nat.
Proof. apply suffix_length, popleft_old_suffix. Qed.

(** Entries that are not older than the window are never popped, whatever
    stands before them. *)
Lemma popleft_old_keeps (w now : Z) (pre ours : list Z) :
  Forall (fun t => now - t <= w) ours ->
  exists pre', security.popleft_old w now (pre ++ ours) = pre' ++ ours.
Proof.
  intros Hours. induction pre as [|p pre IH]; simpl.
  - exists []. destruct Hours as [|t ours Ht Hours]; simpl; [reflexivity|].
    destruct (now - t >? w) eqn:Hgt; [|reflexivity].
    apply Z.gtb_lt in Hgt. lia.
  - destruct (now - p >? w); [exact IH|].
    exists (p :: pre). reflexivity.
Qed.

(** Entries at the front that are all older than the window are all
    popped. *)
Lemma popleft_old_expired (w now : Z) (pre dq : list Z) :
  Forall (fun t => now - t > w) pre ->
  security.popleft_old w now (pre ++ dq) = security.popleft_old w now dq.
Proof.
  induction 1 as [|t pre Ht _ IH]; [reflexivity|]. simpl.
  replace (now - t >? w) with true by (symmetry; apply Z.gtb_lt; lia).
  exact IH.
Qed.

Lemma filter_all (w now : Z) (dq : list Z) :
  Forall (fun t => now - t <= w) dq ->
  filter (fun t => now - t <= w) dq = dq.
Proof.
  induction 1 as [|t dq Ht Hall IH]; [reflexivity|].
  rewrite filter_cons_True by exact Ht. f_equal. exact IH.
Qed.

(** On a non-decreasing deque the loop removes every entry older than the
    window and nothing else. *)
Lemma popleft_old_sorted (w now : Z) (dq : list Z) :
  StronglySorted Z.le dq ->
  security.popleft_old w now dq = filter (fun t => now - t <= w) dq.
Proof.
  induction 1 as [|t0 dq Hsorted IH Hall]; simpl; [reflexivity|].
  destruct (now - t0 >? w) eqn:Hgt.
  - apply Z.gtb_lt in Hgt. rewrite filter_cons_False by lia. exact IH.
  - assert (now - t0 <= w) as Hle.
    { destruct (Z.gtb_spec (now - t0) w); [discriminate|lia]. }
    rewrite filter_cons_True by exact Hle. f_equal.
    symmetry. apply filter_all.
    eapply Forall_impl; [exact Hall|]. simpl. intros t Ht. lia.
Qed.

Lemma check_can_step (self : security.EnhancedIDS) (frame : CANFrame) :
  let r := security.check_can self frame in
  let dq := pushed self (inl (can_id frame)) (can_bus.ts_ms frame) in
  security.window_ms r.1 = security.window_ms self
  /\ security.rate_threshold r.1 = security.rate_threshold self
  /\ security.timestamps r.1
     = <[inl (can_id frame) := dq]> (security.timestamps self)
  /\ security.CanAlerts.dos_rate r.2
     = (Z.of_nat (length dq) >? security.rate_threshold self).
Proof. repeat split. Qed.

Lemma check_eth_step (self : security.EnhancedIDS) (pkt : EthernetPacket) :
  let r := security.check_eth self pkt in
  let dq := pushed self (inr (ethernet_bus.src pkt)) (ethernet_bus.ts_ms pkt) in
  security.window_ms r.1 = security.window_ms self
  /\ security.rate_threshold r.1 = security.rate_threshold self
  /\ security.timestamps r.1
     = <[inr (ethernet_bus.src pkt) := dq]> (security.timestamps self)
  /\ security.EthAlerts.dos_rate r.2
     = (Z.of_nat (length dq) >? security.rate_threshold self).
Proof. repeat split. Qed.

(** The two checks treat the rate window alike; the argument is made once,
    for any check that updates the deque of its key as they do. *)
Section RateWindow.

Context {M V : Type}.
Variable key_of : M -> security.rate_key.
Variable ts_of : M -> Z.
Variable dos_of : V -> bool.
Variable check : security.EnhancedIDS -> M -> security.EnhancedIDS * V.

Hypothesis check_step : forall self m,
  security.window_ms (check self m).1 = security.window_ms self
  /\ security.rate_threshold (check self m).1 = security.rate_threshold self
  /\ security.timestamps (check self m).1
     = <[key_of m := pushed self (key_of m) (ts_of m)]> (security.timestamps self)
  /\ dos_of (check self m).2
     = (Z.of_nat (length (pushed self (key_of m) (ts_of m)))
        >? security.rate_threshold self).

Lemma check_window (self : security.EnhancedIDS) (m : M) :
  window (check self m).1 (key_of m) = pushed self (key_of m) (ts_of m).
Proof.
  destruct (check_step self m) as (_ & _ & -> & _).
  rewrite lookup_insert_eq. reflexivity.
Qed.

Lemma check_all_cons (self : security.EnhancedIDS) (m : M) (msgs : list M) :
  security.check_all check self (m :: msgs)
  = ((security.check_all check (check self m).1 msgs).1,
     (check self m).2 :: (security.check_all check (check self m).1 msgs).2).
Proof.
  cbn [security.check_all].
  destruct (check self m) as [s v]. cbn [fst snd].
  destruct (security.check_all check s msgs) as [s' vs]. reflexivity.
Qed.

Lemma check_all_snoc (msgs : list M) (self : security.EnhancedIDS) (m : M) :
  security.check_all check self (msgs ++ [m])
  = ((check (security.check_all check self msgs).1 m).1,
     (security.check_all check self msgs).2
       ++ [(check (security.check_all check self msgs).1 m).2]).
Proof.
  revert self. induction msgs as [|m0 msgs IH]; intros self.
  - cbn [app]. rewrite check_all_cons. reflexivity.
  - change ((m0 :: msgs) ++ [m]) with (m0 :: (msgs ++ [m])).
    rewrite !check_all_cons, IH. reflexivity.
Qed.

Lemma check_all_length (msgs : list M) (self : security.EnhancedIDS) :
  length (security.check_all check self msgs).2 = length msgs.
Proof.
  revert self. induction msgs as [|m msgs IH]; intros self; [reflexivity|].
  rewrite check_all_cons. cbn [snd length]. rewrite IH. reflexivity.
Qed.

Lemma check_all_params (msgs : list M) (self : security.EnhancedIDS) :
  security.window_ms (security.check_all check self msgs).1
  = security.window_ms self
  /\ security.rate_threshold (security.check_all check self msgs).1
     = security.rate_threshold self.
Proof.
  revert self. induction msgs as [|m msgs IH]; intros self; [split; reflexivity|].
  rewrite check_all_cons. cbn [fst].
  destruct (IH (check self m).1) as [-> ->].
  destruct (check_step self m) as (-> & -> & _). split; reflexivity.
Qed.

Variable key : security.rate_key.

Abbreviation same_key msgs := (Forall (fun m => key_of m = key) msgs).

(** The deque of the key only ever loses entries at the front. *)
Lemma window_suffix (msgs : list M) (self : security.EnhancedIDS) :
  same_key msgs ->
  window (security.check_all check self msgs).1 key
    `suffix_of` (window self key ++ map ts_of msgs).
Proof.
  revert self. induction msgs as [|m msgs IH]; intros self Hkey.
  - simpl. rewrite app_nil_r. reflexivity.
  - apply Forall_cons in Hkey as [Hm Hkey].
    rewrite check_all_cons. cbn [fst map].
    etrans; [apply IH, Hkey|].
    rewrite <- Hm, check_window.
    replace (window self (key_of m) ++ ts_of m :: map ts_of msgs)
      with ((window self (key_of m) ++ [ts_of m]) ++ map ts_of msgs)
      by (rewrite <- app_assoc; reflexivity).
    apply suffix_app, popleft_old_suffix.
Qed.

(** Timestamps that all lie within the window of each other stay in the
    deque, whatever it held before. *)
Lemma window_keeps (msgs : list M) (self : security.EnhancedIDS)
    (pre acc : list Z) :
  same_key msgs ->
  window self key = pre ++ acc ->
  Forall (fun m => Forall (fun t => ts_of m - t <= security.window_ms self)
                     (acc ++ map ts_of msgs)) msgs ->
  exists pre',
    window (security.check_all check self msgs).1 key
    = pre' ++ acc ++ map ts_of msgs.
Proof.
  revert self pre acc. induction msgs as [|m msgs IH];
    intros self pre acc Hkey Hwin Hnear.
  - exists pre. simpl. rewrite app_nil_r. exact Hwin.
  - apply Forall_cons in Hkey as [Hm Hkey].
    apply Forall_cons in Hnear as [Hnow Hnear].
    rewrite check_all_cons. cbn [fst map].
    assert (Forall (fun t => ts_of m - t <= security.window_ms self)
              (acc ++ [ts_of m])) as Hours.
    { cbn [map] in Hnow. apply Forall_app in Hnow as [Hacc Hrest].
      apply Forall_cons in Hrest as [Hts _].
      apply Forall_app. split; [exact Hacc|]. repeat constructor. exact Hts. }
    destruct (popleft_old_keeps (security.window_ms self) (ts_of m)
                pre (acc ++ [ts_of m]) Hours) as [pre' Hpre'].
    destruct (IH (check self m).1 pre' (acc ++ [ts_of m])) as [pre'' Hfinal].
    + exact Hkey.
    + rewrite <- Hm, check_window, Hm, Hwin, <- app_assoc. exact Hpre'.
    + destruct (check_step self m) as (-> & _).
      eapply Forall_impl; [exact Hnear|]. simpl. intros g Hg.
      rewrite <- app_assoc. exact Hg.
    + exists pre''. rewrite Hfinal, <- app_assoc. reflexivity.
Qed.

Variable self : security.EnhancedIDS.

Lemma last_verdict (msgs : list M) (m : M) :
  key_of m = key ->
  dos_of (check (security.check_all check self msgs).1 m).2
  = (Z.of_nat (length (window (security.check_all check self (msgs ++ [m])).1 key))
     >? security.rate_threshold self).
Proof.
  intros Hk. rewrite check_all_snoc. cbn [fst].
  destruct (check_step (security.check_all check self msgs).1 m)
    as (_ & _ & _ & ->).
  rewrite <- Hk, check_window.
  destruct (check_all_params msgs self) as [_ ->]. reflexivity.
Qed.

(** More than [rate_threshold] checks whose timestamps lie within the
    window of each other: the last one is flagged. *)
Lemma rate_burst (msgs : list M) :
  same_key msgs ->
  Forall (fun f => Forall (fun g => ts_of f - ts_of g <= security.window_ms self)
                     msgs) msgs ->
  security.rate_threshold self < Z.of_nat (length msgs) ->
  forall v, last (security.check_all check self msgs).2 = Some v ->
            dos_of v = true.
Proof.
  intros Hkey Hnear Hlen v Hlast.
  destruct (window_keeps msgs self (window self key) []) as [pre' Hwin].
  - exact Hkey.
  - rewrite app_nil_r. reflexivity.
  - eapply Forall_impl; [exact Hnear|]. simpl. intros f Hf.
    apply Forall_fmap. exact Hf.
  - destruct msgs as [|m msgs0 _] using rev_ind; [discriminate Hlast|].
    apply Forall_app in Hkey as [_ Hm]. apply Forall_cons in Hm as [Hm _].
    rewrite check_all_snoc in Hlast. cbn [snd] in Hlast.
    rewrite last_snoc in Hlast. injection Hlast as <-.
    rewrite (last_verdict msgs0 m Hm), Hwin. apply Z.gtb_lt.
    rewrite !length_app, length_map. lia.
Qed.

(** The recorded timestamps of the key have expired when [msgs] begins:
    each is older than the window relative to the first message.  This
    holds in particular for a key with no recorded timestamps. *)
Abbreviation expired_before msgs :=
  (forall m0, head msgs = Some m0 ->
     Forall (fun t => ts_of m0 - t > security.window_ms self) (window self key)).

Lemma window_suffix_expired (m0 : M) (msgs : list M) :
  same_key (m0 :: msgs) ->
  Forall (fun t => ts_of m0 - t > security.window_ms self) (window self key) ->
  window (security.check_all check self (m0 :: msgs)).1 key
    `suffix_of` map ts_of (m0 :: msgs).
Proof.
  intros Hkey Hexp. apply Forall_cons in Hkey as [Hm0 Hrest].
  rewrite check_all_cons. cbn [fst map].
  etrans; [apply window_suffix, Hrest|].
  rewrite <- Hm0, check_window, Hm0.
  rewrite popleft_old_expired by exact Hexp.
  change (ts_of m0 :: map ts_of msgs) with ([ts_of m0] ++ map ts_of msgs).
  apply suffix_app, popleft_old_suffix.
Qed.

Lemma window_length_expired (msgs : list M) :
  msgs <> [] ->
  same_key msgs ->
  expired_before msgs ->
  (length (window (security.check_all check self msgs).1 key) <= length msgs)%nat.
Proof.
  destruct msgs as [|m0 msgs]; [contradiction|]. intros _ Hkey Hexp.
  pose proof (window_suffix_expired m0 msgs Hkey (Hexp m0 eq_refl)) as Hsuf.
  apply suffix_length in Hsuf. rewrite length_map in Hsuf. exact Hsuf.
Qed.

(** At most [rate_threshold] checks after the history of the key has
    expired: none is flagged. *)
Lemma rate_quiet (msgs : list M) :
  expired_before msgs ->
  same_key msgs ->
  Z.of_nat (length msgs) <= security.rate_threshold self ->
  Forall (fun v => dos_of v = false) (security.check_all check self msgs).2.
Proof.
  induction msgs as [|m msgs IH] using rev_ind; intros Hexp Hkey Hlen.
  - constructor.
  - pose proof (window_length_expired (msgs ++ [m])
                  ltac:(destruct msgs; discriminate) Hkey Hexp) as Hsuf.
    rewrite length_app in Hsuf. simpl in Hsuf.
    apply Forall_app in Hkey as [Hkey Hm]. apply Forall_cons in Hm as [Hm _].
    rewrite length_app in Hlen. simpl in Hlen.
    rewrite check_all_snoc. cbn [snd].
    apply Forall_app. split.
    + apply IH; [|exact Hkey|lia].
      intros m0 Hm0. apply Hexp. destruct msgs; [discriminate|exact Hm0].
    + repeat constructor. rewrite (last_verdict msgs m Hm).
      destruct (Z.gtb_spec
        (Z.of_nat (length (window (security.check_all check self (msgs ++ [m])).1 key)))
        (security.rate_threshold self)); [lia|reflexivity].
Qed.

(** One check more, when it comes later than the window after the first:
    the first timestamp is evicted and the check is not flagged. *)
Lemma rate_spread_last (msgs : list M) (m : M) :
  expired_before (msgs ++ [m]) ->
  same_key (msgs ++ [m]) ->
  Z.of_nat (length msgs) <= security.rate_threshold self ->
  (forall m0, head (msgs ++ [m]) = Some m0 ->
              ts_of m - ts_of m0 > security.window_ms self) ->
  dos_of (check (security.check_all check self msgs).1 m).2 = false.
Proof.
  intros Hexp Hkey Hlen Hgap.
  apply Forall_app in Hkey as [Hkey Hm]. apply Forall_cons in Hm as [Hm _].
  destruct (check_step (security.check_all check self msgs).1 m)
    as (_ & _ & _ & ->).
  destruct (check_all_params msgs self) as [-> ->].
  rewrite Hm.
  assert (length (security.popleft_old (security.window_ms self) (ts_of m)
            (window (security.check_all check self msgs).1 key ++ [ts_of m]))
          <= length msgs)%nat as Hbound.
  { destruct msgs as [|m1 msgs1].
    - cbn [security.check_all fst]. specialize (Hgap m eq_refl).
      rewrite popleft_old_expired by exact (Hexp m eq_refl). simpl.
      destruct (Z.gtb_spec (ts_of m - ts_of m) (security.window_ms self));
        simpl; lia.
    - pose proof (window_suffix_expired m1 msgs1 Hkey (Hexp m1 eq_refl)) as Hsuf.
      set (dq := window (security.check_all check self (m1 :: msgs1)).1 key) in *.
      destruct (decide (length dq = length (map ts_of (m1 :: msgs1)))) as [Heq|Hne].
      + apply suffix_length_eq in Hsuf; [|lia]. rewrite Hsuf.
        simpl. specialize (Hgap m1 eq_refl).
        destruct (Z.gtb_spec (ts_of m - ts_of m1) (security.window_ms self));
          [|lia].
        etrans; [apply popleft_old_length|].
        rewrite length_app, length_map. simpl. lia.
      + apply suffix_length in Hsuf. rewrite length_map in Hsuf, Hne.
        etrans; [apply popleft_old_length|].
        rewrite length_app. simpl in *. lia. }
  destruct (Z.gtb_spec (Z.of_nat (length (security.popleft_old
    (security.window_ms self) (ts_of m)
    (window (security.check_all check self msgs).1 key ++ [ts_of m]))))
    (security.rate_threshold self)); [lia|reflexivity].
Qed.

Lemma evenly_spaced_gap (msgs : list M) (m : M) (t0 d : Z) :
  map ts_of (msgs ++ [m])
  = map (fun i => t0 + Z.of_nat i * d) (seq 0 (length (msgs ++ [m]))) ->
  forall m0, head (msgs ++ [m]) = Some m0 ->
             ts_of m0 = t0
             /\ ts_of m - ts_of m0 = Z.of_nat (length msgs) * d.
Proof.
  intros Hts m0 Hhead.
  assert (ts_of m = t0 + Z.of_nat (length msgs) * d) as Hm.
  { rewrite length_app, Nat.add_comm in Hts. simpl length in Hts.
    rewrite seq_S, !map_app in Hts. simpl in Hts.
    apply app_inj_tail in Hts as [_ Hlast]. exact Hlast. }
  destruct msgs as [|m1 msgs'].
  - simpl in Hhead. injection Hhead as <-. simpl in *. lia.
  - simpl in Hhead. injection Hhead as <-.
    simpl in Hts. injection Hts as Hm0 _. rewrite Hm, Hm0. simpl. lia.
Qed.

Lemma rate_spread (msgs : list M) (t0 d : Z) :
  Forall (fun t => t0 - t > security.window_ms self) (window self key) ->
  same_key msgs ->
  Z.of_nat (length msgs) = security.rate_threshold self + 1 ->
  map ts_of msgs = map (fun i => t0 + Z.of_nat i * d) (seq 0 (length msgs)) ->
  security.rate_threshold self * d > security.window_ms self ->
  Forall (fun v => dos_of v = false) (security.check_all check self msgs).2.
Proof.
  intros Hold Hkey Hlen Hts Hgap.
  destruct msgs as [|m msgs _] using rev_ind; [constructor|].
  assert (expired_before (msgs ++ [m])) as Hexp.
  { intros m0 Hm0.
    destruct (evenly_spaced_gap msgs m t0 d Hts m0 Hm0) as [-> _]. exact Hold. }
  rewrite length_app in Hlen. simpl in Hlen.
  rewrite check_all_snoc. cbn [snd]. apply Forall_app. split.
  - apply rate_quiet; [| |lia].
    + intros m0 Hm0. apply Hexp. destruct msgs; [discriminate|exact Hm0].
    + apply Forall_app in Hkey as [Hkey _]. exact Hkey.
  - repeat constructor.
    apply (rate_spread_last msgs m Hexp Hkey); [lia|].
    intros m0 Hm0.
    destruct (evenly_spaced_gap msgs m t0 d Hts m0 Hm0) as [_ ->].
    replace (Z.of_nat (length msgs)) with (security.rate_threshold self) by lia.
    exact Hgap.
Qed.

(** One check: the timestamp is appended, old entries are popped, and
    only then is the length compared. *)
Lemma rate_evict (m : M) :
  key_of m = key ->
  window (check self m).1 key = pushed self key (ts_of m)
  /\ dos_of (check self m).2
     = (Z.of_nat (length (window (check self m).1 key))
        >? security.rate_threshold self)
  /\ (StronglySorted Z.le (window self key ++ [ts_of m]) ->
      window (check self m).1 key
      = filter (fun t => ts_of m - t <= security.window_ms self)
          (window self key ++ [ts_of m])).
Proof.
  intros Hk. rewrite <- Hk.
  destruct (check_step self m) as (_ & _ & _ & Hdos).
  split; [apply check_window|]. split.
  - rewrite Hdos, check_window. reflexivity.
  - intros Hsorted. rewrite check_window. apply popleft_old_sorted, Hsorted.
Qed.

End RateWindow.

Lemma same_can_key (k : Z) (frames : list CANFrame) :
  Forall (fun f => can_id f = k) frames ->
  Forall (fun f => (inl (can_id f) : security.rate_key) = inl k) frames.
Proof.
  intros Hkey. eapply Forall_impl; [exact Hkey|].
  simpl. intros f ->. reflexivity.
Qed.

Lemma same_eth_key (source : string) (packets : list EthernetPacket) :
  Forall (fun p => ethernet_bus.src p = source) packets ->
  Forall (fun p => (inr (ethernet_bus.src p) : security.rate_key) = inr source)
    packets.
Proof.
  intros Hkey. eapply Forall_impl; [exact Hkey|].
  simpl. intros p ->. reflexivity.
Qed.

(** C3. For one routing key, a CAN id [k] or an Ethernet source, and
    from any state of the engine:
    - [rate_threshold + 1] consecutive checks whose timestamps all lie
      within [window_ms] of each other end with [dos_rate] set, whatever
      the deque held before;
    - the same number of checks, evenly spaced by [d] from [t0] on over
      an interval [rate_threshold * d] longer than [window_ms], never set
      [dos_rate], on a key whose recorded timestamps, if it has any, are
      all older than [window_ms] relative to [t0];
    - each check appends its timestamp and pops old entries from the
      front before it compares the length with [rate_threshold]; when the
      timestamps of the key are non-decreasing, what remains is exactly
      the entries not older than [window_ms]. *)
Theorem rate_window_behaviour (self : security.EnhancedIDS) :
  (forall k : Z,
    (forall frames : list CANFrame,
        Forall (fun f => can_id f = k) frames ->
        Z.of_nat (length frames) = security.rate_threshold self + 1 ->
        Forall (fun f => Forall (fun g =>
                  can_bus.ts_ms f - can_bus.ts_ms g <= security.window_ms self)
                  frames) frames ->
        length (security.check_can_all self frames).2 = length frames
        /\ forall v, last (security.check_can_all self frames).2 = Some v ->
                     security.CanAlerts.dos_rate v = true)
    /\ (forall (frames : list CANFrame) (t0 d : Z),
        Forall (fun t => t0 - t > security.window_ms self) (window self (inl k)) ->
        Forall (fun f => can_id f = k) frames ->
        Z.of_nat (length frames) = security.rate_threshold self + 1 ->
        map can_bus.ts_ms frames
        = map (fun i => t0 + Z.of_nat i * d) (seq 0 (length frames)) ->
        security.rate_threshold self * d > security.window_ms self ->
        length (security.check_can_all self frames).2 = length frames
        /\ Forall (fun v => security.CanAlerts.dos_rate v = false)
             (security.check_can_all self frames).2)
    /\ (forall frame : CANFrame,
        can_id frame = k ->
        let r := security.check_can self frame in
        let dq := window self (inl k) ++ [can_bus.ts_ms frame] in
        window r.1 (inl k)
        = security.popleft_old (security.window_ms self) (can_bus.ts_ms frame) dq
        /\ security.CanAlerts.dos_rate r.2
           = (Z.of_nat (length (window r.1 (inl k))) >? security.rate_threshold self)
        /\ (StronglySorted Z.le dq ->
            window r.1 (inl k)
            = filter (fun t => can_bus.ts_ms frame - t <= security.window_ms self)
                dq)))
  /\ (forall source : string,
    (forall packets : list EthernetPacket,
        Forall (fun p => ethernet_bus.src p = source) packets ->
        Z.of_nat (length packets) = security.rate_threshold self + 1 ->
        Forall (fun p => Forall (fun q =>
                  ethernet_bus.ts_ms p - ethernet_bus.ts_ms q
                  <= security.window_ms self) packets) packets ->
        length (security.check_eth_all self packets).2 = length packets
        /\ forall v, last (security.check_eth_all self packets).2 = Some v ->
                     security.EthAlerts.dos_rate v = true)
    /\ (forall (packets : list EthernetPacket) (t0 d : Z),
        Forall (fun t => t0 - t > security.window_ms self)
          (window self (inr source)) ->
        Forall (fun p => ethernet_bus.src p = source) packets ->
        Z.of_nat (length packets) = security.rate_threshold self + 1 ->
        map ethernet_bus.ts_ms packets
        = map (fun i => t0 + Z.of_nat i * d) (seq 0 (length packets)) ->
        security.rate_threshold self * d > security.window_ms self ->
        length (security.check_eth_all self packets).2 = length packets
        /\ Forall (fun v => security.EthAlerts.dos_rate v = false)
             (security.check_eth_all self packets).2)
    /\ (forall pkt : EthernetPacket,
        ethernet_bus.src pkt = source ->
        let r := security.check_eth self pkt in
        let dq := window self (inr source) ++ [ethernet_bus.ts_ms pkt] in
        window r.1 (inr source)
        = security.popleft_old (security.window_ms self) (ethernet_bus.ts_ms pkt) dq
        /\ security.EthAlerts.dos_rate r.2
           = (Z.of_nat (length (window r.1 (inr source)))
              >? security.rate_threshold self)
        /\ (StronglySorted Z.le dq ->
            window r.1 (inr source)
            = filter (fun t => ethernet_bus.ts_ms pkt - t <= security.window_ms self)
                dq))).
Proof.
  split.
  - intros k. split; [|split].
    + intros frames Hkey Hlen Hnear. split; [apply check_all_length|].
      apply (rate_burst (fun f => inl (can_id f)) can_bus.ts_ms
               security.CanAlerts.dos_rate security.check_can check_can_step
               (inl k) self frames); [apply same_can_key, Hkey|exact Hnear|lia].
    + intros frames t0 d Hempty Hkey Hlen Hts Hgap.
      split; [apply check_all_length|].
      apply (rate_spread (fun f => inl (can_id f)) can_bus.ts_ms
               security.CanAlerts.dos_rate security.check_can check_can_step
               (inl k) self frames t0 d);
        [exact Hempty|apply same_can_key, Hkey|exact Hlen|exact Hts|exact Hgap].
    + intros frame Hk.
      apply (rate_evict (fun f => inl (can_id f)) can_bus.ts_ms
               security.CanAlerts.dos_rate security.check_can check_can_step
               (inl k) self frame).
      rewrite Hk. reflexivity.
  - intros source. split; [|split].
    + intros packets Hkey Hlen Hnear. split; [apply check_all_length|].
      apply (rate_burst (fun p => inr (ethernet_bus.src p)) ethernet_bus.ts_ms
               security.EthAlerts.dos_rate security.check_eth check_eth_step
               (inr source) self packets); [apply same_eth_key, Hkey|exact Hnear|lia].
    + intros packets t0 d Hempty Hkey Hlen Hts Hgap.
      split; [apply check_all_length|].
      apply (rate_spread (fun p => inr (ethernet_bus.src p)) ethernet_bus.ts_ms
               security.EthAlerts.dos_rate security.check_eth check_eth_step
               (inr source) self packets t0 d);
        [exact Hempty|apply same_eth_key, Hkey|exact Hlen|exact Hts|exact Hgap].
    + intros pkt Hk.
      apply (rate_evict (fun p => inr (ethernet_bus.src p)) ethernet_bus.ts_ms
               security.EthAlerts.dos_rate security.check_eth check_eth_step
               (inr source) self pkt).
      rewrite Hk. reflexivity.
Qed.

Lemma rate_window_behaviour_witness :
  (length (security.check_can_all sample.ids sample.burst).2 = 3%nat
   /\ forall v, last (security.check_can_all sample.ids sample.burst).2 = Some v ->
                security.CanAlerts.dos_rate v = true)
  /\ (length (security.check_can_all sample.ids sample.spread).2 = 3%nat
      /\ Forall (fun v => security.CanAlerts.dos_rate v = false)
           (security.check_can_all sample.ids sample.spread).2)
  /\ window (security.check_can sample.ids (sample.frame 7 0x100 [x01])).1
       (inl 0x100)
     = filter (fun t => 7 - t <= 10) [7]
  /\ (length (security.check_eth_all sample.ids sample.eth_burst).2 = 3%nat
      /\ forall v, last (security.check_eth_all sample.ids sample.eth_burst).2 = Some v ->
                   security.EthAlerts.dos_rate v = true).
Proof.
  destruct (rate_window_behaviour sample.ids) as [Hcan Heth].
  destruct (Hcan 0x100) as (Hburst & Hspread & Hevict).
  destruct (Heth "node_1") as (Heth_burst & _).
  split; [|split; [|split]].
  - apply Hburst.
    + repeat constructor.
    + reflexivity.
    + repeat constructor; simpl; lia.
  - apply (Hspread sample.spread 0 6).
    + constructor.
    + repeat constructor.
    + reflexivity.
    + reflexivity.
    + simpl. lia.
  - apply (Hevict (sample.frame 7 0x100 [x01])).
    + reflexivity.
    + repeat constructor.
  - apply Heth_burst.
    + repeat constructor.
    + reflexivity.
    + repeat constructor; simpl; lia.
Defined.

(** C3, as the specification words it, fails on a key with live
    history.  After two checks of id [0x100] at time 0, three more
    frames of that id at 0, 6 and 12 ms (non-decreasing, evenly spread
    over 12 ms, longer than the window of 10 ms; the threshold is 2) are
    flagged on the first two checks. *)
Lemma rate_spread_live_history_counterexample :
  security.window_ms sample.ids = 10
  /\ security.rate_threshold sample.ids = 2
  /\ window (security.check_can_all sample.ids sample.history).1 (inl 0x100) = [0; 0]
  /\ map can_id sample.spread = [0x100; 0x100; 0x100]
  /\ map can_bus.ts_ms sample.spread = [0; 6; 12]
  /\ map security.CanAlerts.dos_rate
       (security.check_can_all
          (security.check_can_all sample.ids sample.history).1 sample.spread).2
     = [true; true; false].
Proof. vm_compute. repeat split. Qed.

(** *** Replay detection *)

Lemma check_can_replay (self : security.EnhancedIDS) (frame : CANFrame) :
  let h := security._hash_message (data frame) (pretty (can_id frame)) in
  let r := security.check_can self frame in
  security.CanAlerts.replay r.2 = bool_decide (h ∈ security.seen_hashes self)
  /\ security.seen_hashes r.1 = security.seen_hashes self ∪ {[ h ]}.
Proof. split; reflexivity. Qed.

Lemma check_eth_replay (self : security.EnhancedIDS) (pkt : EthernetPacket) :
  let h := security._hash_message (payload pkt) (ethernet_bus.src pkt) in
  let r := security.check_eth self pkt in
  security.EthAlerts.replay r.2 = bool_decide (h ∈ security.seen_hashes self)
  /\ security.seen_hashes r.1 = security.seen_hashes self ∪ {[ h ]}.
Proof. split; reflexivity. Qed.

(** What the code guarantees: a message whose fingerprint has not been
    seen is not flagged, the fingerprint is recorded whatever the
    outcome, and the same payload and id checked again at once is
    flagged. *)
Lemma check_can_fresh_then_repeat (self : security.EnhancedIDS)
    (frame again : CANFrame) :
  security._hash_message (data frame) (pretty (can_id frame))
    ∉ security.seen_hashes self ->
  data again = data frame -> can_id again = can_id frame ->
  let r := security.check_can self frame in
  security.CanAlerts.replay r.2 = false
  /\ security._hash_message (data frame) (pretty (can_id frame))
       ∈ security.seen_hashes r.1
  /\ security.CanAlerts.replay (security.check_can r.1 again).2 = true.
Proof.
  intros Hfresh Hdata Hid. cbv zeta.
  destruct (check_can_replay self frame) as [Hr Hseen].
  destruct (check_can_replay (security.check_can self frame).1 again) as [Hr' _].
  cbv zeta in *. rewrite Hr, Hr', Hseen, Hdata, Hid.
  split; [apply bool_decide_eq_false; exact Hfresh|].
  split; [|apply bool_decide_eq_true]; set_solver.
Qed.

Lemma check_eth_fresh_then_repeat (self : security.EnhancedIDS)
    (pkt again : EthernetPacket) :
  security._hash_message (payload pkt) (ethernet_bus.src pkt)
    ∉ security.seen_hashes self ->
  payload again = payload pkt -> ethernet_bus.src again = ethernet_bus.src pkt ->
  let r := security.check_eth self pkt in
  security.EthAlerts.replay r.2 = false
  /\ security._hash_message (payload pkt) (ethernet_bus.src pkt)
       ∈ security.seen_hashes r.1
  /\ security.EthAlerts.replay (security.check_eth r.1 again).2 = true.
Proof.
  intros Hfresh Hdata Hsrc. cbv zeta.
  destruct (check_eth_replay self pkt) as [Hr Hseen].
  destruct (check_eth_replay (security.check_eth self pkt).1 again) as [Hr' _].
  cbv zeta in *. rewrite Hr, Hr', Hseen, Hdata, Hsrc.
  split; [apply bool_decide_eq_false; exact Hfresh|].
  split; [|apply bool_decide_eq_true]; set_solver.
Qed.

(** C2 fails on the code.  The fingerprint hashes the payload followed by
    the decimal id with nothing in between, so two different
    (payload, id) pairs can have one fingerprint: on a fresh engine,
    frame [aa] of id 256 is not flagged, and the first check of frame
    [aa 32] of id 56, a pair never checked before, is flagged as a
    replay. *)
Theorem fresh_pair_flagged_as_replay :
  (data sample.frame_a, can_id sample.frame_a)
    <> (data sample.frame_b, can_id sample.frame_b)
  /\ data sample.frame_a ++ list_byte_of_string (pretty (can_id sample.frame_a))
     = data sample.frame_b ++ list_byte_of_string (pretty (can_id sample.frame_b))
  /\ map security.CanAlerts.replay
       (security.check_can_all security.init_default
          [sample.frame_a; sample.frame_b]).2
     = [false; true].
Proof.
  split; [discriminate|]. split; vm_compute; reflexivity.
Qed.

(** * Further properties of the code *)

(** ** The codec: what [strip_and_verify] accepts *)

Lemma strip_true_inv (secret : list byte) (payload m : list byte) :
  security.strip_and_verify secret payload = (m, true) ->
  payload = security.attach_auth secret m.
Proof.
  unfold security.strip_and_verify.
  destruct (length payload <? 8)%nat; [discriminate|].
  unfold security.verify, hmac.compare_digest. intros Heq.
  injection Heq as Hm Hv. apply bool_decide_eq_true in Hv.
  unfold security.attach_auth. rewrite <- Hm, Hv.
  unfold drop_last, take_last. symmetry. apply firstn_skipn.
Qed.

(** X1. [strip_and_verify] answers [(m, True)] on exactly one input, the
    output of [attach_auth] on [m]. *)
Theorem strip_and_verify_accepts_only_attached
    (secret : list byte) (payload m : list byte) :
  security.strip_and_verify secret payload = (m, true)
  <-> payload = security.attach_auth secret m.
Proof.
  split; [apply strip_true_inv|]. intros ->. apply strip_attach.
Qed.

Lemma strip_and_verify_accepts_only_attached_witness :
  security.strip_and_verify sample.secret (security.attach_auth sample.secret [x01; x02])
  = ([x01; x02], true).
Proof.
  apply (proj2 (strip_and_verify_accepts_only_attached sample.secret
                  (security.attach_auth sample.secret [x01; x02]) [x01; x02])).
  reflexivity.
Defined.

(** X2. A message followed by any 8 bytes other than its own tag is
    split at the same place and rejected. *)
Theorem tampered_tag_rejected
    (secret : list byte) (m tag : list byte) :
  length tag = 8%nat ->
  tag <> security.sign secret m ->
  security.strip_and_verify secret (m ++ tag) = (m, false).
Proof.
  intros Hlen Hne. unfold security.strip_and_verify.
  replace (length (m ++ tag) <? 8)%nat with false
    by (symmetry; apply Nat.ltb_ge; rewrite length_app; lia).
  rewrite (drop_last_app 8), (take_last_app 8) by exact Hlen.
  unfold security.verify, hmac.compare_digest.
  rewrite bool_decide_eq_false_2 by congruence. reflexivity.
Qed.

Lemma tampered_tag_rejected_witness :
  security.strip_and_verify sample.secret ([x31; x32] ++ repeat x00 8) = ([x31; x32], false).
Proof.
  apply (tampered_tag_rejected sample.secret [x31; x32] (repeat x00 8)).
  - reflexivity.
  - vm_compute. discriminate.
Defined.

(** ** Spoofing detection *)

Lemma starts_with_spec (needle hay : list byte) :
  starts_with needle hay = true <-> exists post, hay = needle ++ post.
Proof.
  revert hay. induction needle as [|n needle IH]; intros hay; simpl.
  - split; [intros _; exists hay; reflexivity|reflexivity].
  - destruct hay as [|h hay]; simpl.
    + split; [discriminate|]. intros [post Hpost]. discriminate.
    + destruct (decide (n = h)) as [->|Hne].
      * rewrite IH. split; intros [post Hpost]; exists post; congruence.
      * split; [discriminate|]. intros [post Hpost]. congruence.
Qed.

Lemma bytes_contains_spec (needle hay : list byte) :
  bytes_contains needle hay = true
  <-> exists pre post, hay = pre ++ needle ++ post.
Proof.
  induction hay as [|h hay IH].
  - simpl. rewrite orb_false_r, starts_with_spec. split.
    + intros [post Hpost]. exists [], post. exact Hpost.
    + intros (pre & post & Heq). destruct pre; [exists post; exact Heq|discriminate].
  - cbn [bytes_contains]. rewrite orb_true_iff, starts_with_spec, IH. split.
    + intros [[post Hpost] | (pre & post & Heq)].
      * exists [], post. exact Hpost.
      * exists (h :: pre), post. rewrite Heq. reflexivity.
    + intros (pre & post & Heq). destruct pre as [|p pre].
      * left. exists post. exact Heq.
      * right. exists pre, post. simpl in Heq. congruence.
Qed.

(** X3. [check_eth] reports spoofing exactly when the source is the
    string ["attacker"] or the payload holds the five bytes [SPOOF]
    somewhere in a row; the state of the engine plays no part. *)
Theorem check_eth_spoofing (self : security.EnhancedIDS) (pkt : EthernetPacket) :
  security.EthAlerts.spoofing (security.check_eth self pkt).2 = true
  <-> ethernet_bus.src pkt = "attacker"
      \/ exists pre post : list byte,
           payload pkt = pre ++ list_byte_of_string "SPOOF" ++ post.
Proof.
  change (security.EthAlerts.spoofing (security.check_eth self pkt).2)
    with (bool_decide (ethernet_bus.src pkt = "attacker")
          || bytes_contains (list_byte_of_string "SPOOF") (payload pkt)).
  rewrite orb_true_iff, bool_decide_eq_true, bytes_contains_spec. reflexivity.
Qed.

Lemma check_eth_spoofing_witness :
  security.EthAlerts.spoofing
    (security.check_eth security.init_default
       (sample.packet 5 "node_1" (list_byte_of_string "xxSPOOFED"))).2 = true.
Proof.
  apply (proj2 (check_eth_spoofing security.init_default
                  (sample.packet 5 "node_1" (list_byte_of_string "xxSPOOFED")))).
  right. exists (list_byte_of_string "xx"), (list_byte_of_string "ED").
  reflexivity.
Defined.

(** ** Counters per category *)

Local Abbreviation category_counters_ok self :=
  (0 <= security.replay_detected self <= security.total_detected_packets self
   /\ 0 <= security.dos_detected self <= security.total_detected_packets self
   /\ 0 <= security.injection_detected self <= security.total_detected_packets self
   /\ 0 <= security.spoofing_detected self <= security.total_detected_packets self
   /\ security.total_detected_packets self
      <= security.replay_detected self + security.dos_detected self
         + security.injection_detected self + security.spoofing_detected self
      <= 3 * security.total_detected_packets self).

Lemma perform_category_counters (self : security.EnhancedIDS) (c : security.call) :
  category_counters_ok self -> category_counters_ok (security.perform self c).
Proof.
  destruct c as [frame | pkt]; unfold security.perform.
  - unfold security.check_can. cbv zeta.
    generalize (bool_decide
      (security._hash_message (data frame) (pretty (can_id frame))
         ∈ security.seen_hashes self)).
    intros replay.
    generalize (Z.of_nat (length (security.popleft_old (security.window_ms self)
      (can_bus.ts_ms frame)
      (default [] (security.timestamps self !! inl (can_id frame))
         ++ [can_bus.ts_ms frame]))) >? security.rate_threshold self).
    intros dos_rate.
    generalize (can_id frame >? 0x700). intros injection.
    destruct replay, dos_rate, injection; cbn; lia.
  - unfold security.check_eth. cbv zeta.
    generalize (bool_decide
      (security._hash_message (payload pkt) (ethernet_bus.src pkt)
         ∈ security.seen_hashes self)).
    intros replay.
    generalize (Z.of_nat (length (security.popleft_old (security.window_ms self)
      (ethernet_bus.ts_ms pkt)
      (default [] (security.timestamps self !! inr (ethernet_bus.src pkt))
         ++ [ethernet_bus.ts_ms pkt]))) >? security.rate_threshold self).
    intros dos_rate.
    generalize (bool_decide (ethernet_bus.src pkt = "attacker")
                || bytes_contains (list_byte_of_string "SPOOF") (payload pkt)).
    intros spoofing.
    destruct replay, dos_rate, spoofing; cbn; lia.
Qed.

Lemma run_category_counters (calls : list security.call)
    (self : security.EnhancedIDS) :
  category_counters_ok self -> category_counters_ok (security.run self calls).
Proof.
  revert self. induction calls as [|c calls IH]; intros self Hself; [exact Hself|].
  apply (IH (security.perform self c)), perform_category_counters, Hself.
Qed.

(** X4. After any sequence of checks on a fresh engine, each of the four
    per-category counters lies between 0 and [total_detected_packets],
    and their sum lies between [total_detected_packets] and three times
    it: a flagged message is counted in one to three categories. *)
Theorem category_counters_invariant
    (window_ms rate_threshold : Z) (calls : list security.call) :
  let self := security.run (security.init window_ms rate_threshold) calls in
  0 <= security.replay_detected self <= security.total_detected_packets self
  /\ 0 <= security.dos_detected self <= security.total_detected_packets self
  /\ 0 <= security.injection_detected self <= security.total_detected_packets self
  /\ 0 <= security.spoofing_detected self <= security.total_detected_packets self
  /\ security.total_detected_packets self
     <= security.replay_detected self + security.dos_detected self
        + security.injection_detected self + security.spoofing_detected self
     <= 3 * security.total_detected_packets self.
Proof.
  cbv zeta. apply run_category_counters. cbn. lia.
Qed.

(** ** The replay cache never forgets *)

Lemma perform_seen_hashes (self : security.EnhancedIDS) (c : security.call) :
  security.seen_hashes (security.perform self c)
  = security.seen_hashes self ∪ {[ hashlib.sha256_hexdigest (ids_call.hashed c) ]}
  /\ ids_call.replay self c
     = bool_decide (hashlib.sha256_hexdigest (ids_call.hashed c)
                      ∈ security.seen_hashes self).
Proof. destruct c; split; reflexivity. Qed.

Lemma run_seen_hashes_mono (calls : list security.call)
    (self : security.EnhancedIDS) :
  security.seen_hashes self ⊆ security.seen_hashes (security.run self calls).
Proof.
  revert self. induction calls as [|c calls IH]; intros self; [reflexivity|].
  etrans; [|apply (IH (security.perform self c))].
  destruct (perform_seen_hashes self c) as [-> _]. set_solver.
Qed.

(** X5. Once a message has been checked, a message hashing the same
    bytes is flagged as a replay however many other checks, of either
    kind, come in between: nothing is ever removed from the cache. *)
Theorem replay_flagged_after_any_run
    (self : security.EnhancedIDS) (c again : security.call)
    (between : list security.call) :
  ids_call.hashed again = ids_call.hashed c ->
  ids_call.replay (security.run (security.perform self c) between) again = true.
Proof.
  intros Hsame.
  destruct (perform_seen_hashes (security.run (security.perform self c) between)
              again) as [_ ->].
  apply bool_decide_eq_true. rewrite Hsame.
  apply (run_seen_hashes_mono between).
  destruct (perform_seen_hashes self c) as [-> _]. set_solver.
Qed.

Lemma replay_flagged_after_any_run_witness :
  ids_call.replay
    (security.run
       (security.perform security.init_default
          (security.CheckCan (sample.frame 5 0x100 [x01])))
       [security.CheckEth (sample.packet 6 "node_1" [x02]);
        security.CheckCan (sample.frame 7 0x200 [x03])])
    (security.CheckCan (sample.frame 9 0x100 [x01])) = true.
Proof.
  apply (replay_flagged_after_any_run security.init_default
           (security.CheckCan (sample.frame 5 0x100 [x01]))
           (security.CheckCan (sample.frame 9 0x100 [x01]))).
  reflexivity.
Defined.

(** ** Rate windows across calls of both kinds *)

Lemma perform_step (self : security.EnhancedIDS) (c : security.call) :
  security.window_ms (security.perform self c) = security.window_ms self
  /\ security.rate_threshold (security.perform self c)
     = security.rate_threshold self
  /\ security.timestamps (security.perform self c)
     = <[ids_call.key c := pushed self (ids_call.key c) (ids_call.ts c)]>
         (security.timestamps self)
  /\ ids_call.dos_rate self c
     = (Z.of_nat (length (pushed self (ids_call.key c) (ids_call.ts c)))
        >? security.rate_threshold self).
Proof. destruct c; repeat split. Qed.

Lemma perform_window (self : security.EnhancedIDS) (c : security.call) :
  window (security.perform self c) (ids_call.key c)
  = pushed self (ids_call.key c) (ids_call.ts c).
Proof.
  destruct (perform_step self c) as (_ & _ & -> & _).
  rewrite lookup_insert_eq. reflexivity.
Qed.

Lemma perform_window_other (self : security.EnhancedIDS) (c : security.call)
    (k : security.rate_key) :
  ids_call.key c <> k ->
  window (security.perform self c) k = window self k.
Proof.
  intros Hne. destruct (perform_step self c) as (_ & _ & -> & _).
  rewrite lookup_insert_ne by exact Hne. reflexivity.
Qed.

Lemma run_snoc (self : security.EnhancedIDS) (calls : list security.call)
    (c : security.call) :
  security.run self (calls ++ [c]) = security.perform (security.run self calls) c.
Proof. unfold security.run. rewrite fold_left_app. reflexivity. Qed.

Lemma run_params (calls : list security.call) (self : security.EnhancedIDS) :
  security.window_ms (security.run self calls) = security.window_ms self
  /\ security.rate_threshold (security.run self calls)
     = security.rate_threshold self.
Proof.
  revert self. induction calls as [|c calls IH]; intros self; [split; reflexivity|].
  destruct (IH (security.perform self c)) as [Hw Ht].
  destruct (perform_step self c) as (Hw' & Ht' & _).
  split; [exact (eq_trans Hw Hw')|exact (eq_trans Ht Ht')].
Qed.

Lemma run_window_restrict (k : security.rate_key) (calls : list security.call)
    (s1 s2 : security.EnhancedIDS) :
  security.window_ms s1 = security.window_ms s2 ->
  window s1 k = window s2 k ->
  window (security.run s1 calls) k
  = window (security.run s2 (filter (fun c => ids_call.key c = k) calls)) k.
Proof.
  revert s1 s2. induction calls as [|c calls IH]; intros s1 s2 Hw Hdq; [exact Hdq|].
  destruct (perform_step s1 c) as (Hw1 & _).
  destruct (decide (ids_call.key c = k)) as [Hk|Hk].
  - rewrite filter_cons_True by exact Hk.
    destruct (perform_step s2 c) as (Hw2 & _).
    apply (IH (security.perform s1 c) (security.perform s2 c)); [congruence|].
    rewrite <- Hk, !perform_window, Hk, Hw, Hdq. reflexivity.
  - rewrite filter_cons_False by exact Hk.
    apply (IH (security.perform s1 c) s2); [congruence|].
    rewrite perform_window_other by exact Hk. exact Hdq.
Qed.

(** X6. The rate window of a key, and so the rate verdict of its next
    message, depends only on the checks made for that key: checks for
    other keys, CAN or Ethernet, can be left out of the history.  A CAN
    id and an Ethernet source are never the same key. *)
Theorem rate_window_per_key (self : security.EnhancedIDS)
    (calls : list security.call) (c : security.call) :
  let mine := filter (fun x => ids_call.key x = ids_call.key c) calls in
  window (security.run self calls) (ids_call.key c)
  = window (security.run self mine) (ids_call.key c)
  /\ ids_call.dos_rate (security.run self calls) c
     = ids_call.dos_rate (security.run self mine) c
  /\ forall (id : Z) (source : string),
       (inl id : security.rate_key) <> inr source.
Proof.
  cbv zeta.
  pose proof (run_window_restrict (ids_call.key c) calls self self eq_refl eq_refl)
    as Hwin.
  split; [exact Hwin|]. split; [|discriminate].
  destruct (perform_step (security.run self calls) c) as (_ & _ & _ & ->).
  destruct (perform_step
    (security.run self (filter (fun x => ids_call.key x = ids_call.key c) calls)) c)
    as (_ & _ & _ & ->).
  destruct (run_params calls self) as [-> ->].
  destruct (run_params (filter (fun x => ids_call.key x = ids_call.key c) calls) self)
    as [-> ->].
  rewrite Hwin. reflexivity.
Qed.

Lemma sorted_snoc_filter (P : Z -> Prop) `{!forall t, Decision (P t)}
    (l : list Z) (x : Z) :
  StronglySorted Z.le (l ++ [x]) -> StronglySorted Z.le (filter P l ++ [x]).
Proof.
  rewrite !StronglySorted_app. intros (Hle & Hl & Hx).
  split; [|split; [|exact Hx]].
  - intros x1 x2 H1 H2. apply list_elem_of_filter in H1 as [_ H1].
    apply Hle; assumption.
  - clear Hle. induction Hl as [|t l Hl IH Hall]; [constructor|].
    rewrite filter_cons. destruct (decide (P t)); [|exact IH].
    constructor; [exact IH|].
    apply Forall_forall. intros y Hy. apply list_elem_of_filter in Hy as [_ Hy].
    rewrite Forall_forall in Hall. apply Hall, Hy.
Qed.

Lemma filter_newer (w now now' : Z) (l : list Z) :
  now <= now' ->
  filter (fun t => now' - t <= w) (filter (fun t => now - t <= w) l)
  = filter (fun t => now' - t <= w) l.
Proof.
  intros Hle. rewrite list_filter_filter. apply list_filter_iff.
  intros t. lia.
Qed.

Lemma sorted_window_run (self : security.EnhancedIDS) (k : security.rate_key)
    (calls : list security.call) (c : security.call) :
  Forall (fun x => ids_call.key x = k) (calls ++ [c]) ->
  StronglySorted Z.le (window self k ++ map ids_call.ts (calls ++ [c])) ->
  window (security.run self (calls ++ [c])) k
  = filter (fun t => ids_call.ts c - t <= security.window_ms self)
      (window self k ++ map ids_call.ts (calls ++ [c])).
Proof.
  revert c. induction calls as [|c' calls IH] using rev_ind; intros c Hkey Hsorted.
  - apply Forall_cons in Hkey as [Hk _]. cbn [app map] in *.
    change (security.run self [c]) with (security.perform self c).
    rewrite <- Hk, perform_window, Hk. apply popleft_old_sorted, Hsorted.
  - pose proof Hkey as Hkey'.
    apply Forall_app in Hkey as [Hkey Hc]. apply Forall_cons in Hc as [Hk _].
    rewrite map_app, app_assoc in Hsorted. cbn [map] in Hsorted.
    pose proof Hsorted as Hsorted'.
    apply StronglySorted_app in Hsorted' as (Hle & Hprefix & _).
    rewrite run_snoc, <- Hk, perform_window, Hk.
    destruct (run_params (calls ++ [c']) self) as [-> _].
    rewrite (IH c' Hkey Hprefix).
    assert (ids_call.ts c' <= ids_call.ts c) as Hnow.
    { apply Hle; [|apply list_elem_of_singleton; reflexivity].
      rewrite map_app. cbn [map]. rewrite app_assoc.
      apply elem_of_app. right. apply list_elem_of_singleton. reflexivity. }
    rewrite popleft_old_sorted by (apply sorted_snoc_filter; exact Hsorted).
    rewrite filter_app, filter_newer by exact Hnow.
    rewrite (map_app _ (calls ++ [c']) [c]), (app_assoc (window self k)).
    cbn [map]. symmetry. apply filter_app.
Qed.

(** X7. While the timestamps recorded and arriving for a key are
    non-decreasing, its deque after a check holds exactly the timestamps
    that are not older than [window_ms] relative to the newest, whatever
    checks for other keys came in between; [dos_rate] is set exactly
    when more than [rate_threshold] of them are left. *)
Theorem sliding_window_count (self : security.EnhancedIDS)
    (calls : list security.call) (c : security.call) :
  let k := ids_call.key c in
  let mine := filter (fun x => ids_call.key x = k) calls in
  let arrived := window self k ++ map ids_call.ts (mine ++ [c]) in
  let recent :=
    filter (fun t => ids_call.ts c - t <= security.window_ms self) arrived in
  StronglySorted Z.le arrived ->
  window (security.run self (calls ++ [c])) k = recent
  /\ ids_call.dos_rate (security.run self calls) c
     = (Z.of_nat (length recent) >? security.rate_threshold self).
Proof.
  cbv zeta. intros Hsorted.
  set (k := ids_call.key c) in *.
  set (mine := filter (fun x => ids_call.key x = k) calls) in *.
  assert (window (security.run self (calls ++ [c])) k
          = filter (fun t => ids_call.ts c - t <= security.window_ms self)
              (window self k ++ map ids_call.ts (mine ++ [c]))) as Hwin.
  { rewrite (run_window_restrict k (calls ++ [c]) self self eq_refl eq_refl).
    rewrite filter_app, filter_cons_True, filter_nil by reflexivity.
    apply sorted_window_run; [|exact Hsorted].
    apply Forall_app. split; [|repeat constructor].
    apply Forall_forall. intros x Hx. apply list_elem_of_filter in Hx as [Hx _].
    exact Hx. }
  split; [exact Hwin|].
  destruct (perform_step (security.run self calls) c) as (_ & _ & _ & ->).
  destruct (run_params calls self) as [_ ->].
  rewrite <- Hwin, run_snoc. unfold k. rewrite perform_window. reflexivity.
Qed.

Lemma sliding_window_count_witness :
  window (security.run sample.ids
            (map security.CheckCan sample.spread
             ++ [security.CheckCan (sample.frame 15 0x100 [x04])]))
         (inl 0x100)
  = [6; 12; 15]
  /\ ids_call.dos_rate
       (security.run sample.ids (map security.CheckCan sample.spread))
       (security.CheckCan (sample.frame 15 0x100 [x04])) = true.
Proof.
  apply (sliding_window_count sample.ids (map security.CheckCan sample.spread)
           (security.CheckCan (sample.frame 15 0x100 [x04]))).
  vm_compute. repeat constructor; discriminate.
Defined.

(** X8. With a non-negative [window_ms] the timestamp of the message
    being checked is never evicted: the deque of its key ends with it
    afterwards, so a [rate_threshold] below 1 flags every message.  With
    a negative [window_ms] a key without history never keeps anything,
    and [dos_rate] only says whether [rate_threshold] is negative. *)
Theorem newest_timestamp_and_window_sign
    (self : security.EnhancedIDS) (c : security.call) :
  (0 <= security.window_ms self ->
   last (window (security.perform self c) (ids_call.key c)) = Some (ids_call.ts c)
   /\ (security.rate_threshold self < 1 -> ids_call.dos_rate self c = true))
  /\ (security.window_ms self < 0 ->
      window self (ids_call.key c) = [] ->
      window (security.perform self c) (ids_call.key c) = []
      /\ ids_call.dos_rate self c = (0 >? security.rate_threshold self)).
Proof.
  destruct (perform_step self c) as (_ & _ & _ & Hdos).
  rewrite perform_window, Hdos. split.
  - intros Hw.
    destruct (popleft_old_keeps (security.window_ms self) (ids_call.ts c)
                (window self (ids_call.key c)) [ids_call.ts c]) as [pre' ->].
    { repeat constructor. lia. }
    split; [apply last_snoc|]. intros Ht. apply Z.gtb_lt.
    rewrite length_app. simpl. lia.
  - intros Hw ->. cbn [app security.popleft_old].
    destruct (Z.gtb_spec (ids_call.ts c - ids_call.ts c) (security.window_ms self));
      [|lia].
    split; reflexivity.
Qed.

Lemma newest_timestamp_and_window_sign_witness :
  last (window (security.perform sample.ids
                  (security.CheckCan (sample.frame 7 0x100 [x01])))
               (inl 0x100)) = Some 7.
Proof.
  apply (proj1 (newest_timestamp_and_window_sign sample.ids
                  (security.CheckCan (sample.frame 7 0x100 [x01])))).
  vm_compute. discriminate.
Defined.

(** ** The translator's statistics *)

Lemma translate_step (st : gateway.ProtocolTranslator * utils.Counter)
    (t : gateway.translation) :
  (gateway.translate st t).1
  = gateway.record_latency st.1 (gateway.translation_clock t).
Proof.
  destruct t as [clk frame dst | clk pkt]; cbn [gateway.translate].
  - unfold gateway.can_to_eth.
    destruct (gateway.msg_id_or_gen _ _ _) as [c id]. reflexivity.
  - unfold gateway.eth_to_can.
    destruct (gateway.msg_id_or_gen _ _ _) as [c id]. reflexivity.
Qed.

Lemma translate_all_log (ts : list gateway.translation)
    (st : gateway.ProtocolTranslator * utils.Counter) :
  gateway.translation_count (gateway.translate_all st ts).1
  = gateway.translation_count st.1 + Z.of_nat (length ts)
  /\ gateway.latencies (gateway.translate_all st ts).1
     = gateway.latencies st.1
       ++ map (fun t => gateway.t_end (gateway.translation_clock t)
                        - gateway.t_start (gateway.translation_clock t)) ts
  /\ gateway.can_to_eth_map (gateway.translate_all st ts).1
     = gateway.can_to_eth_map st.1
  /\ gateway.eth_to_can_map (gateway.translate_all st ts).1
     = gateway.eth_to_can_map st.1.
Proof.
  revert st. induction ts as [|t ts IH]; intros st.
  - simpl. rewrite app_nil_r, Z.add_0_r. repeat split.
  - change (gateway.translate_all st (t :: ts))
      with (gateway.translate_all (gateway.translate st t) ts).
    destruct (IH (gateway.translate st t)) as (-> & -> & -> & ->).
    rewrite translate_step. cbn. rewrite <- app_assoc.
    repeat split. lia.
Qed.

Lemma sum_Z_bounds (lo hi : Z) (l : list Z) :
  Forall (fun x => lo <= x <= hi) l ->
  lo * Z.of_nat (length l) <= gateway.sum_Z l <= hi * Z.of_nat (length l).
Proof.
  induction 1 as [|x l Hx Hl IH]; [simpl; lia|].
  cbn [gateway.sum_Z fold_right length]. fold (gateway.sum_Z l). lia.
Qed.

Lemma avg_latency_bounds (self : gateway.ProtocolTranslator) (lo hi : Z) :
  gateway.latencies self <> [] ->
  Forall (fun x => lo <= x <= hi) (gateway.latencies self) ->
  (inject_Z lo <= gateway.avg_latency_ms (gateway.get_stats self) <= inject_Z hi)%Q.
Proof.
  intros Hne Hall. pose proof (sum_Z_bounds lo hi _ Hall) as Hsum.
  unfold gateway.get_stats. cbn [gateway.avg_latency_ms].
  destruct (gateway.latencies self) as [|x l] eqn:Hl; [contradiction|].
  unfold Qle, inject_Z. cbn [Qnum Qden].
  replace (Z.pos (Pos.of_nat (length (x :: l)))) with (Z.of_nat (length (x :: l)))
    by (rewrite <- positive_nat_Z, Nat2Pos.id by discriminate; reflexivity).
  lia.
Qed.

(** X9. A fresh translator reports 0 translations and an average latency
    of 0 (no division by zero).  After any run of [can_to_eth] and
    [eth_to_can] calls on it, [translations] is the number of calls, the
    latency log has one entry per call, in order, each the difference of
    the last and first clock reading of its call, and the reported
    average lies between any two bounds that hold for every entry. *)
Theorem translator_stats
    (m1 : option (gmap Z string)) (m2 : option (gmap string Z))
    (msg_counter : utils.Counter) (ts : list gateway.translation) :
  let fresh := gateway.init m1 m2 in
  let self := (gateway.translate_all (fresh, msg_counter) ts).1 in
  gateway.translations (gateway.get_stats fresh) = 0
  /\ gateway.avg_latency_ms (gateway.get_stats fresh) = 0%Q
  /\ gateway.translations (gateway.get_stats self) = Z.of_nat (length ts)
  /\ gateway.latencies self
     = map (fun t => gateway.t_end (gateway.translation_clock t)
                     - gateway.t_start (gateway.translation_clock t)) ts
  /\ forall lo hi : Z,
       ts <> [] ->
       Forall (fun t => lo <= gateway.t_end (gateway.translation_clock t)
                              - gateway.t_start (gateway.translation_clock t)
                        <= hi) ts ->
       (inject_Z lo <= gateway.avg_latency_ms (gateway.get_stats self)
        <= inject_Z hi)%Q.
Proof.
  cbv zeta.
  destruct (translate_all_log ts (gateway.init m1 m2, msg_counter))
    as (Hcount & Hlog & _).
  cbn [fst gateway.init gateway.translation_count gateway.latencies app] in Hcount, Hlog.
  split; [reflexivity|]. split; [reflexivity|].
  split; [exact Hcount|]. split; [exact Hlog|].
  intros lo hi Hne Hall. apply avg_latency_bounds.
  - rewrite Hlog. destruct ts; [contradiction|discriminate].
  - rewrite Hlog. apply Forall_fmap. exact Hall.
Qed.

Lemma translator_stats_witness :
  (inject_Z 2
   <= gateway.avg_latency_ms
        (gateway.get_stats
           (gateway.translate_all (gateway.init None None, sample.msg_counter)
              [gateway.CanToEth sample.clk (sample.frame 5 0x100 [x01]) None]).1)
   <= inject_Z 2)%Q.
Proof.
  apply (proj2 (proj2 (proj2 (proj2
    (translator_stats None None sample.msg_counter
       [gateway.CanToEth sample.clk (sample.frame 5 0x100 [x01]) None]))))).
  - discriminate.
  - constructor; [|constructor]. vm_compute. split; discriminate.
Defined.

(** ** Round trips through the translator *)

Lemma default_tables_inverse (id : Z) (address : string) :
  gateway.default_eth_to_can_map !! address = Some id
  <-> gateway.default_can_to_eth_map !! id = Some address.
Proof.
  unfold gateway.default_eth_to_can_map, gateway.default_can_to_eth_map.
  rewrite !lookup_insert, !lookup_empty.
  repeat case_decide; subst; split; intros Heq;
    try discriminate Heq; try congruence;
    injection Heq as Heq; subst; try congruence; try reflexivity.
Qed.

Lemma translation_states (self : gateway.ProtocolTranslator) (clk : gateway.clock)
    (msg_counter : utils.Counter) :
  (forall frame dst,
      (gateway.can_to_eth self clk msg_counter frame dst).1
      = (gateway.record_latency self clk,
         (gateway.msg_id_or_gen (can_bus.msg_id frame) "eth" msg_counter).1))
  /\ (forall pkt,
      (gateway.eth_to_can self clk msg_counter pkt).1
      = (gateway.record_latency self clk,
         (gateway.msg_id_or_gen (ethernet_bus.msg_id pkt) "can" msg_counter).1)).
Proof.
  split; intros.
  - unfold gateway.can_to_eth.
    destruct (gateway.msg_id_or_gen _ _ _) as [c id]. reflexivity.
  - unfold gateway.eth_to_can.
    destruct (gateway.msg_id_or_gen _ _ _) as [c id]. reflexivity.
Qed.

Lemma msg_id_or_gen_nonempty (x : string) (a : ascii) (prefix : string)
    (msg_counter : utils.Counter) :
  (gateway.msg_id_or_gen x (String a prefix) msg_counter).2 <> "".
Proof.
  unfold gateway.msg_id_or_gen. destruct (decide (x = "")) as [->|Hx].
  - cbn. discriminate.
  - exact Hx.
Qed.

Lemma msg_id_or_gen_keeps (x prefix : string) (msg_counter : utils.Counter) :
  x <> "" -> gateway.msg_id_or_gen x prefix msg_counter = (msg_counter, x).
Proof.
  intros Hx. unfold gateway.msg_id_or_gen.
  destruct (decide (x = "")); [contradiction|reflexivity].
Qed.

(** X10. A frame sent through [can_to_eth] and back through [eth_to_can]
    keeps the first 8 bytes of its data and the message id it was given
    on the way out (an identifier is minted at most once), but not its
    arbitration id: the packet's source is ["gateway"], so the id is the
    reverse table's entry for ["gateway"], else [0x200]; with the default
    tables it is always [0x200]. *)
Theorem can_eth_can_round_trip
    (self : gateway.ProtocolTranslator) (clk clk' : gateway.clock)
    (msg_counter : utils.Counter) (frame : CANFrame) (dst : option string) :
  let r1 := gateway.can_to_eth self clk msg_counter frame dst in
  let r2 := gateway.eth_to_can r1.1.1 clk' r1.1.2 r1.2 in
  data r2.2 = firstn 8 (data frame)
  /\ can_id r2.2
     = match gateway.eth_to_can_map self !! "gateway" with
       | Some id => id
       | None => 0x200
       end
  /\ can_bus.msg_id r2.2 = ethernet_bus.msg_id r1.2
  /\ ethernet_bus.msg_id r1.2 <> ""
  /\ r2.1.2 = r1.1.2
  /\ gateway.translation_count r2.1.1 = gateway.translation_count self + 2
  /\ gateway.eth_to_can_map (gateway.init None None) !! "gateway" = None.
Proof.
  cbv zeta.
  destruct (translation_states self clk msg_counter) as [Hs1 _].
  rewrite (Hs1 frame dst). cbn [fst snd].
  destruct (translation_states (gateway.record_latency self clk) clk'
              (gateway.msg_id_or_gen (can_bus.msg_id frame) "eth" msg_counter).1)
    as [_ Hs2].
  rewrite Hs2, eth_to_can_frame, can_to_eth_packet. cbn.
  pose proof (msg_id_or_gen_nonempty (can_bus.msg_id frame) "e" "th" msg_counter)
    as Hne.
  rewrite (msg_id_or_gen_keeps _ "can" _ Hne). cbn.
  split; [reflexivity|]. split; [reflexivity|]. split; [reflexivity|].
  split; [exact Hne|]. split; [reflexivity|]. split; [lia|reflexivity].
Qed.

(** X11. With the default tables a packet sent through [eth_to_can] and
    on through [can_to_eth] (no [dst] given) comes out with source
    ["gateway"] and the first 8 bytes of its payload, addressed to its
    own original source when that is one of the four mapped addresses,
    and to ["192.168.0.20"] otherwise; the two default tables are
    inverse to each other. *)
Theorem eth_can_eth_round_trip
    (clk clk' : gateway.clock) (msg_counter : utils.Counter)
    (pkt : EthernetPacket) :
  let self := gateway.init None None in
  let r1 := gateway.eth_to_can self clk msg_counter pkt in
  let r2 := gateway.can_to_eth r1.1.1 clk' r1.1.2 r1.2 None in
  payload r2.2 = firstn 8 (payload pkt)
  /\ ethernet_bus.src r2.2 = "gateway"
  /\ ethernet_bus.dst r2.2
     = match gateway.eth_to_can_map self !! ethernet_bus.src pkt with
       | Some _ => ethernet_bus.src pkt
       | None => "192.168.0.20"
       end
  /\ forall (id : Z) (address : string),
       gateway.eth_to_can_map self !! address = Some id
       <-> gateway.can_to_eth_map self !! id = Some address.
Proof.
  cbv zeta. split; [|split; [|split]].
  - rewrite can_to_eth_packet, eth_to_can_frame. reflexivity.
  - rewrite can_to_eth_packet. reflexivity.
  - rewrite can_to_eth_packet, eth_to_can_frame.
    destruct (translation_states (gateway.init None None) clk msg_counter) as [_ Hs].
    rewrite Hs.
    cbn [fst snd ethernet_bus.dst can_id gateway.str_or gateway.record_latency
         gateway.can_to_eth_map gateway.eth_to_can_map gateway.init gateway.dict_or].
    destruct (gateway.default_eth_to_can_map !! ethernet_bus.src pkt) as [id|] eqn:Hid.
    + apply default_tables_inverse in Hid.
      assert (default "192.168.0.99" (gateway.default_can_to_eth_map !! id)
              = ethernet_bus.src pkt) as Hdst by (rewrite Hid; reflexivity).
      exact Hdst.
    + reflexivity.
  - intros id address. apply default_tables_inverse.
Qed.

(** ** Message identifiers *)

Lemma append_inj_r (p a b : string) : p +:+ a = p +:+ b -> a = b.
Proof.
  induction p as [|ch p IH]; simpl; [trivial|].
  intros Heq. injection Heq as Heq. exact (IH Heq).
Qed.

Lemma gen_ids_replicate (prefix : string) (n : nat) (msg_counter : utils.Counter) :
  utils.gen_ids (replicate n prefix) msg_counter
  = ({| utils.value := utils.value msg_counter + Z.of_nat n |},
     map (fun i => prefix +:+ pretty (utils.value msg_counter + 1 + Z.of_nat i))
       (seq 0 n)).
Proof.
  revert msg_counter. induction n as [|n IH]; intros msg_counter.
  - simpl. rewrite Z.add_0_r. destruct msg_counter; reflexivity.
  - cbn [replicate utils.gen_ids utils.gen_id utils.get_next]. rewrite IH.
    cbn [utils.value seq map]. rewrite <- seq_shift, map_map. f_equal.
    + f_equal. lia.
    + f_equal; [rewrite Z.add_0_r; reflexivity|].
      apply map_ext. intros i. do 2 f_equal. lia.
Qed.

(** X12. [gen_id] advances the global counter by one and appends its new
    value in decimal to the prefix; any number of identifiers minted one
    after the other with the same prefix are pairwise different. *)
Theorem gen_id_fresh (prefix : string) (n : nat) (msg_counter : utils.Counter) :
  utils.gen_id prefix msg_counter
  = ({| utils.value := utils.value msg_counter + 1 |},
     prefix +:+ pretty (utils.value msg_counter + 1))
  /\ utils.value (utils.gen_ids (replicate n prefix) msg_counter).1
     = utils.value msg_counter + Z.of_nat n
  /\ length (utils.gen_ids (replicate n prefix) msg_counter).2 = n
  /\ NoDup (utils.gen_ids (replicate n prefix) msg_counter).2.
Proof.
  split; [reflexivity|]. rewrite gen_ids_replicate. cbn [fst snd utils.value].
  split; [reflexivity|]. split; [rewrite length_map, length_seq; reflexivity|].
  apply NoDup_fmap_2; [|apply NoDup_seq].
  intros i j Heq. apply append_inj_r in Heq.
  apply (inj pretty) in Heq. lia.
Qed.

(** ** Construction of the translator *)

Lemma dict_or_spec `{Countable K} {V} (m : option (gmap K V)) (d : gmap K V) :
  (m = None \/ m = Some ∅ -> gateway.dict_or m d = d)
  /\ (forall m', m = Some m' -> m' <> ∅ -> gateway.dict_or m d = m').
Proof.
  split.
  - intros [-> | ->]; [reflexivity|]. unfold gateway.dict_or.
    rewrite map_size_empty. reflexivity.
  - intros m' -> Hne. unfold gateway.dict_or.
    destruct (size m' =? 0)%nat eqn:Hsize; [|reflexivity].
    apply Nat.eqb_eq, map_size_empty_iff in Hsize. contradiction.
Qed.

(** X13. A table given to the constructor is used as it is unless it is
    empty: an empty dict is taken for a missing argument and replaced by
    the default table, for either direction, so a translator cannot be
    built without entries. *)
Theorem init_replaces_empty_tables
    (m1 : option (gmap Z string)) (m2 : option (gmap string Z)) :
  (m1 = None \/ m1 = Some ∅ ->
   gateway.can_to_eth_map (gateway.init m1 m2) = gateway.default_can_to_eth_map)
  /\ (forall m, m1 = Some m -> m <> ∅ ->
                gateway.can_to_eth_map (gateway.init m1 m2) = m)
  /\ (m2 = None \/ m2 = Some ∅ ->
      gateway.eth_to_can_map (gateway.init m1 m2) = gateway.default_eth_to_can_map)
  /\ (forall m, m2 = Some m -> m <> ∅ ->
                gateway.eth_to_can_map (gateway.init m1 m2) = m).
Proof.
  destruct (dict_or_spec m1 gateway.default_can_to_eth_map) as [H1 H1'].
  destruct (dict_or_spec m2 gateway.default_eth_to_can_map) as [H2 H2'].
  repeat split; assumption.
Qed.

Lemma init_replaces_empty_tables_witness :
  gateway.can_to_eth_map (gateway.init (Some ∅) None) !! 0x100
  = Some "192.168.0.10".
Proof.
  rewrite (proj1 (init_replaces_empty_tables (Some ∅) None)).
  - reflexivity.
  - right. reflexivity.
Defined.

(** ** The CAN bus: receiving *)

Local Abbreviation can_popped self j :=
  {| can_bus.q := skipn j (can_bus.q self);
     can_bus.batch_size := can_bus.batch_size self;
     messages_sent := messages_sent self;
     messages_received := messages_received self + Z.of_nat j |}.

Lemma can_popped_0 (self : HighPerformanceCANBus) : can_popped self 0%nat = self.
Proof. destruct self. cbn. f_equal. lia. Qed.

Lemma can_recv_cons (self : HighPerformanceCANBus) (frame : CANFrame)
    (rest : list CANFrame) :
  can_bus.q self = frame :: rest ->
  can_bus.recv self = (can_popped self 1%nat, Some frame).
Proof. intros Hq. unfold can_bus.recv. rewrite Hq. reflexivity. Qed.

Lemma can_recv_nil (self : HighPerformanceCANBus) :
  can_bus.q self = [] -> can_bus.recv self = (self, None).
Proof. intros Hq. unfold can_bus.recv. rewrite Hq. reflexivity. Qed.

Lemma can_popped_popped (self : HighPerformanceCANBus) (frame : CANFrame)
    (rest : list CANFrame) (j : nat) :
  can_bus.q self = frame :: rest ->
  can_popped (can_popped self 1%nat) j = can_popped self (S j).
Proof. intros Hq. cbn. rewrite Hq. cbn. f_equal. lia. Qed.

Lemma can_recv_batch_loop_prefix (clock : list Z) :
  (forall self frames max_frames deadline,
      exists j : nat,
        can_bus.recv_batch_loop self frames max_frames deadline clock
        = (can_popped self j, frames ++ firstn j (can_bus.q self))
        /\ (j <= length (can_bus.q self))%nat
        /\ Z.of_nat (length frames + j) <= Z.max max_frames (Z.of_nat (length frames)))
  /\ (forall now self frames max_frames deadline,
      exists j : nat,
        can_bus.recv_batch_loop self frames max_frames deadline (now :: clock)
        = (can_popped self j, frames ++ firstn j (can_bus.q self))
        /\ (j <= length (can_bus.q self))%nat
        /\ Z.of_nat (length frames + j) <= Z.max max_frames (Z.of_nat (length frames))).
Proof.
  assert (forall (self : HighPerformanceCANBus) (frames : list CANFrame) (max_frames : Z),
    exists j : nat,
      (self, frames) = (can_popped self j, frames ++ firstn j (can_bus.q self))
      /\ (j <= length (can_bus.q self))%nat
      /\ Z.of_nat (length frames + j) <= Z.max max_frames (Z.of_nat (length frames)))
    as Hstop.
  { intros self frames max_frames. exists 0%nat.
    rewrite can_popped_0, app_nil_r. split; [reflexivity|]. split; lia. }
  induction clock as [|now' clock [IH0 IH1]].
  - split; intros; cbn [can_bus.recv_batch_loop]; repeat case_match; apply Hstop.
  - split; [intros; apply IH1|].
    intros now self frames max_frames deadline.
    cbn [can_bus.recv_batch_loop].
    destruct (Z.of_nat (length frames) <? max_frames) eqn:Hroom; [|apply Hstop].
    destruct (now <? deadline); [|apply Hstop].
    destruct (deadline - now' <=? 0); [apply Hstop|].
    apply Z.ltb_lt in Hroom.
    assert (can_bus.q self = [] \/ exists frame rest, can_bus.q self = frame :: rest)
      as [Hq | (frame & rest & Hq)] by (destruct (can_bus.q self); eauto).
    + rewrite (can_recv_nil self Hq).
      destruct frames as [|f frames]; [|apply Hstop].
      apply IH0.
    + rewrite (can_recv_cons self frame rest Hq).
      destruct (IH0 (can_popped self 1%nat) (frames ++ [frame]) max_frames deadline)
        as (j & Heq & Hj & Hmax).
      exists (S j). rewrite Heq, (can_popped_popped self frame rest j Hq).
      cbn [can_bus.q] in *. rewrite Hq in *. cbn [skipn firstn length] in *.
      rewrite skipn_O in Hj.
      rewrite <- app_assoc. split; [reflexivity|]. split; [lia|].
      rewrite length_app in Hmax. cbn [length] in Hmax. lia.
Qed.

Lemma can_recv_batch_loop_enough (n : nat) :
  forall (clock : list Z) self frames max_frames deadline,
    Z.of_nat n
    = Z.min (Z.max 0 (max_frames - Z.of_nat (length frames)))
            (Z.of_nat (length (can_bus.q self))) ->
    (2 * n <= length clock)%nat ->
    Forall (fun now => now < deadline) (firstn (2 * n) clock) ->
    can_bus.recv_batch_loop self frames max_frames deadline clock
    = (can_popped self n, frames ++ firstn n (can_bus.q self)).
Proof.
  induction n as [|n IH]; intros clock self frames max_frames deadline Hn Hlen Hearly.
  - destruct (can_recv_batch_loop_prefix clock) as [Hprefix _].
    destruct (Hprefix self frames max_frames deadline) as (j & -> & Hj & Hmax).
    replace j with 0%nat by lia. reflexivity.
  - destruct clock as [|now [|now' clock]]; [simpl in Hlen; lia..|].
    replace (2 * S n)%nat with (S (S (2 * n))) in Hearly by lia.
    cbn [firstn] in Hearly.
    apply Forall_cons in Hearly as [Hnow Hearly].
    apply Forall_cons in Hearly as [Hnow' Hearly].
    destruct (can_bus.q self) as [|frame rest] eqn:Hq; [simpl in Hn; lia|].
    cbn [can_bus.recv_batch_loop].
    replace (Z.of_nat (length frames) <? max_frames) with true
      by (symmetry; apply Z.ltb_lt; lia).
    replace (now <? deadline) with true by (symmetry; apply Z.ltb_lt; lia).
    replace (deadline - now' <=? 0) with false by (symmetry; apply Z.leb_gt; lia).
    rewrite (can_recv_cons self frame rest Hq).
    rewrite (IH clock (can_popped self 1%nat) (frames ++ [frame]) max_frames deadline).
    + rewrite (can_popped_popped self frame rest n Hq).
      cbn [can_bus.q]. rewrite Hq. cbn [skipn firstn]. rewrite ?skipn_O, <- app_assoc.
      reflexivity.
    + cbn [can_bus.q]. rewrite Hq. cbn [skipn]. rewrite ?skipn_O, length_app.
      cbn [length] in *. lia.
    + simpl in Hlen. lia.
    + exact Hearly.
Qed.

Lemma can_recv_batch_shape (self : HighPerformanceCANBus)
    (max_frames timeout : Z) (clock : list Z) :
  exists j : nat,
    can_bus.recv_batch self max_frames timeout clock
    = (can_popped self j, firstn j (can_bus.q self))
    /\ (j <= length (can_bus.q self))%nat
    /\ Z.of_nat j <= Z.max max_frames 0.
Proof.
  destruct clock as [|now readings].
  - exists 0%nat. cbn [can_bus.recv_batch]. rewrite can_popped_0.
    split; [reflexivity|]. split; lia.
  - cbn [can_bus.recv_batch].
    destruct (can_recv_batch_loop_prefix readings) as [Hprefix _].
    destruct (Hprefix self [] max_frames (now + timeout)) as (j & -> & Hj & Hmax).
    exists j. split; [reflexivity|]. split; [exact Hj|]. cbn [length] in Hmax. lia.
Qed.

Lemma can_recv_batch_prefix (self : HighPerformanceCANBus)
    (max_frames timeout : Z) (clock : list Z) :
  let r := can_bus.recv_batch self max_frames timeout clock in
  (exists j : nat,
      r.2 = firstn j (can_bus.q self)
      /\ can_bus.q r.1 = skipn j (can_bus.q self)
      /\ messages_received r.1 = messages_received self + Z.of_nat j
      /\ messages_sent r.1 = messages_sent self
      /\ (j <= length (can_bus.q self))%nat
      /\ Z.of_nat j <= Z.max max_frames 0)
  /\ (forall (now : Z) (readings : list Z) (n : nat),
      clock = now :: readings ->
      Z.of_nat n = Z.min (Z.max 0 max_frames) (Z.of_nat (length (can_bus.q self))) ->
      (2 * n <= length readings)%nat ->
      Forall (fun t => t < now + timeout) (firstn (2 * n) readings) ->
      r.2 = firstn n (can_bus.q self)
      /\ can_bus.q r.1 = skipn n (can_bus.q self)).
Proof.
  cbv zeta. split.
  - destruct (can_recv_batch_shape self max_frames timeout clock)
      as (j & -> & Hj & Hmax).
    exists j. cbn [fst snd can_bus.q messages_sent messages_received].
    split; [reflexivity|]. split; [reflexivity|]. split; [reflexivity|].
    split; [reflexivity|]. split; [exact Hj|exact Hmax].
  - intros now readings n -> Hn Hlen Hearly. cbn [can_bus.recv_batch].
    rewrite (can_recv_batch_loop_enough n readings self [] max_frames (now + timeout));
      [split; reflexivity| |exact Hlen|exact Hearly].
    cbn [length]. rewrite Hn. f_equal. lia.
Qed.

(** ** The CAN bus: nothing lost, nothing doubled, nothing out of order *)

Lemma can_step_log (st : HighPerformanceCANBus * list CANFrame) (o : can_bus.op) :
  (can_bus.step st o).2 ++ can_bus.q (can_bus.step st o).1
  = st.2 ++ can_bus.q st.1 ++ can_bus.handed_in o
  /\ messages_sent (can_bus.step st o).1
     = messages_sent st.1 + Z.of_nat (length (can_bus.handed_in o))
  /\ messages_received (can_bus.step st o).1 - Z.of_nat (length (can_bus.step st o).2)
     = messages_received st.1 - Z.of_nat (length st.2).
Proof.
  destruct st as [self got]. destruct o as [frame|frames| |max_frames timeout clock];
    cbn [can_bus.step can_bus.handed_in fst snd].
  - cbn. repeat split; lia.
  - unfold can_bus.send_batch. rewrite can_fold_q_put. cbn. repeat split; lia.
  - assert (can_bus.q self = [] \/ exists frame rest, can_bus.q self = frame :: rest)
      as [Hq | (frame & rest & Hq)] by (destruct (can_bus.q self); eauto).
    + rewrite (can_recv_nil self Hq), !app_nil_r. cbn. repeat split; lia.
    + rewrite (can_recv_cons self frame rest Hq). cbn. rewrite Hq. simpl.
      rewrite <- !app_assoc, app_nil_r, length_app. simpl. repeat split; lia.
  - destruct (can_recv_batch_shape self max_frames timeout clock)
      as (j & -> & Hj & _).
    cbn [fst snd can_bus.q messages_sent messages_received].
    rewrite app_nil_r, <- app_assoc, firstn_skipn, length_app, length_firstn.
    cbn [length]. split; [reflexivity|]. split; lia.
Qed.

Lemma can_run_log (ops : list can_bus.op)
    (st : HighPerformanceCANBus * list CANFrame) :
  (fold_left can_bus.step ops st).2 ++ can_bus.q (fold_left can_bus.step ops st).1
  = st.2 ++ can_bus.q st.1 ++ flat_map can_bus.handed_in ops
  /\ messages_sent (fold_left can_bus.step ops st).1
     = messages_sent st.1 + Z.of_nat (length (flat_map can_bus.handed_in ops))
  /\ messages_received (fold_left can_bus.step ops st).1
     - Z.of_nat (length (fold_left can_bus.step ops st).2)
     = messages_received st.1 - Z.of_nat (length st.2).
Proof.
  revert st. induction ops as [|o ops IH]; intros st.
  - cbn. rewrite app_nil_r. repeat split; lia.
  - cbn [fold_left flat_map].
    destruct (IH (can_bus.step st o)) as (-> & -> & ->).
    destruct (can_step_log st o) as (Hq & -> & ->).
    rewrite app_assoc, Hq, <- !app_assoc, length_app. repeat split; lia.
Qed.

Lemma can_bus_fifo (batch_size : Z) (ops : list can_bus.op) :
  let r := can_bus.run (can_bus.init batch_size) ops in
  r.2 ++ can_bus.q r.1 = flat_map can_bus.handed_in ops
  /\ messages_sent r.1 = Z.of_nat (length (flat_map can_bus.handed_in ops))
  /\ messages_received r.1 = Z.of_nat (length r.2)
  /\ can_bus.sent (can_bus.get_stats r.1)
     = can_bus.received (can_bus.get_stats r.1)
       + can_bus.queued (can_bus.get_stats r.1).
Proof.
  cbv zeta. unfold can_bus.run.
  destruct (can_run_log ops (can_bus.init batch_size, [])) as (Hlog & Hsent & Hrecv).
  cbn [fst snd can_bus.init can_bus.q messages_sent messages_received app length]
    in Hlog, Hsent, Hrecv.
  split; [exact Hlog|]. split; [lia|]. split; [lia|].
  cbn [can_bus.get_stats can_bus.sent can_bus.received can_bus.queued].
  rewrite Hsent, <- Hlog, length_app. lia.
Qed.

(** ** The Ethernet bus: receiving *)

Local Abbreviation eth_popped self j :=
  {| ethernet_bus.q := skipn j (ethernet_bus.q self);
     ethernet_bus.batch_size := ethernet_bus.batch_size self;
     packets_sent := packets_sent self;
     packets_received := packets_received self + Z.of_nat j |}.

Lemma eth_popped_0 (self : HighPerformanceEthernetBus) : eth_popped self 0%nat = self.
Proof. destruct self. cbn. f_equal. lia. Qed.

Lemma eth_recv_cons (self : HighPerformanceEthernetBus) (pkt : EthernetPacket)
    (rest : list EthernetPacket) :
  ethernet_bus.q self = pkt :: rest ->
  ethernet_bus.recv self = (eth_popped self 1%nat, Some pkt).
Proof. intros Hq. unfold ethernet_bus.recv. rewrite Hq. reflexivity. Qed.

Lemma eth_recv_nil (self : HighPerformanceEthernetBus) :
  ethernet_bus.q self = [] -> ethernet_bus.recv self = (self, None).
Proof. intros Hq. unfold ethernet_bus.recv. rewrite Hq. reflexivity. Qed.

Lemma eth_popped_popped (self : HighPerformanceEthernetBus) (pkt : EthernetPacket)
    (rest : list EthernetPacket) (j : nat) :
  ethernet_bus.q self = pkt :: rest ->
  eth_popped (eth_popped self 1%nat) j = eth_popped self (S j).
Proof. intros Hq. cbn. rewrite Hq. cbn. f_equal. lia. Qed.

Lemma eth_recv_batch_loop_prefix (clock : list Z) :
  (forall self packets max_packets deadline,
      exists j : nat,
        ethernet_bus.recv_batch_loop self packets max_packets deadline clock
        = (eth_popped self j, packets ++ firstn j (ethernet_bus.q self))
        /\ (j <= length (ethernet_bus.q self))%nat
        /\ Z.of_nat (length packets + j) <= Z.max max_packets (Z.of_nat (length packets)))
  /\ (forall now self packets max_packets deadline,
      exists j : nat,
        ethernet_bus.recv_batch_loop self packets max_packets deadline (now :: clock)
        = (eth_popped self j, packets ++ firstn j (ethernet_bus.q self))
        /\ (j <= length (ethernet_bus.q self))%nat
        /\ Z.of_nat (length packets + j) <= Z.max max_packets (Z.of_nat (length packets))).
Proof.
  assert (forall (self : HighPerformanceEthernetBus) (packets : list EthernetPacket) (max_packets : Z),
    exists j : nat,
      (self, packets) = (eth_popped self j, packets ++ firstn j (ethernet_bus.q self))
      /\ (j <= length (ethernet_bus.q self))%nat
      /\ Z.of_nat (length packets + j) <= Z.max max_packets (Z.of_nat (length packets)))
    as Hstop.
  { intros self packets max_packets. exists 0%nat.
    rewrite eth_popped_0, app_nil_r. split; [reflexivity|]. split; lia. }
  induction clock as [|now' clock [IH0 IH1]].
  - split; intros; cbn [ethernet_bus.recv_batch_loop]; repeat case_match; apply Hstop.
  - split; [intros; apply IH1|].
    intros now self packets max_packets deadline.
    cbn [ethernet_bus.recv_batch_loop].
    destruct (Z.of_nat (length packets) <? max_packets) eqn:Hroom; [|apply Hstop].
    destruct (now <? deadline); [|apply Hstop].
    destruct (deadline - now' <=? 0); [apply Hstop|].
    apply Z.ltb_lt in Hroom.
    assert (ethernet_bus.q self = [] \/ exists pkt rest, ethernet_bus.q self = pkt :: rest)
      as [Hq | (pkt & rest & Hq)] by (destruct (ethernet_bus.q self); eauto).
    + rewrite (eth_recv_nil self Hq).
      destruct packets as [|f packets]; [|apply Hstop].
      apply IH0.
    + rewrite (eth_recv_cons self pkt rest Hq).
      destruct (IH0 (eth_popped self 1%nat) (packets ++ [pkt]) max_packets deadline)
        as (j & Heq & Hj & Hmax).
      exists (S j). rewrite Heq, (eth_popped_popped self pkt rest j Hq).
      cbn [ethernet_bus.q] in *. rewrite Hq in *. cbn [skipn firstn length] in *.
      rewrite skipn_O in Hj.
      rewrite <- app_assoc. split; [reflexivity|]. split; [lia|].
      rewrite length_app in Hmax. cbn [length] in Hmax. lia.
Qed.

Lemma eth_recv_batch_loop_enough (n : nat) :
  forall (clock : list Z) self packets max_packets deadline,
    Z.of_nat n
    = Z.min (Z.max 0 (max_packets - Z.of_nat (length packets)))
            (Z.of_nat (length (ethernet_bus.q self))) ->
    (2 * n <= length clock)%nat ->
    Forall (fun now => now < deadline) (firstn (2 * n) clock) ->
    ethernet_bus.recv_batch_loop self packets max_packets deadline clock
    = (eth_popped self n, packets ++ firstn n (ethernet_bus.q self)).
Proof.
  induction n as [|n IH]; intros clock self packets max_packets deadline Hn Hlen Hearly.
  - destruct (eth_recv_batch_loop_prefix clock) as [Hprefix _].
    destruct (Hprefix self packets max_packets deadline) as (j & -> & Hj & Hmax).
    replace j with 0%nat by lia. reflexivity.
  - destruct clock as [|now [|now' clock]]; [simpl in Hlen; lia..|].
    replace (2 * S n)%nat with (S (S (2 * n))) in Hearly by lia.
    cbn [firstn] in Hearly.
    apply Forall_cons in Hearly as [Hnow Hearly].
    apply Forall_cons in Hearly as [Hnow' Hearly].
    destruct (ethernet_bus.q self) as [|pkt rest] eqn:Hq; [simpl in Hn; lia|].
    cbn [ethernet_bus.recv_batch_loop].
    replace (Z.of_nat (length packets) <? max_packets) with true
      by (symmetry; apply Z.ltb_lt; lia).
    replace (now <? deadline) with true by (symmetry; apply Z.ltb_lt; lia).
    replace (deadline - now' <=? 0) with false by (symmetry; apply Z.leb_gt; lia).
    rewrite (eth_recv_cons self pkt rest Hq).
    rewrite (IH clock (eth_popped self 1%nat) (packets ++ [pkt]) max_packets deadline).
    + rewrite (eth_popped_popped self pkt rest n Hq).
      cbn [ethernet_bus.q]. rewrite Hq. cbn [skipn firstn]. rewrite ?skipn_O, <- app_assoc.
      reflexivity.
    + cbn [ethernet_bus.q]. rewrite Hq. cbn [skipn]. rewrite ?skipn_O, length_app.
      cbn [length] in *. lia.
    + simpl in Hlen. lia.
    + exact Hearly.
Qed.

Lemma eth_recv_batch_shape (self : HighPerformanceEthernetBus)
    (max_packets timeout : Z) (clock : list Z) :
  exists j : nat,
    ethernet_bus.recv_batch self max_packets timeout clock
    = (eth_popped self j, firstn j (ethernet_bus.q self))
    /\ (j <= length (ethernet_bus.q self))%nat
    /\ Z.of_nat j <= Z.max max_packets 0.
Proof.
  destruct clock as [|now readings].
  - exists 0%nat. cbn [ethernet_bus.recv_batch]. rewrite eth_popped_0.
    split; [reflexivity|]. split; lia.
  - cbn [ethernet_bus.recv_batch].
    destruct (eth_recv_batch_loop_prefix readings) as [Hprefix _].
    destruct (Hprefix self [] max_packets (now + timeout)) as (j & -> & Hj & Hmax).
    exists j. split; [reflexivity|]. split; [exact Hj|]. cbn [length] in Hmax. lia.
Qed.

Lemma eth_recv_batch_prefix (self : HighPerformanceEthernetBus)
    (max_packets timeout : Z) (clock : list Z) :
  let r := ethernet_bus.recv_batch self max_packets timeout clock in
  (exists j : nat,
      r.2 = firstn j (ethernet_bus.q self)
      /\ ethernet_bus.q r.1 = skipn j (ethernet_bus.q self)
      /\ packets_received r.1 = packets_received self + Z.of_nat j
      /\ packets_sent r.1 = packets_sent self
      /\ (j <= length (ethernet_bus.q self))%nat
      /\ Z.of_nat j <= Z.max max_packets 0)
  /\ (forall (now : Z) (readings : list Z) (n : nat),
      clock = now :: readings ->
      Z.of_nat n = Z.min (Z.max 0 max_packets) (Z.of_nat (length (ethernet_bus.q self))) ->
      (2 * n <= length readings)%nat ->
      Forall (fun t => t < now + timeout) (firstn (2 * n) readings) ->
      r.2 = firstn n (ethernet_bus.q self)
      /\ ethernet_bus.q r.1 = skipn n (ethernet_bus.q self)).
Proof.
  cbv zeta. split.
  - destruct (eth_recv_batch_shape self max_packets timeout clock)
      as (j & -> & Hj & Hmax).
    exists j. cbn [fst snd ethernet_bus.q packets_sent packets_received].
    split; [reflexivity|]. split; [reflexivity|]. split; [reflexivity|].
    split; [reflexivity|]. split; [exact Hj|exact Hmax].
  - intros now readings n -> Hn Hlen Hearly. cbn [ethernet_bus.recv_batch].
    rewrite (eth_recv_batch_loop_enough n readings self [] max_packets (now + timeout));
      [split; reflexivity| |exact Hlen|exact Hearly].
    cbn [length]. rewrite Hn. f_equal. lia.
Qed.

(** ** The Ethernet bus: nothing lost, nothing doubled, nothing out of order *)

Lemma eth_step_log (st : HighPerformanceEthernetBus * list EthernetPacket) (o : ethernet_bus.op) :
  (ethernet_bus.step st o).2 ++ ethernet_bus.q (ethernet_bus.step st o).1
  = st.2 ++ ethernet_bus.q st.1 ++ ethernet_bus.handed_in o
  /\ packets_sent (ethernet_bus.step st o).1
     = packets_sent st.1 + Z.of_nat (length (ethernet_bus.handed_in o))
  /\ packets_received (ethernet_bus.step st o).1 - Z.of_nat (length (ethernet_bus.step st o).2)
     = packets_received st.1 - Z.of_nat (length st.2).
Proof.
  destruct st as [self got]. destruct o as [pkt|packets| |max_packets timeout clock];
    cbn [ethernet_bus.step ethernet_bus.handed_in fst snd].
  - cbn. repeat split; lia.
  - unfold ethernet_bus.send_batch. rewrite eth_fold_q_put. cbn. repeat split; lia.
  - assert (ethernet_bus.q self = [] \/ exists pkt rest, ethernet_bus.q self = pkt :: rest)
      as [Hq | (pkt & rest & Hq)] by (destruct (ethernet_bus.q self); eauto).
    + rewrite (eth_recv_nil self Hq), !app_nil_r. cbn. repeat split; lia.
    + rewrite (eth_recv_cons self pkt rest Hq). cbn. rewrite Hq. simpl.
      rewrite <- !app_assoc, app_nil_r, length_app. simpl. repeat split; lia.
  - destruct (eth_recv_batch_shape self max_packets timeout clock)
      as (j & -> & Hj & _).
    cbn [fst snd ethernet_bus.q packets_sent packets_received].
    rewrite app_nil_r, <- app_assoc, firstn_skipn, length_app, length_firstn.
    cbn [length]. split; [reflexivity|]. split; lia.
Qed.

Lemma eth_run_log (ops : list ethernet_bus.op)
    (st : HighPerformanceEthernetBus * list EthernetPacket) :
  (fold_left ethernet_bus.step ops st).2 ++ ethernet_bus.q (fold_left ethernet_bus.step ops st).1
  = st.2 ++ ethernet_bus.q st.1 ++ flat_map ethernet_bus.handed_in ops
  /\ packets_sent (fold_left ethernet_bus.step ops st).1
     = packets_sent st.1 + Z.of_nat (length (flat_map ethernet_bus.handed_in ops))
  /\ packets_received (fold_left ethernet_bus.step ops st).1
     - Z.of_nat (length (fold_left ethernet_bus.step ops st).2)
     = packets_received st.1 - Z.of_nat (length st.2).
Proof.
  revert st. induction ops as [|o ops IH]; intros st.
  - cbn. rewrite app_nil_r. repeat split; lia.
  - cbn [fold_left flat_map].
    destruct (IH (ethernet_bus.step st o)) as (-> & -> & ->).
    destruct (eth_step_log st o) as (Hq & -> & ->).
    rewrite app_assoc, Hq, <- !app_assoc, length_app. repeat split; lia.
Qed.

Lemma eth_bus_fifo (batch_size : Z) (ops : list ethernet_bus.op) :
  let r := ethernet_bus.run (ethernet_bus.init batch_size) ops in
  r.2 ++ ethernet_bus.q r.1 = flat_map ethernet_bus.handed_in ops
  /\ packets_sent r.1 = Z.of_nat (length (flat_map ethernet_bus.handed_in ops))
  /\ packets_received r.1 = Z.of_nat (length r.2)
  /\ ethernet_bus.sent (ethernet_bus.get_stats r.1)
     = ethernet_bus.received (ethernet_bus.get_stats r.1)
       + ethernet_bus.queued (ethernet_bus.get_stats r.1).
Proof.
  cbv zeta. unfold ethernet_bus.run.
  destruct (eth_run_log ops (ethernet_bus.init batch_size, [])) as (Hlog & Hsent & Hrecv).
  cbn [fst snd ethernet_bus.init ethernet_bus.q packets_sent packets_received app length]
    in Hlog, Hsent, Hrecv.
  split; [exact Hlog|]. split; [lia|]. split; [lia|].
  cbn [ethernet_bus.get_stats ethernet_bus.sent ethernet_bus.received ethernet_bus.queued].
  rewrite Hsent, <- Hlog, length_app. lia.
Qed.

(** ** Both buses *)

(** X14. On either bus, after any sequence of [send], [send_batch],
    [recv] and [recv_batch] calls on a fresh bus, the messages handed out
    so far followed by the messages still queued are exactly the
    messages sent, in the order they were sent: nothing is lost, doubled
    or reordered.  The sent counter counts the messages sent, the
    received counter the messages handed out, and [get_stats] reports
    [sent = received + queued]. *)
Theorem bus_fifo :
  (forall (batch_size : Z) (ops : list can_bus.op),
      let r := can_bus.run (can_bus.init batch_size) ops in
      r.2 ++ can_bus.q r.1 = flat_map can_bus.handed_in ops
      /\ messages_sent r.1 = Z.of_nat (length (flat_map can_bus.handed_in ops))
      /\ messages_received r.1 = Z.of_nat (length r.2)
      /\ can_bus.sent (can_bus.get_stats r.1)
         = can_bus.received (can_bus.get_stats r.1)
           + can_bus.queued (can_bus.get_stats r.1))
  /\ (forall (batch_size : Z) (ops : list ethernet_bus.op),
      let r := ethernet_bus.run (ethernet_bus.init batch_size) ops in
      r.2 ++ ethernet_bus.q r.1 = flat_map ethernet_bus.handed_in ops
      /\ packets_sent r.1 = Z.of_nat (length (flat_map ethernet_bus.handed_in ops))
      /\ packets_received r.1 = Z.of_nat (length r.2)
      /\ ethernet_bus.sent (ethernet_bus.get_stats r.1)
         = ethernet_bus.received (ethernet_bus.get_stats r.1)
           + ethernet_bus.queued (ethernet_bus.get_stats r.1)).
Proof. split; [exact can_bus_fifo|exact eth_bus_fifo]. Qed.

(** X15. [recv_batch] with no producer running, on either bus: whatever
    the clock does, it hands out the first [j] queued messages in order
    for some [j] that is at most the maximum asked for and at most the
    queue length, takes exactly those off the queue, adds [j] to the
    received counter and leaves the sent counter alone (so nothing is
    handed out on an empty queue or for a maximum of 0 or less).  When
    the clock stays before the deadline for two readings per message,
    [j] is the smaller of the maximum and the queue length. *)
Theorem recv_batch_prefix :
  (forall (self : HighPerformanceCANBus) (max_frames timeout : Z) (clock : list Z),
      let r := can_bus.recv_batch self max_frames timeout clock in
      (exists j : nat,
          r.2 = firstn j (can_bus.q self)
          /\ can_bus.q r.1 = skipn j (can_bus.q self)
          /\ messages_received r.1 = messages_received self + Z.of_nat j
          /\ messages_sent r.1 = messages_sent self
          /\ (j <= length (can_bus.q self))%nat
          /\ Z.of_nat j <= Z.max max_frames 0)
      /\ (forall (now : Z) (readings : list Z) (n : nat),
          clock = now :: readings ->
          Z.of_nat n
          = Z.min (Z.max 0 max_frames) (Z.of_nat (length (can_bus.q self))) ->
          (2 * n <= length readings)%nat ->
          Forall (fun t => t < now + timeout) (firstn (2 * n) readings) ->
          r.2 = firstn n (can_bus.q self)
          /\ can_bus.q r.1 = skipn n (can_bus.q self)))
  /\ (forall (self : HighPerformanceEthernetBus) (max_packets timeout : Z)
        (clock : list Z),
      let r := ethernet_bus.recv_batch self max_packets timeout clock in
      (exists j : nat,
          r.2 = firstn j (ethernet_bus.q self)
          /\ ethernet_bus.q r.1 = skipn j (ethernet_bus.q self)
          /\ packets_received r.1 = packets_received self + Z.of_nat j
          /\ packets_sent r.1 = packets_sent self
          /\ (j <= length (ethernet_bus.q self))%nat
          /\ Z.of_nat j <= Z.max max_packets 0)
      /\ (forall (now : Z) (readings : list Z) (n : nat),
          clock = now :: readings ->
          Z.of_nat n
          = Z.min (Z.max 0 max_packets) (Z.of_nat (length (ethernet_bus.q self))) ->
          (2 * n <= length readings)%nat ->
          Forall (fun t => t < now + timeout) (firstn (2 * n) readings) ->
          r.2 = firstn n (ethernet_bus.q self)
          /\ ethernet_bus.q r.1 = skipn n (ethernet_bus.q self))).
Proof. split; [exact can_recv_batch_prefix|exact eth_recv_batch_prefix]. Qed.

Lemma recv_batch_prefix_witness :
  (can_bus.recv_batch (can_bus.send_batch (can_bus.init 50) sample.burst)
     2 1000 [0; 1; 2; 3; 4; 5]).2
  = firstn 2 sample.burst.
Proof.
  apply (proj2 (proj1 recv_batch_prefix
                  (can_bus.send_batch (can_bus.init 50) sample.burst)
                  2 1000 [0; 1; 2; 3; 4; 5]) 0 [1; 2; 3; 4; 5] 2%nat).
  - reflexivity.
  - reflexivity.
  - simpl. lia.
  - repeat constructor.
Defined.

(** ** Rounding to the nearest double *)

Section Rounding.

Import binary64.

Lemma one_pos : 0 < one.
Proof. apply Z.pow_pos_nonneg; lia. Qed.

Lemma overflow_one : overflow = 2 ^ 1024 * one.
Proof. unfold overflow, one. rewrite <- Z.pow_add_r by lia. reflexivity. Qed.

Lemma round_half_even_ge (g n d : Z) :
  0 < d -> g * d <= n -> g <= round_half_even n d.
Proof.
  intros Hd Hg. unfold round_half_even. cbv zeta.
  assert (g <= n / d) by (apply Z.div_le_lower_bound; lia).
  destruct (2 * (n mod d) <? d); [lia|].
  destruct (d <? 2 * (n mod d)); [lia|].
  destruct (Z.even (n / d)); lia.
Qed.

Lemma round_half_even_le (g n d : Z) :
  0 < d -> n <= g * d -> round_half_even n d <= g.
Proof.
  intros Hd Hg. unfold round_half_even. cbv zeta.
  pose proof (Z.div_mod n d ltac:(lia)) as Hn.
  pose proof (Z.mod_pos_bound n d Hd) as Hr.
  destruct (Z_lt_le_dec (n / d) g) as [Hlt|Hge].
  - destruct (2 * (n mod d) <? d); [lia|].
    destruct (d <? 2 * (n mod d)); [lia|].
    destruct (Z.even (n / d)); lia.
  - assert (d * g <= d * (n / d)) by (apply Z.mul_le_mono_nonneg_l; lia).
    assert (n mod d = 0) as Hr0 by lia.
    assert (n / d = g) as Hq.
    { apply Z.mul_reg_l with d; lia. }
    rewrite Hr0, Hq.
    replace (2 * 0 <? d) with true by (symmetry; apply Z.ltb_lt; lia).
    lia.
Qed.

Lemma exponent_nonneg (n d : Z) : 0 <= exponent n d.
Proof.
  unfold exponent. cbv zeta.
  destruct (Z.leb_spec (Z.log2 n - Z.log2 d - 52) 0); [lia|].
  destruct (n <? d * 2 ^ (52 + (Z.log2 n - Z.log2 d - 52))); lia.
Qed.

(** The exponent is that of the binade of [n / d]. *)
Lemma exponent_spec (n d : Z) :
  0 < n -> 0 < d ->
  n < d * 2 ^ (53 + exponent n d)
  /\ (0 < exponent n d -> d * 2 ^ (52 + exponent n d) <= n).
Proof.
  intros Hn Hd.
  destruct (Z.log2_spec n Hn) as [Hn1 Hn2].
  destruct (Z.log2_spec d Hd) as [Hd1 Hd2].
  pose proof (Z.log2_nonneg n) as Hln. pose proof (Z.log2_nonneg d) as Hld.
  unfold exponent. cbv zeta.
  set (ln := Z.log2 n) in *. set (ld := Z.log2 d) in *.
  destruct (Z.leb_spec (ln - ld - 52) 0) as [He0|He0].
  - split; [|lia].
    assert (2 ^ Z.succ ln <= 2 ^ ld * 2 ^ (53 + 0)) as Hpow.
    { rewrite <- Z.pow_add_r by lia. apply Z.pow_le_mono_r; lia. }
    assert (2 ^ ld * 2 ^ (53 + 0) <= d * 2 ^ (53 + 0))
      by (apply Z.mul_le_mono_nonneg_r; lia).
    lia.
  - destruct (Z.ltb_spec n (d * 2 ^ (52 + (ln - ld - 52)))) as [Ht|Ht].
    + split.
      * replace (53 + (ln - ld - 52 - 1)) with (52 + (ln - ld - 52)) by lia.
        exact Ht.
      * intros _.
        assert (d * 2 ^ (52 + (ln - ld - 52 - 1))
                <= 2 ^ Z.succ ld * 2 ^ (52 + (ln - ld - 52 - 1)))
          by (apply Z.mul_le_mono_nonneg_r; lia).
        assert (2 ^ Z.succ ld * 2 ^ (52 + (ln - ld - 52 - 1)) = 2 ^ ln) as Heq.
        { rewrite <- Z.pow_add_r by lia. f_equal. lia. }
        lia.
    + split; [|intros _; exact Ht].
      assert (2 ^ Z.succ ln = 2 ^ ld * 2 ^ (53 + (ln - ld - 52))) as Heq.
      { rewrite <- Z.pow_add_r by lia. f_equal. lia. }
      assert (2 ^ ld * 2 ^ (53 + (ln - ld - 52)) <= d * 2 ^ (53 + (ln - ld - 52)))
        by (apply Z.mul_le_mono_nonneg_r; lia).
      lia.
Qed.

Lemma round_pos_zero (d : Z) : 0 < d -> round_pos 0 d = 0.
Proof.
  intros Hd. unfold round_pos, exponent. cbv zeta.
  pose proof (Z.log2_nonneg d).
  change (Z.log2 0) with 0.
  replace (0 - Z.log2 d - 52 <=? 0) with true by (symmetry; apply Z.leb_le; lia).
  unfold round_half_even. cbv zeta.
  rewrite Z.div_0_l, Z.mod_0_l by lia.
  replace (2 * 0 <? d * 2 ^ 0) with true by (symmetry; apply Z.ltb_lt; lia).
  reflexivity.
Qed.

(** Rounding does not cross a double: a double below the exact value
    stays below the rounded one, a double above stays above. *)
Lemma round_pos_ge (x n d : Z) :
  representable x -> 0 <= n -> 0 < d -> x * d <= n -> x <= round_pos n d.
Proof.
  intros (g & f & Hf & Hg & ->) Hn Hd Hx.
  assert (0 < 2 ^ f) by (apply Z.pow_pos_nonneg; lia).
  destruct (Z.eq_dec n 0) as [->|Hn0].
  { rewrite round_pos_zero by exact Hd. nia. }
  destruct (exponent_spec n d ltac:(lia) Hd) as [_ Hlow].
  pose proof (exponent_nonneg n d) as He.
  unfold round_pos. cbv zeta. set (e := exponent n d) in *.
  assert (0 < 2 ^ e) by (apply Z.pow_pos_nonneg; lia).
  destruct (Z_le_gt_dec e f) as [Hef|Hef].
  - replace f with ((f - e) + e) by lia. rewrite Z.pow_add_r by lia.
    rewrite Z.mul_assoc. apply Z.mul_le_mono_nonneg_r; [lia|].
    apply round_half_even_ge; [lia|].
    replace f with ((f - e) + e) in Hx by lia. rewrite Z.pow_add_r in Hx by lia.
    lia.
  - specialize (Hlow ltac:(lia)).
    assert (2 ^ 52 <= round_half_even n (d * 2 ^ e)) as Hm.
    { apply round_half_even_ge; [lia|].
      rewrite Z.pow_add_r in Hlow by lia. lia. }
    assert (g * 2 ^ f <= 2 ^ 53 * 2 ^ f) by (apply Z.mul_le_mono_nonneg_r; lia).
    assert (2 ^ 53 * 2 ^ f <= 2 ^ 52 * 2 ^ e).
    { change (2 ^ 53) with (2 ^ 52 * 2 ^ 1). rewrite <- Z.mul_assoc.
      apply Z.mul_le_mono_nonneg_l; [lia|].
      rewrite <- Z.pow_add_r by lia. apply Z.pow_le_mono_r; lia. }
    assert (2 ^ 52 * 2 ^ e <= round_half_even n (d * 2 ^ e) * 2 ^ e)
      by (apply Z.mul_le_mono_nonneg_r; lia).
    lia.
Qed.

Lemma round_pos_le (x n d : Z) :
  representable x -> 0 <= n -> 0 < d -> n <= x * d -> round_pos n d <= x.
Proof.
  intros (g & f & Hf & Hg & ->) Hn Hd Hx.
  assert (0 < 2 ^ f) by (apply Z.pow_pos_nonneg; lia).
  destruct (Z.eq_dec n 0) as [->|Hn0].
  { rewrite round_pos_zero by exact Hd. nia. }
  destruct (exponent_spec n d ltac:(lia) Hd) as [_ Hlow].
  pose proof (exponent_nonneg n d) as He.
  unfold round_pos. cbv zeta. set (e := exponent n d) in *.
  assert (0 < 2 ^ e) by (apply Z.pow_pos_nonneg; lia).
  destruct (Z_le_gt_dec e f) as [Hef|Hef].
  - replace f with ((f - e) + e) by lia. rewrite Z.pow_add_r by lia.
    rewrite Z.mul_assoc. apply Z.mul_le_mono_nonneg_r; [lia|].
    apply round_half_even_le; [lia|].
    replace f with ((f - e) + e) in Hx by lia. rewrite Z.pow_add_r in Hx by lia.
    lia.
  - specialize (Hlow ltac:(lia)).
    assert (g * 2 ^ f <= 2 ^ 53 * 2 ^ f) as Hg1
      by (apply Z.mul_le_mono_nonneg_r; lia).
    assert (2 ^ 53 * 2 ^ f <= 2 ^ 52 * 2 ^ e) as Hg2.
    { change (2 ^ 53) with (2 ^ 52 * 2 ^ 1). rewrite <- Z.mul_assoc.
      apply Z.mul_le_mono_nonneg_l; [lia|].
      rewrite <- Z.pow_add_r by lia. apply Z.pow_le_mono_r; lia. }
    rewrite Z.pow_add_r in Hlow by lia.
    assert (g * 2 ^ f * d <= 2 ^ 52 * 2 ^ e * d)
      by (apply Z.mul_le_mono_nonneg_r; lia).
    assert (round_half_even n (d * 2 ^ e) <= 2 ^ 52) as Hm.
    { apply round_half_even_le; lia. }
    assert (round_half_even n (d * 2 ^ e) * 2 ^ e <= 2 ^ 52 * 2 ^ e)
      by (apply Z.mul_le_mono_nonneg_r; lia).
    assert (2 ^ 52 * 2 ^ e * d <= g * 2 ^ f * d) by lia.
    assert (2 ^ 52 * 2 ^ e <= g * 2 ^ f).
    { apply Z.mul_le_mono_pos_r with d; lia. }
    lia.
Qed.

Lemma representable_0 : representable 0.
Proof. exists 0, 0. lia. Qed.

(** The whole numbers up to [2^53] are doubles. *)
Lemma representable_int (z : Z) : 0 <= z <= 2 ^ 53 -> representable (z * one).
Proof. intros Hz. exists z, 1074. split; [lia|]. split; [exact Hz|reflexivity]. Qed.

Lemma representable_overflow : representable overflow.
Proof. exists 1, 2098. split; [lia|]. split; [lia|]. unfold overflow. lia. Qed.

Lemma round_pos_nonneg (n d : Z) : 0 <= n -> 0 < d -> 0 <= round_pos n d.
Proof. intros Hn Hd. apply round_pos_ge; [apply representable_0|lia..]. Qed.

Lemma round_ge (x n d : Z) :
  representable (Z.abs x) -> 0 < d -> x * d <= n -> x <= round n d.
Proof.
  intros Hx Hd Hle. unfold round.
  destruct (Z.leb_spec 0 n) as [Hn|Hn].
  - destruct (Z.le_gt_cases 0 x) as [Hx0|Hx0].
    + rewrite Z.abs_eq in Hx by lia. apply round_pos_ge; assumption.
    + pose proof (round_pos_nonneg n d Hn Hd). lia.
  - assert (x < 0) by nia. rewrite Z.abs_neq in Hx by lia.
    pose proof (round_pos_le (- x) (- n) d Hx ltac:(lia) Hd ltac:(lia)). lia.
Qed.

Lemma round_le (x n d : Z) :
  representable (Z.abs x) -> 0 < d -> n <= x * d -> round n d <= x.
Proof.
  intros Hx Hd Hle. unfold round.
  destruct (Z.leb_spec 0 n) as [Hn|Hn].
  - assert (0 <= x) by nia. rewrite Z.abs_eq in Hx by lia.
    apply round_pos_le; assumption.
  - destruct (Z.le_gt_cases 0 x) as [Hx0|Hx0].
    + pose proof (round_pos_nonneg (- n) d ltac:(lia) Hd). lia.
    + rewrite Z.abs_neq in Hx by lia.
      pose proof (round_pos_ge (- x) (- n) d Hx ltac:(lia) Hd ltac:(lia)). lia.
Qed.

(** A double is rounded to itself. *)
Lemma round_exact (x d : Z) :
  representable (Z.abs x) -> 0 < d -> round (x * d) d = x.
Proof.
  intros Hx Hd. apply Z.le_antisymm.
  - apply round_le; [assumption|assumption|lia].
  - apply round_ge; [assumption|assumption|lia].
Qed.

Lemma quotient_pos (a b : Z) : 0 < b -> quotient a b = round a b.
Proof.
  intros Hb. unfold quotient.
  destruct (Z.ltb_spec 0 b); [reflexivity|lia].
Qed.

Lemma true_div_pos (a b : Z) :
  0 < b -> true_div a b = checked (round (a * one) b).
Proof.
  intros Hb. unfold true_div.
  destruct (Z.eqb_spec b 0); [lia|]. rewrite quotient_pos by exact Hb. reflexivity.
Qed.

Lemma checked_ok (x : Z) : - overflow < x < overflow -> checked x = ok x.
Proof.
  intros Hx. unfold checked.
  destruct (Z.leb_spec overflow x); [lia|].
  destruct (Z.leb_spec x (- overflow)); [lia|]. reflexivity.
Qed.

Lemma checked_inv (x y : Z) : checked x = ok y -> y = x /\ - overflow < x < overflow.
Proof.
  unfold checked.
  destruct (Z.leb_spec overflow x); [discriminate|].
  destruct (Z.leb_spec x (- overflow)); [discriminate|].
  intros [= <-]. lia.
Qed.

Lemma checked_overflow (x : Z) :
  overflow <= x \/ x <= - overflow -> checked x = raised OverflowError.
Proof.
  intros Hx. unfold checked.
  destruct (Z.leb_spec overflow x); [reflexivity|].
  destruct (Z.leb_spec x (- overflow)); [reflexivity|lia].
Qed.

Lemma clamp_finite (x : Z) : - overflow < x < overflow -> clamp x = finite x.
Proof.
  intros Hx. unfold clamp.
  destruct (Z.leb_spec overflow x); [lia|].
  destruct (Z.leb_spec x (- overflow)); [lia|]. reflexivity.
Qed.

(** [float(z)] is exact up to [2^53]. *)
Lemma of_int_exact (z : Z) : - 2 ^ 53 <= z <= 2 ^ 53 -> of_int z = ok (z * one).
Proof.
  intros Hz. unfold of_int.
  replace (z * one) with (z * one * 1) at 1 by lia.
  rewrite round_exact; [|rewrite Z.abs_mul, (Z.abs_eq one) by (pose proof one_pos; lia);
                          apply representable_int; lia|lia].
  apply checked_ok. rewrite overflow_one. pose proof one_pos. nia.
Qed.

(** Below [2^52] the rounded quotient by 100 truncates to the exact
    one. *)
Lemma round_pos_100 (a : Z) :
  0 <= a <= 2 ^ 52 ->
  (a / 100) * one <= round_pos (a * one) 100 < (a / 100 + 1) * one.
Proof.
  intros Ha. pose proof one_pos as Hone.
  pose proof (Z.div_mod a 100 ltac:(lia)) as Hdiv.
  pose proof (Z.mod_pos_bound a 100 ltac:(lia)) as Hmod.
  set (q := a / 100) in *.
  assert (one = 128 * 2 ^ 1067) as Hsplit.
  { unfold one. change 128 with (2 ^ 7). rewrite <- Z.pow_add_r by lia. reflexivity. }
  assert (0 < 2 ^ 1067) as HP by (apply Z.pow_pos_nonneg; lia).
  split.
  - apply round_pos_ge; [apply representable_int; lia|nia|lia|nia].
  - assert (round_pos (a * one) 100 <= ((q + 1) * 128 - 1) * 2 ^ 1067) as Hup.
    { apply round_pos_le; [|nia|lia|].
      - exists ((q + 1) * 128 - 1), 1067. split; [lia|]. split; [lia|reflexivity].
      - rewrite Hsplit. set (P := 2 ^ 1067) in *.
        assert (0 <= (12800 * q + 12700 - 128 * a) * P)
          by (apply Z.mul_nonneg_nonneg; lia).
        lia. }
    clearbody q. rewrite Hsplit in Hup |- *. clear Hsplit.
    set (P := 2 ^ 1067) in *. lia.
Qed.

Lemma to_int_round_100 (a : Z) :
  - 2 ^ 52 <= a <= 2 ^ 52 ->
  true_div a 100 = ok (round (a * one) 100)
  /\ to_int (round (a * one) 100) = Z.quot a 100.
Proof.
  intros Ha. pose proof one_pos as Hone. rewrite true_div_pos by lia.
  assert (forall b, 0 <= b <= 2 ^ 52 ->
            round_pos (b * one) 100 < overflow
            /\ Z.quot (round_pos (b * one) 100) one = Z.quot b 100) as Hpos.
  { intros b Hb. pose proof (round_pos_100 b Hb) as Hk.
    pose proof (Z.div_mod b 100 ltac:(lia)) as Hdiv.
    pose proof (Z.mod_pos_bound b 100 ltac:(lia)) as Hmod.
    split.
    - rewrite overflow_one.
      assert ((b / 100 + 1) * one <= 2 ^ 1024 * one)
        by (apply Z.mul_le_mono_nonneg_r; lia).
      lia.
    - rewrite !Z.quot_div_nonneg by lia.
      symmetry. apply Z.div_unique with (round_pos (b * one) 100 - b / 100 * one); lia. }
  unfold to_int, round.
  destruct (Z.leb_spec 0 (a * one)) as [Hs|Hs].
  - destruct (Hpos a ltac:(nia)) as [Hlt Hq].
    pose proof (round_pos_nonneg (a * one) 100 Hs ltac:(lia)).
    split; [apply checked_ok; lia|exact Hq].
  - assert (a < 0) by nia.
    replace (- (a * one)) with (- a * one) by lia.
    destruct (Hpos (- a) ltac:(lia)) as [Hlt Hq].
    pose proof (round_pos_nonneg (- a * one) 100 ltac:(nia) ltac:(lia)).
    split; [apply checked_ok; lia|].
    rewrite Z.quot_opp_l, Hq by lia. rewrite Z.quot_opp_l by lia. lia.
Qed.

(** Whatever the magnitude, a whole bound on the exact quotient holds
    for the truncated rounded one. *)
Lemma to_int_true_div_ge (n a b x : Z) :
  0 < b -> 0 <= n <= 2 ^ 53 -> n * b <= a ->
  true_div a b = ok x -> n <= to_int x.
Proof.
  intros Hb Hn Hle Hx. pose proof one_pos as Hone.
  rewrite true_div_pos in Hx by exact Hb. apply checked_inv in Hx as [-> _].
  assert (n * one <= round (a * one) b) as Hk.
  { apply round_ge; [|exact Hb|nia].
    rewrite Z.abs_eq by nia. apply representable_int, Hn. }
  unfold to_int. rewrite Z.quot_div_nonneg by nia.
  apply Z.div_le_lower_bound; lia.
Qed.

Lemma to_int_true_div_le (n a b x : Z) :
  0 < b -> 0 <= n <= 2 ^ 53 -> a <= - n * b ->
  true_div a b = ok x -> to_int x <= - n.
Proof.
  intros Hb Hn Hle Hx. pose proof one_pos as Hone.
  rewrite true_div_pos in Hx by exact Hb. apply checked_inv in Hx as [-> _].
  assert (round (a * one) b <= - n * one) as Hk.
  { apply round_le; [|exact Hb|nia].
    rewrite Z.abs_neq by nia. replace (- (- n * one)) with (n * one) by lia.
    apply representable_int, Hn. }
  unfold to_int.
  replace (round (a * one) b) with (- (- round (a * one) b)) by lia.
  rewrite Z.quot_opp_l by lia. rewrite Z.quot_div_nonneg by nia.
  assert (n <= - round (a * one) b / one) by (apply Z.div_le_lower_bound; lia).
  lia.
Qed.

(** A quotient of [2^1024] or more in magnitude cannot be converted. *)
Lemma true_div_overflow (a b : Z) :
  0 < b -> 2 ^ 1024 * b <= Z.abs a -> true_div a b = raised OverflowError.
Proof.
  intros Hb Ha. pose proof one_pos as Hone.
  rewrite true_div_pos by exact Hb. apply checked_overflow.
  destruct (Z.le_gt_cases 0 a) as [Hs|Hs].
  - left. rewrite Z.abs_eq in Ha by lia.
    apply round_ge; [|exact Hb|rewrite overflow_one; nia].
    rewrite Z.abs_eq by (rewrite overflow_one; nia). apply representable_overflow.
  - right. rewrite Z.abs_neq in Ha by lia.
    apply round_le; [|exact Hb|rewrite overflow_one; nia].
    rewrite Z.abs_neq, Z.opp_involutive by (rewrite overflow_one; nia).
    apply representable_overflow.
Qed.

End Rounding.

(** ** Latency percentiles *)

Lemma sorted_lookup_le (s : list Z) (i j : nat) (x y : Z) :
  StronglySorted Z.le s -> (i <= j)%nat ->
  s !! i = Some x -> s !! j = Some y -> x <= y.
Proof.
  intros Hs. revert i j. induction Hs as [|a s Hs IH Hall]; intros i j Hij Hx Hy.
  - discriminate.
  - destruct i as [|i], j as [|j]; cbn in Hx, Hy.
    + assert (x = y) by congruence. lia.
    + injection Hx as <-. rewrite Forall_forall in Hall.
      apply Hall. apply list_elem_of_lookup. eauto.
    + lia.
    + apply (IH i j); [lia|assumption..].
Qed.

Lemma quot_100_lt (a n : Z) :
  0 <= n -> (Z.quot a 100 < - n <-> a <= -100 * (n + 1)).
Proof.
  intros Hn. destruct (Z.le_gt_cases 0 a) as [Ha|Ha].
  - pose proof (Z.quot_pos a 100 Ha ltac:(lia)). lia.
  - pose proof (Z.quot_rem' (- a) 100) as Hqr.
    pose proof (Z.rem_bound_pos (- a) 100 ltac:(lia) ltac:(lia)) as Hr.
    rewrite Z.quot_opp_l in Hqr by lia. lia.
Qed.

Lemma true_div_raises (a b : Z) (e : exn) :
  0 < b -> binary64.true_div a b = raised e -> e = OverflowError.
Proof.
  intros Hb. rewrite true_div_pos by exact Hb. unfold binary64.checked.
  destruct (_ || _); [|discriminate]. intros [= <-]. reflexivity.
Qed.

Section Percentile.

Variable latencies : list Z.
Hypothesis nonempty : latencies <> [].

Abbreviation sorted_latencies := (merge_sort Z.le latencies).
Abbreviation len := (Z.of_nat (length latencies)).
Abbreviation percentile_of p := (utils.calculate_latency_percentile latencies p).

Lemma sorted_length : length sorted_latencies = length latencies.
Proof. apply Permutation_length, merge_sort_Permutation. Qed.

Lemma len_pos : 0 < len.
Proof. destruct latencies; [contradiction|cbn; lia]. Qed.

Lemma percentile_unfold (p : Z) :
  percentile_of p
  = x ← binary64.true_div (len * p) 100;
    utils.py_index sorted_latencies (Z.min (binary64.to_int x) (len - 1)).
Proof.
  unfold utils.calculate_latency_percentile.
  destruct latencies as [|x l] eqn:Hl; [contradiction|].
  rewrite <- Hl. cbv zeta. rewrite sorted_length. reflexivity.
Qed.

(** While [len * p] stays below [2^52] in magnitude, the index is the
    exact quotient, truncated. *)
Lemma percentile_exact (p : Z) :
  - 2 ^ 52 <= len * p <= 2 ^ 52 ->
  percentile_of p
  = utils.py_index sorted_latencies (Z.min (Z.quot (len * p) 100) (len - 1)).
Proof.
  intros Hp. rewrite percentile_unfold.
  destruct (to_int_round_100 (len * p) Hp) as [-> Hq].
  cbn [mbind result_bind]. rewrite Hq. reflexivity.
Qed.

Lemma py_index_in_range (i : Z) :
  0 <= i < len ->
  exists v, utils.py_index sorted_latencies i = ok v
            /\ sorted_latencies !! Z.to_nat i = Some v
            /\ v ∈ latencies.
Proof.
  intros Hi. unfold utils.py_index. cbv zeta.
  replace (0 <=? i) with true by (symmetry; apply Z.leb_le; lia).
  destruct (lookup_lt_is_Some_2 sorted_latencies (Z.to_nat i)) as [v Hv];
    [rewrite sorted_length; lia|].
  exists v. rewrite Hv. split; [reflexivity|]. split; [reflexivity|].
  rewrite <- (merge_sort_Permutation Z.le latencies).
  apply list_elem_of_lookup. eauto.
Qed.

Lemma py_index_before_start (i : Z) :
  i < - len -> utils.py_index sorted_latencies i = raised IndexError.
Proof.
  intros Hi. pose proof len_pos. unfold utils.py_index. cbv zeta.
  rewrite sorted_length.
  replace (0 <=? i) with false by (symmetry; apply Z.leb_gt; lia).
  replace (0 <=? len + i) with false by (symmetry; apply Z.leb_gt; lia).
  reflexivity.
Qed.

Lemma percentile_nonneg (p : Z) :
  0 <= p -> len * p <= 2 ^ 52 ->
  exists v,
    percentile_of p = ok v
    /\ sorted_latencies
         !! Z.to_nat (Z.min (Z.quot (len * p) 100) (len - 1)) = Some v
    /\ v ∈ latencies.
Proof.
  intros Hp Hsmall. pose proof len_pos as Hlen.
  rewrite percentile_exact by nia.
  assert (0 <= Z.quot (len * p) 100) as Hq by (apply Z.quot_pos; lia).
  apply py_index_in_range. lia.
Qed.

(** A percentile that is not negative never gives [IndexError]. *)
Lemma percentile_nonneg_any (p : Z) :
  0 <= p ->
  (exists v, percentile_of p = ok v /\ v ∈ latencies)
  \/ percentile_of p = raised OverflowError.
Proof.
  intros Hp. pose proof len_pos as Hlen. rewrite percentile_unfold.
  destruct (binary64.true_div (len * p) 100) as [x|e] eqn:Hdiv.
  - left. cbn [mbind result_bind].
    pose proof (to_int_true_div_ge 0 (len * p) 100 x ltac:(lia) ltac:(lia)
                  ltac:(nia) Hdiv) as Hx.
    destruct (py_index_in_range (Z.min (binary64.to_int x) (len - 1)) ltac:(lia))
      as (v & Hv & _ & Hin).
    exists v. split; assumption.
  - right. cbn [mbind result_bind].
    rewrite (true_div_raises (len * p) 100 e ltac:(lia) Hdiv). reflexivity.
Qed.

Lemma percentile_monotone (p p' v v' : Z) :
  0 <= p <= p' -> len * p' <= 2 ^ 52 ->
  percentile_of p = ok v -> percentile_of p' = ok v' -> v <= v'.
Proof.
  intros Hp Hsmall Hv Hv'. pose proof len_pos as Hlen.
  destruct (percentile_nonneg p) as (w & Hw & Hlook & _); [lia|nia|].
  destruct (percentile_nonneg p') as (w' & Hw' & Hlook' & _); [lia|lia|].
  rewrite Hw in Hv. rewrite Hw' in Hv'. injection Hv as <-. injection Hv' as <-.
  assert (0 <= Z.quot (len * p) 100) by (apply Z.quot_pos; lia).
  assert (Z.quot (len * p) 100 <= Z.quot (len * p') 100)
    by (apply Z.quot_le_mono; nia).
  eapply (sorted_lookup_le sorted_latencies); [|  |exact Hlook|exact Hlook'].
  - apply StronglySorted_merge_sort; apply _.
  - lia.
Qed.

Lemma percentile_lookup (p v : Z) :
  0 <= p -> percentile_of p = ok v ->
  exists x, binary64.true_div (len * p) 100 = ok x
            /\ sorted_latencies
                 !! Z.to_nat (Z.min (binary64.to_int x) (len - 1)) = Some v.
Proof.
  intros Hp Hv. pose proof len_pos as Hlen. rewrite percentile_unfold in Hv.
  destruct (binary64.true_div (len * p) 100) as [x|e] eqn:Hdiv; [|discriminate].
  cbn [mbind result_bind] in Hv. exists x. split; [reflexivity|].
  pose proof (to_int_true_div_ge 0 (len * p) 100 x ltac:(lia) ltac:(lia)
                ltac:(nia) Hdiv) as Hx.
  destruct (py_index_in_range (Z.min (binary64.to_int x) (len - 1)) ltac:(lia))
    as (w & Hw & Hlook & _).
  rewrite Hw in Hv. injection Hv as <-. exact Hlook.
Qed.

Lemma percentile_extremes (v : Z) :
  (forall p, 100 <= p -> len <= 2 ^ 53 ->
     percentile_of p = ok v ->
     forall x, x ∈ latencies -> x <= v)
  /\ (percentile_of 0 = ok v ->
      forall x, x ∈ latencies -> v <= x).
Proof.
  pose proof len_pos as Hlen.
  assert (StronglySorted Z.le sorted_latencies) as Hsorted
    by (apply StronglySorted_merge_sort; apply _).
  split.
  - intros p Hp Hsmall Hv x Hx.
    destruct (percentile_lookup p v ltac:(lia) Hv) as (y & Hdiv & Hlook).
    pose proof (to_int_true_div_ge len (len * p) 100 y ltac:(lia) ltac:(lia)
                  ltac:(nia) Hdiv) as Hy.
    rewrite <- (merge_sort_Permutation Z.le latencies) in Hx.
    apply list_elem_of_lookup in Hx as [i Hi].
    pose proof (lookup_lt_Some _ _ _ Hi) as Hlt. rewrite sorted_length in Hlt.
    eapply (sorted_lookup_le sorted_latencies); [exact Hsorted| |exact Hi|exact Hlook].
    lia.
  - intros Hv x Hx.
    destruct (percentile_nonneg 0) as (w & Hw & Hlook & _); [lia|lia|].
    rewrite Hw in Hv. injection Hv as <-.
    rewrite <- (merge_sort_Permutation Z.le latencies) in Hx.
    apply list_elem_of_lookup in Hx as [i Hi].
    rewrite Z.mul_0_r in Hlook. change (Z.quot 0 100) with 0 in Hlook.
    replace (Z.to_nat (Z.min 0 (len - 1))) with 0%nat in Hlook by lia.
    eapply (sorted_lookup_le sorted_latencies); [exact Hsorted| |exact Hlook|exact Hi].
    lia.
Qed.

Lemma percentile_raises (p : Z) :
  - 2 ^ 52 <= len * p <= 2 ^ 52 ->
  (percentile_of p = raised IndexError <-> len * p <= -100 * (len + 1))
  /\ percentile_of p <> raised OverflowError.
Proof.
  intros Hsmall. pose proof len_pos as Hlen. rewrite percentile_exact by exact Hsmall.
  pose proof (quot_100_lt (len * p) len ltac:(lia)) as Hiff.
  set (index := Z.quot (len * p) 100) in *.
  destruct (Z_lt_le_dec (Z.min index (len - 1)) (- len)) as [Hlow|Hlow].
  - rewrite py_index_before_start by exact Hlow.
    split; [split; [lia|reflexivity]|discriminate].
  - assert (exists v, utils.py_index sorted_latencies (Z.min index (len - 1)) = ok v)
      as [v ->].
    { destruct (Z.le_gt_cases 0 (Z.min index (len - 1))) as [Hi|Hi].
      - destruct (py_index_in_range (Z.min index (len - 1)) ltac:(lia))
          as (v & Hv & _); eauto.
      - unfold utils.py_index. cbv zeta. rewrite sorted_length.
        replace (0 <=? Z.min index (len - 1)) with false
          by (symmetry; apply Z.leb_gt; lia).
        replace (0 <=? len + Z.min index (len - 1)) with true
          by (symmetry; apply Z.leb_le; lia).
        destruct (lookup_lt_is_Some_2 sorted_latencies
                    (Z.to_nat (len + Z.min index (len - 1)))) as [v ->];
          [rewrite sorted_length; lia|].
        eauto. }
    split; [split; [discriminate|lia]|discriminate].
Qed.

Lemma percentile_low (p : Z) :
  p <= -200 -> len <= 2 ^ 52 ->
  percentile_of p = raised IndexError \/ percentile_of p = raised OverflowError.
Proof.
  intros Hp Hsmall. pose proof len_pos as Hlen. rewrite percentile_unfold.
  destruct (binary64.true_div (len * p) 100) as [x|e] eqn:Hdiv.
  - left. cbn [mbind result_bind].
    pose proof (to_int_true_div_le (2 * len) (len * p) 100 x ltac:(lia) ltac:(lia)
                  ltac:(nia) Hdiv) as Hx.
    apply py_index_before_start. lia.
  - right. cbn [mbind result_bind].
    rewrite (true_div_raises (len * p) 100 e ltac:(lia) Hdiv). reflexivity.
Qed.

Lemma percentile_overflow (p : Z) :
  2 ^ 1024 * 100 <= Z.abs (len * p) -> percentile_of p = raised OverflowError.
Proof.
  intros Hbig. rewrite percentile_unfold.
  rewrite true_div_overflow by (lia || exact Hbig). reflexivity.
Qed.

End Percentile.

(** X16. On a non-empty list of [n] latencies and for a percentile that
    is not negative, [calculate_latency_percentile] returns an element
    of the list or raises [OverflowError], which needs [n * percentile]
    above [2^52]; below that bound the result does not decrease when the
    percentile grows.  For a percentile of 100 or more the result is the
    maximum and for 0 it is the minimum. *)
Theorem latency_percentile_order (latencies : list Z) :
  latencies <> [] ->
  let n := Z.of_nat (length latencies) in
  (forall p, 0 <= p ->
     (exists v, utils.calculate_latency_percentile latencies p = ok v
                /\ v ∈ latencies)
     \/ (utils.calculate_latency_percentile latencies p = raised OverflowError
         /\ 2 ^ 52 < n * p))
  /\ (forall p p' v v',
        0 <= p <= p' -> n * p' <= 2 ^ 52 ->
        utils.calculate_latency_percentile latencies p = ok v ->
        utils.calculate_latency_percentile latencies p' = ok v' ->
        v <= v')
  /\ (forall p v,
        100 <= p -> n <= 2 ^ 53 ->
        utils.calculate_latency_percentile latencies p = ok v ->
        forall x, x ∈ latencies -> x <= v)
  /\ (forall v,
        utils.calculate_latency_percentile latencies 0 = ok v ->
        forall x, x ∈ latencies -> v <= x).
Proof.
  intros Hne n. split; [|split; [|split]].
  - intros p Hp.
    destruct (percentile_nonneg_any latencies Hne p Hp) as [Hok|Hraised];
      [left; exact Hok|].
    right. split; [exact Hraised|].
    destruct (Z.le_gt_cases (n * p) (2 ^ 52)) as [Hsmall|Hbig]; [|exact Hbig].
    destruct (percentile_nonneg latencies Hne p Hp Hsmall) as (v & Hv & _).
    rewrite Hv in Hraised. discriminate.
  - intros p p' v v'. apply (percentile_monotone latencies Hne).
  - intros p v. apply (percentile_extremes latencies Hne v).
  - intros v. apply (percentile_extremes latencies Hne v).
Qed.

Lemma latency_percentile_order_witness :
  Forall (fun x => x <= 30) [30; 10; 20].
Proof.
  apply Forall_forall.
  apply (proj1 (proj2 (proj2 (latency_percentile_order [30; 10; 20]
                                ltac:(discriminate)))) 100 30).
  - lia.
  - simpl. lia.
  - vm_compute. reflexivity.
Defined.

(** X17. [calculate_latency_percentile] returns 0 on the empty list for
    every percentile.  On a non-empty list of length [n], while
    [n * percentile] stays within [2^52] in magnitude, it raises
    [IndexError] exactly when [n * percentile <= -100 * (n + 1)], the
    truncated index then falling before the start of the list, and it
    does not raise [OverflowError]; a percentile of -200 or less always
    raises one of the two; and it raises [OverflowError] when
    [n * percentile / 100] reaches [2^1024] in magnitude. *)
Theorem latency_percentile_errors (latencies : list Z) (percentile : Z) :
  utils.calculate_latency_percentile [] percentile = ok 0
  /\ (latencies <> [] ->
      let n := Z.of_nat (length latencies) in
      let r := utils.calculate_latency_percentile latencies percentile in
      (- 2 ^ 52 <= n * percentile <= 2 ^ 52 ->
       (r = raised IndexError <-> n * percentile <= -100 * (n + 1))
       /\ r <> raised OverflowError)
      /\ (percentile <= -200 -> n <= 2 ^ 52 ->
          r = raised IndexError \/ r = raised OverflowError)
      /\ (2 ^ 1024 * 100 <= Z.abs (n * percentile) -> r = raised OverflowError)).
Proof.
  split; [reflexivity|]. intros Hne n r. split; [|split].
  - apply (percentile_raises latencies Hne).
  - apply (percentile_low latencies Hne).
  - apply (percentile_overflow latencies Hne).
Qed.

Lemma latency_percentile_errors_witness :
  utils.calculate_latency_percentile [30; 10; 20] (10 ^ 311) = raised OverflowError.
Proof.
  apply (proj2 (proj2 (proj2 (latency_percentile_errors [30; 10; 20] (10 ^ 311))
                         ltac:(discriminate)))).
  apply Z.leb_le. vm_compute. reflexivity.
Defined.

(** ** Metrics *)

Lemma representable_nonneg (x : Z) : binary64.representable x -> 0 <= x.
Proof.
  intros (g & f & Hf & Hg & ->).
  assert (0 < 2 ^ f) by (apply Z.pow_pos_nonneg; lia). nia.
Qed.

Lemma round_abs_le (x n d : Z) :
  binary64.representable x -> 0 < d -> Z.abs n <= x * d ->
  - x <= binary64.round n d <= x.
Proof.
  intros Hx Hd Hn. pose proof (representable_nonneg x Hx) as Hx0. split.
  - apply round_ge; [|exact Hd|lia].
    rewrite Z.abs_neq, Z.opp_involutive by lia. exact Hx.
  - apply round_le; [|exact Hd|lia].
    rewrite Z.abs_eq by lia. exact Hx.
Qed.

Lemma metrics_sum_bounds (lo hi : Z) (l : list Z) :
  Forall (fun x => lo <= x <= hi) l ->
  lo * Z.of_nat (length l) <= metrics.sum_Z l <= hi * Z.of_nat (length l).
Proof.
  induction 1 as [|x l Hx Hl IH]; [simpl; lia|].
  cbn [metrics.sum_Z fold_right length]. fold (metrics.sum_Z l). lia.
Qed.

(** The mean of whole numbers within [2^53] in magnitude lies between
    any two whole bounds of theirs, whether it is returned exactly or
    rounded. *)
Lemma mean_bounds (lo hi : Z) (l : list Z) :
  l <> [] ->
  Forall (fun x => lo <= x <= hi) l ->
  - 2 ^ 53 <= lo -> hi <= 2 ^ 53 ->
  exists m, metrics.mean l = ok m
            /\ (inject_Z lo <= binary64.value m <= inject_Z hi)%Q.
Proof.
  intros Hne Hall Hlo Hhi. pose proof (metrics_sum_bounds lo hi l Hall) as Hsum.
  pose proof one_pos as Hone.
  assert (0 < Z.of_nat (length l)) as Hn by (destruct l; [contradiction|cbn; lia]).
  assert (lo <= hi) as Hlohi by nia.
  unfold metrics.mean. destruct l as [|x0 l0] eqn:Hl; [contradiction|].
  rewrite <- Hl in *. clear Hl. cbv zeta.
  set (total := metrics.sum_Z l) in *. set (n := Z.of_nat (length l)) in *.
  destruct (total mod n =? 0).
  - eexists. split; [reflexivity|]. cbn [binary64.value].
    rewrite <- !Zle_Qle. split.
    + apply Z.div_le_lower_bound; lia.
    + apply Z.div_le_upper_bound; lia.
  - rewrite true_div_pos by exact Hn.
    assert (lo * binary64.one <= binary64.round (total * binary64.one) n) as Hge.
    { apply round_ge; [|exact Hn|nia].
      rewrite Z.abs_mul, (Z.abs_eq binary64.one) by lia.
      apply representable_int. lia. }
    assert (binary64.round (total * binary64.one) n <= hi * binary64.one) as Hle.
    { apply round_le; [|exact Hn|nia].
      rewrite Z.abs_mul, (Z.abs_eq binary64.one) by lia.
      apply representable_int. lia. }
    rewrite checked_ok.
    + eexists. split; [reflexivity|]. cbn [binary64.value].
      unfold Qle, inject_Z. cbn [Qnum Qden].
      rewrite Z2Pos.id by exact Hone. lia.
    + rewrite overflow_one.
      assert (- (2 ^ 1024 * binary64.one) < - 2 ^ 53 * binary64.one) by nia.
      assert (2 ^ 53 * binary64.one < 2 ^ 1024 * binary64.one) by nia.
      assert (- 2 ^ 53 * binary64.one <= lo * binary64.one) by nia.
      assert (hi * binary64.one <= 2 ^ 53 * binary64.one) by nia.
      lia.
Qed.

Lemma mean_raises (l : list Z) (e : exn) :
  l <> [] -> metrics.mean l = raised e -> e = OverflowError.
Proof.
  intros Hne. unfold metrics.mean. destruct l as [|x0 l0] eqn:Hl; [contradiction|].
  rewrite <- Hl. cbv zeta. destruct (_ =? 0); [discriminate|].
  destruct (binary64.true_div _ _) as [x|e'] eqn:Hdiv; [discriminate|].
  cbn [mbind result_bind]. intros [= <-].
  eapply true_div_raises; [|exact Hdiv]. rewrite Hl. cbn. lia.
Qed.

Lemma fold_min_max (x : Z) (rest : list Z) :
  Forall (fun v => fold_right Z.min x rest <= v <= fold_right Z.max x rest)
    (x :: rest).
Proof.
  induction rest as [|y rest IH]; cbn [fold_right].
  - repeat constructor; lia.
  - apply Forall_cons in IH as [Hx Hrest].
    constructor; [lia|]. constructor; [lia|].
    eapply Forall_impl; [exact Hrest|]. simpl. intros v Hv. lia.
Qed.

Lemma fold_min_max_in (x : Z) (rest : list Z) :
  fold_right Z.min x rest ∈ x :: rest /\ fold_right Z.max x rest ∈ x :: rest.
Proof.
  induction rest as [|y rest [IHmin IHmax]]; cbn [fold_right].
  - split; apply list_elem_of_here.
  - assert (forall v, v ∈ x :: rest -> v ∈ x :: y :: rest) as Hweaken.
    { intros v Hv. apply elem_of_cons in Hv as [->|Hv];
        [apply list_elem_of_here|do 2 apply list_elem_of_further; exact Hv]. }
    split.
    + destruct (Z.min_spec y (fold_right Z.min x rest)) as [[_ ->]|[_ ->]].
      * apply list_elem_of_further, list_elem_of_here.
      * apply Hweaken, IHmin.
    + destruct (Z.max_spec y (fold_right Z.max x rest)) as [[_ ->]|[_ ->]].
      * apply Hweaken, IHmax.
      * apply list_elem_of_further, list_elem_of_here.
Qed.

(** X18. [compute_latency] on samples without latencies returns zeros
    and no minimum or maximum.  On [n] latencies with [99 * n <= 2^52],
    all within [2^53] in magnitude, it returns results that are ordered,
    [min <= p50 <= p95 <= p99 <= max], with the mean between [min] and
    [max], and so is every latency of the samples.  Samples without a
    ["latency_ms"] entry are ignored.  The only exception it can raise
    is [OverflowError]. *)
Theorem compute_latency_ordered (samples : list metrics.sample) :
  let latencies := omap (fun s : metrics.sample => s !! "latency_ms") samples in
  (latencies = [] ->
   metrics.compute_latency samples
   = ok {| metrics.lat_mean := binary64.int 0; metrics.p50 := 0;
           metrics.p95 := 0; metrics.p99 := 0;
           metrics.lat_min := None; metrics.lat_max := None |})
  /\ (latencies <> [] ->
      99 * Z.of_nat (length latencies) <= 2 ^ 52 ->
      Forall (fun v => - 2 ^ 53 <= v <= 2 ^ 53) latencies ->
      exists st lo hi,
        metrics.compute_latency samples = ok st
        /\ metrics.lat_min st = Some lo /\ metrics.lat_max st = Some hi
        /\ lo <= metrics.p50 st <= metrics.p95 st
        /\ metrics.p95 st <= metrics.p99 st <= hi
        /\ (inject_Z lo <= binary64.value (metrics.lat_mean st) <= inject_Z hi)%Q
        /\ Forall (fun v => lo <= v <= hi) latencies)
  /\ (forall e, metrics.compute_latency samples = raised e -> e = OverflowError).
Proof.
  cbv zeta. unfold metrics.compute_latency.
  destruct (omap (fun s : metrics.sample => s !! "latency_ms") samples)
    as [|x rest] eqn:Hlat.
  - split; [reflexivity|]. split; [intros Hne; contradiction|]. discriminate.
  - assert (x :: rest <> []) as Hne by discriminate.
    split; [discriminate|]. split.
    + intros _ Hlen Hmag.
      pose proof (fold_min_max x rest) as Hbounds.
      destruct (fold_min_max_in x rest) as [Hmin Hmax].
      rewrite Forall_forall in Hmag.
      destruct (mean_bounds (fold_right Z.min x rest) (fold_right Z.max x rest)
                  (x :: rest) Hne Hbounds)
        as (m & -> & Hmean);
        [apply (Hmag _ Hmin)|apply (Hmag _ Hmax)|].
      destruct (percentile_nonneg (x :: rest) Hne 50) as (v50 & H50 & _ & Hin50);
        [lia|lia|].
      destruct (percentile_nonneg (x :: rest) Hne 95) as (v95 & H95 & _ & _);
        [lia|lia|].
      destruct (percentile_nonneg (x :: rest) Hne 99) as (v99 & H99 & _ & Hin99);
        [lia|lia|].
      rewrite H50, H95, H99. cbn [mbind result_bind].
      eexists _, _, _. split; [reflexivity|].
      cbn [metrics.p50 metrics.p95 metrics.p99 metrics.lat_min metrics.lat_max
           metrics.lat_mean].
      pose proof (percentile_monotone (x :: rest) Hne 50 95 v50 v95
                    ltac:(lia) ltac:(lia) H50 H95).
      pose proof (percentile_monotone (x :: rest) Hne 95 99 v95 v99
                    ltac:(lia) ltac:(lia) H95 H99).
      rewrite Forall_forall in Hbounds.
      pose proof (Hbounds v50 Hin50). pose proof (Hbounds v99 Hin99).
      split; [reflexivity|]. split; [reflexivity|]. split; [lia|]. split; [lia|].
      split; [exact Hmean|apply Forall_forall; exact Hbounds].
    + intros e.
      destruct (metrics.mean (x :: rest)) as [m|e0] eqn:Hmean;
        cbn [mbind result_bind].
      2:{ intros [= <-]. apply (mean_raises (x :: rest) e0 Hne Hmean). }
      destruct (percentile_nonneg_any (x :: rest) Hne 50 ltac:(lia))
        as [(v50 & -> & _)| ->]; cbn [mbind result_bind]; [|congruence].
      destruct (percentile_nonneg_any (x :: rest) Hne 95 ltac:(lia))
        as [(v95 & -> & _)| ->]; cbn [mbind result_bind]; [|congruence].
      destruct (percentile_nonneg_any (x :: rest) Hne 99 ltac:(lia))
        as [(v99 & -> & _)| ->]; cbn [mbind result_bind]; [|congruence].
      discriminate.
Qed.

Lemma compute_latency_ordered_witness :
  exists st lo hi,
    metrics.compute_latency
      [{["latency_ms" := 30]}; ∅; {["latency_ms" := 10]}; {["latency_ms" := 21]}]
    = ok st
    /\ metrics.lat_min st = Some lo /\ metrics.lat_max st = Some hi
    /\ lo <= metrics.p50 st <= metrics.p95 st
    /\ metrics.p95 st <= metrics.p99 st <= hi
    /\ (inject_Z lo <= binary64.value (metrics.lat_mean st) <= inject_Z hi)%Q
    /\ Forall (fun v => lo <= v <= hi)
         (omap (fun s : metrics.sample => s !! "latency_ms")
            [{["latency_ms" := 30]}; ∅; {["latency_ms" := 10]};
             {["latency_ms" := 21]}]).
Proof.
  apply (proj1 (proj2 (compute_latency_ordered
           [{["latency_ms" := 30]}; ∅; {["latency_ms" := 10]};
            {["latency_ms" := 21]}]))).
  - discriminate.
  - vm_compute. discriminate.
  - repeat constructor; vm_compute; discriminate.
Defined.

(** X19. [compute_packet_loss] returns 0.0 when nothing was sent (no
    division by zero).  For [0 <= received <= sent] it returns a finite
    float between 0.0 and 100.0: 0.0 when everything sent was received,
    100.0 when nothing was, and more than 0.0 when something was lost,
    as long as [sent <= 2^1074] (beyond, the quotient can underflow to
    0.0).  The counters that [get_stats] reports for a CAN bus after any
    sequence of calls on a fresh bus always satisfy
    [0 <= received <= sent]. *)
Theorem packet_loss_range (sent received : Z) :
  metrics.compute_packet_loss 0 received = ok (binary64.finite 0)
  /\ (0 < sent -> 0 <= received <= sent ->
      exists x,
        metrics.compute_packet_loss sent received = ok (binary64.finite x)
        /\ 0 <= x <= 100 * binary64.one
        /\ (received = sent -> x = 0)
        /\ (received = 0 -> x = 100 * binary64.one)
        /\ (received < sent -> sent <= 2 ^ 1074 -> 0 < x))
  /\ forall (batch_size : Z) (ops : list can_bus.op),
       let stats := can_bus.get_stats (can_bus.run (can_bus.init batch_size) ops).1 in
       0 <= can_bus.received stats <= can_bus.sent stats.
Proof.
  split; [reflexivity|]. split.
  - intros Hs Hr. pose proof one_pos as Hone.
    unfold metrics.compute_packet_loss.
    destruct (Z.eqb_spec sent 0) as [->|_]; [lia|].
    rewrite true_div_pos by exact Hs.
    set (ratio := binary64.round ((sent - received) * binary64.one) sent).
    assert (0 <= ratio <= binary64.one) as Hratio.
    { split.
      - apply round_ge; [apply representable_0|exact Hs|nia].
      - apply round_le; [|exact Hs|nia].
        rewrite Z.abs_eq by lia.
        replace binary64.one with (1 * binary64.one) by lia.
        apply representable_int. lia. }
    rewrite checked_ok
      by (rewrite overflow_one;
          assert (1 * binary64.one < 2 ^ 1024 * binary64.one)
            by (apply Z.mul_lt_mono_pos_r; lia); lia).
    cbn [mbind result_bind]. unfold binary64.mul.
    rewrite quotient_pos by exact Hone.
    set (x := binary64.round (ratio * (100 * binary64.one)) binary64.one).
    assert (0 <= x <= 100 * binary64.one) as Hx.
    { split.
      - apply round_ge; [apply representable_0|exact Hone|nia].
      - apply round_le; [|exact Hone|nia].
        rewrite Z.abs_eq by lia. apply representable_int. lia. }
    rewrite clamp_finite
      by (rewrite overflow_one;
          assert (100 * binary64.one < 2 ^ 1024 * binary64.one)
            by (apply Z.mul_lt_mono_pos_r; lia); lia).
    exists x. split; [reflexivity|]. split; [exact Hx|]. split; [|split].
    + intros ->. subst x ratio.
      replace ((sent - sent) * binary64.one) with (0 * sent) by lia.
      rewrite round_exact by (exact Hs || apply representable_0).
      replace (0 * (100 * binary64.one)) with (0 * binary64.one) by lia.
      apply round_exact; [apply representable_0|exact Hone].
    + intros ->. subst x ratio.
      replace ((sent - 0) * binary64.one) with (binary64.one * sent) by lia.
      rewrite round_exact; [|rewrite Z.abs_eq by lia;
                             replace binary64.one with (1 * binary64.one) by lia;
                             apply representable_int; lia|exact Hs].
      replace (binary64.one * (100 * binary64.one))
        with (100 * binary64.one * binary64.one) by lia.
      apply round_exact; [|exact Hone].
      rewrite Z.abs_eq by lia. apply representable_int. lia.
    + intros Hlost Hsmall.
      assert (1 <= ratio) as Hr1.
      { apply round_ge; [exists 1, 0; lia|exact Hs|].
        change (2 ^ 1074) with binary64.one in Hsmall. nia. }
      assert (100 <= x); [|lia].
      apply round_ge; [exists 100, 0; lia|exact Hone|nia].
  - intros batch_size ops. cbv zeta.
    destruct (can_bus_fifo batch_size ops) as (_ & _ & Hrecv & Hstats).
    cbn [can_bus.get_stats can_bus.sent can_bus.received can_bus.queued] in *.
    lia.
Qed.

Lemma packet_loss_range_witness :
  exists x,
    metrics.compute_packet_loss 10 4 = ok (binary64.finite x)
    /\ 0 <= x <= 100 * binary64.one
    /\ (4 = 10 -> x = 0)
    /\ (4 = 0 -> x = 100 * binary64.one)
    /\ (4 < 10 -> 10 <= 2 ^ 1074 -> 0 < x).
Proof.
  apply (proj1 (proj2 (packet_loss_range 10 4))); lia.
Defined.

Lemma milli_bounds :
  0 < metrics.milli /\ binary64.one <= 1000 * metrics.milli
  /\ metrics.milli <= binary64.one.
Proof.
  split; [|split].
  - apply Z.ltb_lt. vm_compute. reflexivity.
  - apply Z.leb_le. vm_compute. reflexivity.
  - apply Z.leb_le. vm_compute. reflexivity.
Qed.

Lemma representable_pow (f : Z) : 0 <= f -> binary64.representable (2 ^ f).
Proof. intros Hf. exists 1, f. lia. Qed.

Lemma of_int_overflow (z : Z) :
  2 ^ 1024 <= Z.abs z -> binary64.of_int z = raised OverflowError.
Proof.
  intros Hz. pose proof one_pos as Hone. unfold binary64.of_int.
  apply checked_overflow.
  destruct (Z.le_gt_cases 0 z) as [Hs|Hs].
  - left. rewrite Z.abs_eq in Hz by lia.
    apply round_ge; [|lia|rewrite overflow_one; nia].
    rewrite Z.abs_eq by (rewrite overflow_one; nia). apply representable_overflow.
  - right. rewrite Z.abs_neq in Hz by lia.
    apply round_le; [|lia|rewrite overflow_one; nia].
    rewrite Z.abs_neq, Z.opp_involutive by (rewrite overflow_one; nia).
    apply representable_overflow.
Qed.

(** [float(z)] for [|z| <= 2^1023]. *)
Lemma of_int_bounded (z : Z) :
  Z.abs z <= 2 ^ 1023 ->
  exists x, binary64.of_int z = ok x /\ Z.abs x <= 2 ^ 1023 * binary64.one.
Proof.
  intros Hz. pose proof one_pos as Hone. unfold binary64.of_int.
  assert (binary64.representable (2 ^ 1023 * binary64.one)) as Hrep.
  { unfold binary64.one. rewrite <- Z.pow_add_r by lia. apply representable_pow. lia. }
  destruct (round_abs_le (2 ^ 1023 * binary64.one) (z * binary64.one) 1 Hrep
              ltac:(lia)) as [Hlo Hhi].
  { rewrite Z.abs_mul, (Z.abs_eq binary64.one) by lia.
    rewrite Z.mul_1_r. apply Z.mul_le_mono_nonneg_r; lia. }
  exists (binary64.round (z * binary64.one) 1). split; [|lia].
  apply checked_ok. rewrite overflow_one.
  assert (2 ^ 1023 * binary64.one < 2 ^ 1024 * binary64.one)
    by (apply Z.mul_lt_mono_pos_r; lia).
  lia.
Qed.

(** X20. [compute_throughput] returns 0.0 for no samples.  When the
    duration is left out it is taken from the first and last ["ts_ms"]
    (0 when missing) and never counted below [0.001], so the call does
    not divide by zero: for up to [2^53 / 1000] samples whose first and
    last timestamps differ by at most [2^1023], the result is a finite
    float, more than 0.0 and at most 1000.0 per sample; when they differ
    by [2^1024] or more the conversion to float raises [OverflowError].
    A duration given as 0.0 raises [ZeroDivisionError]. *)
Theorem compute_throughput_cases
    (samples : list metrics.sample) (duration_s : binary64.float) :
  metrics.compute_throughput [] (Some duration_s) = ok (binary64.finite 0)
  /\ metrics.compute_throughput [] None = ok (binary64.finite 0)
  /\ (samples <> [] ->
      1000 * Z.of_nat (length samples) <= 2 ^ 53 ->
      let first_ts := default 0 (head samples ≫= fun s => s !! "ts_ms") in
      let last_ts := default 0 (last samples ≫= fun s => s !! "ts_ms") in
      (Z.abs (last_ts - first_ts) <= 2 ^ 1023 ->
       exists t,
         metrics.compute_throughput samples None = ok (binary64.finite t)
         /\ 0 < t <= 1000 * Z.of_nat (length samples) * binary64.one)
      /\ (2 ^ 1024 <= Z.abs (last_ts - first_ts) ->
          metrics.compute_throughput samples None = raised OverflowError)
      /\ metrics.compute_throughput samples (Some (binary64.finite 0))
         = raised ZeroDivisionError).
Proof.
  split; [reflexivity|]. split; [reflexivity|]. intros Hne Hlen.
  destruct samples as [|first rest]; [contradiction|].
  pose proof one_pos as Hone.
  destruct milli_bounds as (Hm0 & Hm1 & Hm2).
  assert (0 < Z.of_nat (length (first :: rest))) as Hpos by (cbn; lia).
  cbv zeta. unfold metrics.compute_throughput.
  change (default 0 (head (first :: rest) ≫= fun s : gmap string Z => s !! "ts_ms"))
    with (default 0 (first !! "ts_ms")).
  set (elapsed_ms := default 0 (last (first :: rest) ≫= (fun s => s !! "ts_ms"))
                     - default 0 (first !! "ts_ms")).
  set (n := Z.of_nat (length (first :: rest))) in *.
  assert (binary64.of_int n = ok (n * binary64.one)) as Hn
    by (apply of_int_exact; lia).
  split; [|split].
  - intros Hsmall.
    destruct (of_int_bounded elapsed_ms Hsmall) as (x & -> & Hx).
    cbn [mbind result_bind]. unfold binary64.div.
    destruct (Z.eqb_spec (1000 * binary64.one) 0) as [|_]; [lia|].
    cbn [mbind result_bind]. rewrite quotient_pos by lia.
    assert (binary64.representable (2 ^ 1023 * binary64.one)) as Hrep.
    { unfold binary64.one. rewrite <- Z.pow_add_r by lia.
      apply representable_pow. lia. }
    destruct (round_abs_le (2 ^ 1023 * binary64.one) (x * binary64.one)
                (1000 * binary64.one) Hrep ltac:(lia)) as [Hlo Hhi].
    { rewrite Z.abs_mul, (Z.abs_eq binary64.one) by lia.
      assert (Z.abs x * binary64.one <= 2 ^ 1023 * binary64.one * binary64.one)
        by (apply Z.mul_le_mono_nonneg_r; lia).
      assert (0 <= 2 ^ 1023 * binary64.one * binary64.one) by nia.
      lia. }
    assert (2 ^ 1023 * binary64.one < binary64.overflow) as Hfin.
    { rewrite overflow_one. apply Z.mul_lt_mono_pos_r; lia. }
    rewrite clamp_finite by lia.
    set (elapsed := binary64.round (x * binary64.one) (1000 * binary64.one)) in *.
    unfold binary64.max. cbn [binary64.lt].
    set (duration := if elapsed <? metrics.milli then metrics.milli else elapsed).
    assert (metrics.milli <= duration <= 2 ^ 1023 * binary64.one) as Hd.
    { subst duration. destruct (Z.ltb_spec elapsed metrics.milli); [|lia].
      assert (1 * binary64.one <= 2 ^ 1023 * binary64.one)
        by (apply Z.mul_le_mono_nonneg_r; lia).
      lia. }
    replace (if elapsed <? metrics.milli
             then binary64.finite metrics.milli else binary64.finite elapsed)
      with (binary64.finite duration)
      by (subst duration; destruct (elapsed <? metrics.milli); reflexivity).
    rewrite Hn. cbn [mbind result_bind binary64.div_by]. unfold binary64.div.
    destruct (Z.eqb_spec duration 0) as [|_]; [lia|].
    rewrite quotient_pos by lia.
    set (t := binary64.round (n * binary64.one * binary64.one) duration).
    assert (1 <= t) as Hlow.
    { apply round_ge; [exists 1, 0; lia|lia|].
      assert (2 ^ 1023 <= binary64.one) as Hbig
        by (unfold binary64.one; apply Z.pow_le_mono_r; lia).
      assert (2 ^ 1023 * binary64.one <= binary64.one * binary64.one)
        by (apply Z.mul_le_mono_nonneg_r; lia).
      assert (1 * (binary64.one * binary64.one) <= n * (binary64.one * binary64.one))
        by (apply Z.mul_le_mono_nonneg_r; nia).
      lia. }
    assert (t <= 1000 * n * binary64.one) as Hhigh.
    { apply round_le; [|lia|].
      - rewrite Z.abs_eq by nia. apply representable_int. lia.
      - assert (binary64.one <= 1000 * duration) by lia.
        assert (n * binary64.one * binary64.one
                <= n * binary64.one * (1000 * duration))
          by (apply Z.mul_le_mono_nonneg_l; nia).
        lia. }
    rewrite clamp_finite.
    + exists t. split; [reflexivity|lia].
    + rewrite overflow_one.
      assert (1000 * n * binary64.one < 2 ^ 1024 * binary64.one)
        by (apply Z.mul_lt_mono_pos_r; lia).
      lia.
  - intros Hbig. rewrite (of_int_overflow elapsed_ms Hbig). reflexivity.
  - cbn [mbind result_bind]. rewrite Hn. reflexivity.
Qed.

Lemma compute_throughput_cases_witness :
  exists t,
    metrics.compute_throughput [{["ts_ms" := 1000]}; ∅; {["ts_ms" := 3000]}] None
    = ok (binary64.finite t)
    /\ 0 < t <= 1000 * 3 * binary64.one.
Proof.
  apply (proj1 (proj2 (proj2 (compute_throughput_cases
           [{["ts_ms" := 1000]}; ∅; {["ts_ms" := 3000]}] (binary64.finite 0)))
           ltac:(discriminate) ltac:(vm_compute; discriminate))).
  apply Z.leb_le. vm_compute. reflexivity.
Defined.

(** ** The secure scenario, one frame at a time *)

Section SecureStep.

Variable secret : list byte.
Variable w : scenarios.plant.
Variable clk : gateway.clock.
Variable frame : CANFrame.

Abbreviation sent_frame := (scenarios.auth_frame secret frame).
Abbreviation can_check := (security.check_can (scenarios.ids w) sent_frame).
Abbreviation translated :=
  (gateway.can_to_eth (scenarios.translator w) clk (scenarios.msg_counter w)
     sent_frame None).
Abbreviation eth_check := (security.check_eth can_check.1 translated.2).

Lemma secure_step_cases :
  scenarios.secure_step secret w clk frame
  = if negb (security.CanAlerts.alerts can_check.2) then
      if negb (security.EthAlerts.alerts eth_check.2) then
        ({| scenarios.ids := eth_check.1;
            scenarios.can := can_bus.send (scenarios.can w) sent_frame;
            scenarios.eth := ethernet_bus.send (scenarios.eth w) translated.2;
            scenarios.translator := translated.1.1;
            scenarios.msg_counter := translated.1.2 |}, scenarios.passed)
      else
        ({| scenarios.ids := eth_check.1;
            scenarios.can := can_bus.send (scenarios.can w) sent_frame;
            scenarios.eth := scenarios.eth w;
            scenarios.translator := translated.1.1;
            scenarios.msg_counter := translated.1.2 |}, scenarios.blocked_eth)
    else
      ({| scenarios.ids := can_check.1;
          scenarios.can := scenarios.can w;
          scenarios.eth := scenarios.eth w;
          scenarios.translator := scenarios.translator w;
          scenarios.msg_counter := scenarios.msg_counter w |}, scenarios.blocked_can).
Proof.
  unfold scenarios.secure_step. cbv zeta.
  destruct can_check as [ids1 alerts] eqn:Hcan. cbn [fst snd].
  destruct (negb (security.CanAlerts.alerts alerts)); [|reflexivity].
  destruct translated as [[translator' counter'] pkt] eqn:Htr. cbn [fst snd].
  destruct (security.check_eth ids1 pkt) as [ids2 eth_alerts]. cbn [fst snd].
  reflexivity.
Qed.

Lemma translated_packet :
  payload translated.2 = security.attach_auth secret (data frame)
  /\ ethernet_bus.src translated.2 = "gateway"
  /\ ethernet_bus.ts_ms translated.2 = gateway.t_stamp clk.
Proof. rewrite can_to_eth_packet. repeat split. Qed.

End SecureStep.

(** X21. One pass of the secure loop.  The frame, with its tag
    attached, is checked; it is [blocked_can] exactly when that check
    flags a replay, the rate or an injection, and then nothing changes
    but the engine (one check counted).  Otherwise the authenticated
    frame is put on the CAN bus and its translation is checked by the
    engine the first check left (two checks counted); the frame is
    [passed] exactly when this check flags nothing either, and only then
    is the packet put on the Ethernet bus; that packet has source
    ["gateway"] and carries the frame's data with its tag, from which
    [strip_and_verify] recovers the data.  So a frame whose fingerprint
    the engine has seen, and a frame with an id above [0x700], are
    always blocked; the frame put on the CAN bus declares a [dlc] of the
    data length plus 8. *)
Theorem secure_step_outcome (secret : list byte)
    (w : scenarios.plant) (clk : gateway.clock) (frame : CANFrame) :
  let r := scenarios.secure_step secret w clk frame in
  let sent_frame := scenarios.auth_frame secret frame in
  let can_check := security.check_can (scenarios.ids w) sent_frame in
  let pkt :=
    (gateway.can_to_eth (scenarios.translator w) clk (scenarios.msg_counter w)
       sent_frame None).2 in
  let eth_check := security.check_eth can_check.1 pkt in
  match r.2 with
  | scenarios.blocked_can =>
      scenarios.can r.1 = scenarios.can w
      /\ scenarios.eth r.1 = scenarios.eth w
      /\ scenarios.translator r.1 = scenarios.translator w
      /\ scenarios.msg_counter r.1 = scenarios.msg_counter w
      /\ security.total_checked (scenarios.ids r.1)
         = security.total_checked (scenarios.ids w) + 1
  | scenarios.blocked_eth =>
      can_bus.q (scenarios.can r.1) = can_bus.q (scenarios.can w) ++ [sent_frame]
      /\ scenarios.eth r.1 = scenarios.eth w
      /\ security.total_checked (scenarios.ids r.1)
         = security.total_checked (scenarios.ids w) + 2
  | scenarios.passed =>
      can_bus.q (scenarios.can r.1) = can_bus.q (scenarios.can w) ++ [sent_frame]
      /\ security.total_checked (scenarios.ids r.1)
         = security.total_checked (scenarios.ids w) + 2
      /\ exists pkt,
           ethernet_bus.q (scenarios.eth r.1)
           = ethernet_bus.q (scenarios.eth w) ++ [pkt]
           /\ ethernet_bus.src pkt = "gateway"
           /\ payload pkt = security.attach_auth secret (data frame)
           /\ security.strip_and_verify secret (payload pkt) = (data frame, true)
  end
  /\ (can_id frame > 0x700 -> r.2 = scenarios.blocked_can)
  /\ dlc sent_frame = Z.of_nat (length (data frame)) + 8
  /\ (r.2 = scenarios.blocked_can
      <-> security.CanAlerts.replay can_check.2
          || security.CanAlerts.dos_rate can_check.2
          || security.CanAlerts.injection can_check.2 = true)
  /\ (r.2 = scenarios.passed
      <-> security.CanAlerts.replay can_check.2
          || security.CanAlerts.dos_rate can_check.2
          || security.CanAlerts.injection can_check.2 = false
          /\ security.EthAlerts.replay eth_check.2
             || security.EthAlerts.dos_rate eth_check.2
             || security.EthAlerts.spoofing eth_check.2 = false)
  /\ scenarios.ids r.1
     = (if decide (r.2 = scenarios.blocked_can) then can_check.1 else eth_check.1)
  /\ (security._hash_message (data sent_frame) (pretty (can_id frame))
        ∈ security.seen_hashes (scenarios.ids w) ->
      r.2 = scenarios.blocked_can).
Proof.
  cbv zeta. rewrite secure_step_cases.
  destruct (check_can_counters (scenarios.ids w) (scenarios.auth_frame secret frame))
    as (Hc1 & Halerts & _).
  destruct (check_can_replay (scenarios.ids w) (scenarios.auth_frame secret frame))
    as (Hreplay & _).
  destruct (translated_packet secret w clk frame) as (Hpay & Hsrc & _).
  cbv zeta in *. rewrite <- Halerts.
  match goal with |- context [security.check_eth ?s ?p] =>
    destruct (check_eth_counters s p) as (Hc2 & Halerts2 & _) end.
  cbv zeta in Hc2, Halerts2. rewrite <- Halerts2.
  assert (security.CanAlerts.injection
            (security.check_can (scenarios.ids w)
               (scenarios.auth_frame secret frame)).2
          = (can_id frame >? 0x700)) as Hinj by reflexivity.
  split; [|split; [|split; [|split; [|split; [|split]]]]].
  - destruct (negb (security.CanAlerts.alerts _)); cbn [fst snd];
      [|repeat split; exact Hc1].
    destruct (negb (security.EthAlerts.alerts _)); cbn [fst snd scenarios.can
      scenarios.eth scenarios.ids].
    + split; [reflexivity|]. split; [lia|].
      eexists. split; [reflexivity|]. split; [exact Hsrc|]. split; [exact Hpay|].
      rewrite Hpay. apply strip_attach.
    + split; [reflexivity|]. split; [reflexivity|]. lia.
  - intros Hid. rewrite Halerts, Hinj.
    replace (can_id frame >? 0x700) with true
      by (symmetry; apply (Z.gtb_lt (can_id frame) 0x700); lia).
    rewrite orb_true_r. reflexivity.
  - cbn [dlc scenarios.auth_frame]. unfold security.attach_auth.
    rewrite length_app, length_sign. lia.
  - destruct (security.CanAlerts.alerts _); cbn [negb fst snd];
      [split; reflexivity|].
    destruct (negb (security.EthAlerts.alerts _)); cbn [snd];
      split; discriminate.
  - destruct (security.CanAlerts.alerts _); cbn [negb fst snd].
    + split; [discriminate|]. intros [Hc _]. discriminate.
    + destruct (security.EthAlerts.alerts _); cbn [negb snd].
      * split; [discriminate|]. intros [_ He]. discriminate.
      * split; [intros _; split; reflexivity|reflexivity].
  - destruct (security.CanAlerts.alerts _); cbn [negb fst snd].
    + rewrite decide_True by reflexivity. reflexivity.
    + destruct (negb (security.EthAlerts.alerts _)); cbn [fst snd scenarios.ids];
        rewrite decide_False by discriminate; reflexivity.
  - intros Hseen. rewrite Halerts, Hreplay.
    cbn [data can_id scenarios.auth_frame] in Hseen |- *.
    rewrite bool_decide_eq_true_2 by exact Hseen. reflexivity.
Qed.

Lemma secure_step_outcome_witness :
  (scenarios.secure_step sample.secret (scenarios.fresh_plant sample.msg_counter) sample.clk
     (sample.frame 5 0x701 [x01])).2
  = scenarios.blocked_can.
Proof.
  apply (proj1 (proj2 (secure_step_outcome sample.secret
                         (scenarios.fresh_plant sample.msg_counter) sample.clk
                         (sample.frame 5 0x701 [x01])))).
  reflexivity.
Defined.

(** ** The secure scenario, over a list of frames *)

Local Abbreviation gateway_key := (inr "gateway" : security.rate_key).

Section SecureRun.

Variable secret : list byte.

Abbreviation authentic pkt :=
  (ethernet_bus.src pkt = "gateway"
   /\ exists m, security.strip_and_verify secret (payload pkt) = (m, true)).

Lemma secure_step_effect (w : scenarios.plant) (clk : gateway.clock)
    (frame : CANFrame) :
  let r := scenarios.secure_step secret w clk frame in
  (exists new_eth,
      ethernet_bus.q (scenarios.eth r.1) = ethernet_bus.q (scenarios.eth w) ++ new_eth
      /\ Forall (fun pkt => authentic pkt) new_eth
      /\ length new_eth = (if decide (r.2 = scenarios.passed) then 1 else 0)%nat)
  /\ (exists new_can,
      can_bus.q (scenarios.can r.1) = can_bus.q (scenarios.can w) ++ new_can
      /\ length new_can = (if decide (r.2 = scenarios.blocked_can) then 0 else 1)%nat)
  /\ security.total_checked (scenarios.ids r.1)
     = security.total_checked (scenarios.ids w)
       + (if decide (r.2 = scenarios.blocked_can) then 1 else 2)
  /\ security.window_ms (scenarios.ids r.1) = security.window_ms (scenarios.ids w)
  /\ security.rate_threshold (scenarios.ids r.1)
     = security.rate_threshold (scenarios.ids w)
  /\ (r.2 = scenarios.blocked_can ->
      window (scenarios.ids r.1) gateway_key = window (scenarios.ids w) gateway_key)
  /\ (r.2 <> scenarios.blocked_can ->
      window (scenarios.ids r.1) gateway_key
      = pushed (scenarios.ids w) gateway_key (gateway.t_stamp clk))
  /\ (r.2 = scenarios.passed ->
      Z.of_nat (length (window (scenarios.ids r.1) gateway_key))
      <= security.rate_threshold (scenarios.ids w)).
Proof.
  cbv zeta. rewrite secure_step_cases.
  destruct (check_can_counters (scenarios.ids w) (scenarios.auth_frame secret frame))
    as (Hc1 & _).
  destruct (check_can_step (scenarios.ids w) (scenarios.auth_frame secret frame))
    as (Hw1 & Ht1 & Hts1 & _).
  destruct (translated_packet secret w clk frame) as (Hpay & Hsrc & Hstamp).
  cbv zeta in *.
  destruct (negb (security.CanAlerts.alerts _)); cbn [fst snd].
  - match goal with |- context [security.check_eth ?s ?p] =>
      destruct (check_eth_counters s p) as (Hc2 & Halerts & _);
      destruct (check_eth_step s p) as (Hw2 & Ht2 & Hts2 & Hdos)
    end.
    cbv zeta in *. rewrite Hsrc, Hstamp in Hts2, Hdos.
    assert (window (security.check_can (scenarios.ids w)
                      (scenarios.auth_frame secret frame)).1 gateway_key
            = window (scenarios.ids w) gateway_key) as Hsame.
    { rewrite Hts1, lookup_insert_ne by discriminate. reflexivity. }
    rewrite Hw1, Hsame in Hts2. rewrite Hw1, Ht1, Hsame in Hdos.
    destruct (negb (security.EthAlerts.alerts _)) eqn:Hclean; cbn [fst snd
      scenarios.can scenarios.eth scenarios.ids].
    + repeat (rewrite decide_True by reflexivity).
      repeat (rewrite decide_False by discriminate).
      split.
      { eexists [_]. split; [reflexivity|]. split; [|reflexivity].
        repeat constructor; [exact Hsrc|].
        eexists. rewrite Hpay. apply strip_attach. }
      split; [eexists [_]; split; reflexivity|].
      rewrite Hts2, lookup_insert_eq. cbn [default from_option]. unfold id.
      split; [lia|]. split; [congruence|]. split; [congruence|].
      split; [discriminate|]. split; [reflexivity|].
      intros _. apply negb_true_iff in Hclean. rewrite Halerts in Hclean.
      apply orb_false_iff in Hclean as [Hclean _].
      apply orb_false_iff in Hclean as [_ Hclean].
      rewrite Hdos in Hclean.
      rewrite Z.gtb_ltb in Hclean. apply Z.ltb_ge in Hclean. exact Hclean.
    + repeat (rewrite decide_False by discriminate).
      split; [exists []; rewrite app_nil_r; split; [reflexivity|];
              split; [constructor|reflexivity]|].
      split; [eexists [_]; split; reflexivity|].
      rewrite Hts2, lookup_insert_eq. cbn [default from_option]. unfold id.
      split; [lia|]. split; [congruence|]. split; [congruence|].
      split; [discriminate|]. split; [reflexivity|]. discriminate.
  - cbn [scenarios.can scenarios.eth scenarios.ids].
    repeat (rewrite decide_False by discriminate).
    repeat (rewrite decide_True by reflexivity).
    split; [exists []; rewrite app_nil_r; split; [reflexivity|];
            split; [constructor|reflexivity]|].
    split; [exists []; rewrite app_nil_r; split; reflexivity|].
    rewrite Hts1, lookup_insert_ne by discriminate.
    split; [lia|]. split; [congruence|]. split; [congruence|].
    split; [reflexivity|]. split; [contradiction|]. discriminate.
Qed.

Lemma secure_run_cons (w : scenarios.plant) (clk : gateway.clock)
    (frame : CANFrame) (work : list (gateway.clock * CANFrame)) :
  scenarios.secure_run secret w ((clk, frame) :: work)
  = ((scenarios.secure_run secret
        (scenarios.secure_step secret w clk frame).1 work).1,
     (scenarios.secure_step secret w clk frame).2
       :: (scenarios.secure_run secret
             (scenarios.secure_step secret w clk frame).1 work).2).
Proof.
  cbn [scenarios.secure_run].
  destruct (scenarios.secure_step secret w clk frame) as [w1 st]. cbn [fst snd].
  destruct (scenarios.secure_run secret w1 work) as [w2 sts]. reflexivity.
Qed.

End SecureRun.

Local Abbreviation count_status st sts :=
  (length (filter (fun s : scenarios.status => s = st) sts)).

Local Abbreviation count_sent sts :=
  (length (filter (fun s : scenarios.status => s <> scenarios.blocked_can) sts)).

(** The stamps of the frames of a run lie within [window_ms] of one
    another. *)
Local Abbreviation stamps_within W work :=
  (Forall (fun a : gateway.clock * CANFrame =>
     Forall (fun b : gateway.clock * CANFrame =>
       gateway.t_stamp b.1 - gateway.t_stamp a.1 <= W) work) work).

Lemma secure_run_window (secret : list byte) (W T : Z)
    (work : list (gateway.clock * CANFrame)) :
  forall (w : scenarios.plant) (pre acc : list Z),
    security.window_ms (scenarios.ids w) = W ->
    security.rate_threshold (scenarios.ids w) = T ->
    window (scenarios.ids w) gateway_key = pre ++ acc ->
    Forall (fun t => Forall (fun b : gateway.clock * CANFrame =>
                       gateway.t_stamp b.1 - t <= W) work) acc ->
    stamps_within W work ->
    Z.of_nat (length acc
              + count_status scenarios.passed
                  (scenarios.secure_run secret w work).2)
    <= Z.max (Z.of_nat (length acc)) T.
Proof.
  induction work as [|[clk frame] work IH]; intros w pre acc HW HT Hwin Hacc Hwork.
  - cbn [scenarios.secure_run snd]. rewrite filter_nil. cbn [length]. lia.
  - rewrite secure_run_cons. cbn [snd].
    destruct (secure_step_effect secret w clk frame)
      as (_ & _ & _ & HW1 & HT1 & Hblocked & Hsent & Hpassed).
    cbv zeta in *. rewrite HW in HW1. rewrite HT in HT1, Hpassed.
    assert (stamps_within W work) as Hwork'.
    { apply Forall_cons in Hwork as [_ Hwork].
      eapply Forall_impl; [exact Hwork|]. cbn beta.
      intros a Ha. apply Forall_cons in Ha as [_ Ha]. exact Ha. }
    assert (Forall (fun t => Forall (fun b : gateway.clock * CANFrame =>
                       gateway.t_stamp b.1 - t <= W) work) acc) as Hacc'.
    { eapply Forall_impl; [exact Hacc|]. cbn beta.
      intros t Ht. apply Forall_cons in Ht as [_ Ht]. exact Ht. }
    assert (exists pre',
        pushed (scenarios.ids w) gateway_key (gateway.t_stamp clk)
        = pre' ++ (acc ++ [gateway.t_stamp clk])) as (pre' & Hpushed).
    { rewrite Hwin, HW, <- app_assoc. apply popleft_old_keeps.
      apply Forall_app. split.
      - eapply Forall_impl; [exact Hacc|]. cbn beta.
        intros t Ht. apply Forall_cons in Ht as [Ht _]. exact Ht.
      - constructor; [|constructor].
        apply Forall_cons in Hwork as [Hnow _].
        apply Forall_cons in Hnow as [Hnow _]. exact Hnow. }
    assert (Forall (fun t => Forall (fun b : gateway.clock * CANFrame =>
                       gateway.t_stamp b.1 - t <= W) work)
              (acc ++ [gateway.t_stamp clk])) as Hacc1.
    { apply Forall_app. split; [exact Hacc'|]. constructor; [|constructor].
      apply Forall_cons in Hwork as [Hnow _].
      apply Forall_cons in Hnow as [_ Hnow]. exact Hnow. }
    destruct ((scenarios.secure_step secret w clk frame).2) eqn:Hst.
    + rewrite filter_cons_True by reflexivity. cbn [length].
      specialize (Hsent ltac:(discriminate)). specialize (Hpassed eq_refl).
      rewrite Hsent in Hpassed. rewrite Hpushed in Hsent, Hpassed.
      specialize (IH _ pre' _ HW1 HT1 Hsent Hacc1 Hwork').
      rewrite !length_app in Hpassed. rewrite length_app in IH.
      cbn [length] in *. lia.
    + rewrite filter_cons_False by discriminate.
      specialize (Hsent ltac:(discriminate)). rewrite Hpushed in Hsent.
      specialize (IH _ pre' _ HW1 HT1 Hsent Hacc1 Hwork').
      rewrite length_app in IH. cbn [length] in *. lia.
    + rewrite filter_cons_False by discriminate.
      specialize (Hblocked eq_refl). rewrite Hwin in Hblocked.
      exact (IH _ pre _ HW1 HT1 Hblocked Hacc' Hwork').
Qed.

(** X22. Over any list of frames, from any state, the secure loop reports
    one status per frame; it appends to the Ethernet bus one packet per
    [passed] frame and nothing else, each with source ["gateway"] and a
    payload that [strip_and_verify] accepts; it appends to the CAN bus one
    frame per frame that is not [blocked_can]; and the engine counts one
    check per frame plus one per frame put on the CAN bus. *)
Theorem secure_run_effect (secret : list byte)
    (work : list (gateway.clock * CANFrame)) (w : scenarios.plant) :
  let r := scenarios.secure_run secret w work in
  length r.2 = length work
  /\ (exists new_eth,
        ethernet_bus.q (scenarios.eth r.1)
        = ethernet_bus.q (scenarios.eth w) ++ new_eth
        /\ Forall (fun pkt =>
             ethernet_bus.src pkt = "gateway"
             /\ exists m,
                  security.strip_and_verify secret (payload pkt) = (m, true))
             new_eth
        /\ length new_eth = count_status scenarios.passed r.2)
  /\ (exists new_can,
        can_bus.q (scenarios.can r.1) = can_bus.q (scenarios.can w) ++ new_can
        /\ length new_can = count_sent r.2)
  /\ security.total_checked (scenarios.ids r.1)
     = security.total_checked (scenarios.ids w)
       + Z.of_nat (length work) + Z.of_nat (count_sent r.2).
Proof.
  cbv zeta. revert w.
  induction work as [|[clk frame] work IH]; intros w.
  - cbn [scenarios.secure_run fst snd]. rewrite !filter_nil. cbn [length].
    split; [reflexivity|].
    split; [exists []; rewrite app_nil_r; split; [reflexivity|];
            split; [constructor|reflexivity]|].
    split; [exists []; rewrite app_nil_r; split; reflexivity|]. lia.
  - rewrite secure_run_cons. cbn [fst snd].
    destruct (secure_step_effect secret w clk frame)
      as ((eth1 & Heth1 & Hauth1 & Hlen1) & (can1 & Hcan1 & Hclen1) & Htot1 & _).
    destruct (IH (scenarios.secure_step secret w clk frame).1)
      as (Hlen & (eth2 & Heth2 & Hauth2 & Hlen2) & (can2 & Hcan2 & Hclen2) & Htot2).
    cbv zeta in *.
    split; [cbn [length]; rewrite Hlen; reflexivity|].
    split; [|split].
    + exists (eth1 ++ eth2). rewrite Heth2, Heth1, <- app_assoc.
      split; [reflexivity|]. split; [apply Forall_app; split; assumption|].
      rewrite length_app, Hlen1, Hlen2.
      destruct (decide ((scenarios.secure_step secret w clk frame).2
                        = scenarios.passed)) as [Hst|Hst].
      * rewrite filter_cons_True by exact Hst. reflexivity.
      * rewrite filter_cons_False by exact Hst. reflexivity.
    + exists (can1 ++ can2). rewrite Hcan2, Hcan1, <- app_assoc.
      split; [reflexivity|].
      rewrite length_app, Hclen1, Hclen2.
      destruct (decide ((scenarios.secure_step secret w clk frame).2
                        = scenarios.blocked_can)) as [Hst|Hst].
      * rewrite filter_cons_False by (intros Hne; exact (Hne Hst)). reflexivity.
      * rewrite filter_cons_True by exact Hst. reflexivity.
    + rewrite Htot2, Htot1.
      destruct (decide ((scenarios.secure_step secret w clk frame).2
                        = scenarios.blocked_can)) as [Hst|Hst].
      * rewrite filter_cons_False by (intros Hne; exact (Hne Hst)).
        cbn [length]. lia.
      * rewrite filter_cons_True by exact Hst. cbn [length]. lia.
Qed.

(** X23. The translated packets all have the source ["gateway"], so they
    share one rate window: over a list of frames whose translation stamps
    lie within [window_ms] of one another, at most [rate_threshold]
    frames are reported [passed], whatever the frames are and whatever
    the engine has seen before. *)
Theorem secure_run_throttled (secret : list byte)
    (work : list (gateway.clock * CANFrame)) (w : scenarios.plant) :
  stamps_within (security.window_ms (scenarios.ids w)) work ->
  Z.of_nat (count_status scenarios.passed
              (scenarios.secure_run secret w work).2)
  <= Z.max 0 (security.rate_threshold (scenarios.ids w)).
Proof.
  intros Hwork.
  pose proof (secure_run_window secret _ _ work w
                (window (scenarios.ids w) gateway_key) []
                eq_refl eq_refl (eq_sym (app_nil_r _))
                (Forall_nil_2 _) Hwork) as Hrun.
  cbn [length Nat.add] in Hrun. exact Hrun.
Qed.

Lemma secure_run_throttled_witness :
  Z.of_nat (count_status scenarios.passed
              (scenarios.secure_run sample.secret (scenarios.fresh_plant sample.msg_counter)
                 [(sample.clk, sample.frame 5 0x100 [x01]);
                  (sample.clk, sample.frame 6 0x101 [x02])]).2)
  <= Z.max 0 (security.rate_threshold
                (scenarios.ids (scenarios.fresh_plant sample.msg_counter))).
Proof.
  apply (secure_run_throttled sample.secret
           [(sample.clk, sample.frame 5 0x100 [x01]);
            (sample.clk, sample.frame 6 0x101 [x02])]
           (scenarios.fresh_plant sample.msg_counter)).
  repeat constructor; vm_compute; discriminate.
Defined.
